(** * mongodb-core authentication: AuthProvider and ScramSHA

    A shallow embedding of [lib/auth/auth_provider.js] (the generic
    multi-connection coordinator) and of the SCRAM mechanism module
    (the file defining [parsePayload], [passwordDigest], [xor], [HI] and
    class [ScramSHA]), followed by the properties established about them.

    Conventions.
    - JavaScript strings are modelled by [string]; the characters that the
      code inspects ([=], [,], [_], digits, base64 letters) are ASCII, and
      [Buffer.from(s, 'utf8')] is the list of the character codes.
    - A [Buffer] is a list of integers, each a byte (0..255).
    - Node-style callbacks [(err, r)] are values: a computation that hands
      a command to the transport and continues in a callback is a node
      [Send] of a tree whose children are indexed by the callback's
      arguments.
    - The coordinator runs on the event loop: its state holds the store
      of credentials, the arrays of connections (by address, since the
      code mutates the array it is given), the closures of the [_auth]
      calls in progress, the [process.nextTick] queue and the attempts in
      flight; the environment's moves are the events [Tick] and [Answer].
    - The node [crypto] module ([md5], [pbkdf2Sync], [createHmac],
      [createHash]) and the optional [saslprep] package are not part of the
      repository: they are the fields of the class [Crypto]. *)

From stdpp Require Import base option list strings gmap pretty.
From Stdlib Require Import ZArith Lia Ascii String.

Local Open Scope Z_scope.

(** ** JavaScript values and string primitives *)

Module Js.

(** Numbers, as far as the code needs them: what [parseInt] returns,
    which is [NaN], an infinity, or a double whose value is an integer.
    The two zeros are one value here: the code cannot tell them apart
    (both are falsy, compare alike and print as [0]). *)
Inductive Num : Type :=
| NaN
| Infinity (negative : bool)
| Int (z : Z).

(** Primitive values found in credentials and in reply documents. *)
Inductive Prim : Type :=
| PUndefined
| PNull
| PBool (b : bool)
| PNum (n : Num)
| PStr (s : string).

#[global] Instance Num_eq_dec : EqDecision Num.
Proof. solve_decision. Defined.

#[global] Instance Prim_eq_dec : EqDecision Prim.
Proof. solve_decision. Defined.

(** [if (n)] on a number: [NaN] and [0] are falsy. *)
Definition Num_truthy (n : Num) : bool :=
  match n with
  | NaN => false
  | Infinity _ => true
  | Int z => negb (z =? 0)
  end.

(** [n < k]: any comparison with [NaN] is false. *)
Definition Num_ltb (n : Num) (k : Z) : bool :=
  match n with
  | NaN => false
  | Infinity negative => negative
  | Int z => z <? k
  end.

(** The text of a number.  An integer prints as its decimal digits,
    which is what JavaScript prints up to 2^53; beyond, JavaScript
    prints the shortest digits that read back as the same double (and
    an exponent from 10^21 on), still a different text for a different
    number.  The code never inspects these texts: it compares them (as
    part of a cache key), and it prints a count in its error message
    only when the count is below 4096. *)
Definition Num_toString (n : Num) : string :=
  match n with
  | NaN => "NaN"
  | Infinity false => "Infinity"
  | Infinity true => "-Infinity"
  | Int z => pretty z
  end.

(** ToBoolean. *)
Definition truthy (v : Prim) : bool :=
  match v with
  | PUndefined | PNull => false
  | PBool b => b
  | PNum n => Num_truthy n
  | PStr s => negb (String.eqb s "")
  end.

(** ToString, as used by template literals. *)
Definition ToString (v : Prim) : string :=
  match v with
  | PUndefined => "undefined"
  | PNull => "null"
  | PBool true => "true"
  | PBool false => "false"
  | PNum n => Num_toString n
  | PStr s => s
  end.

(** [v !== false] *)
Definition strict_not_false (v : Prim) : bool :=
  match v with
  | PBool false => false
  | _ => true
  end.

(** [typeof v !== 'string'] *)
Definition not_a_string (v : Prim) : bool :=
  match v with
  | PStr _ => false
  | _ => true
  end.

(** Whether the character [c] occurs in [s]. *)
Fixpoint contains (c : ascii) (s : string) : bool :=
  match s with
  | EmptyString => false
  | String x s' => Ascii.eqb x c || contains c s'
  end.

(** Whether [c] occurs in [s] at most once. *)
Fixpoint occurs_at_most_once (c : ascii) (s : string) : bool :=
  match s with
  | EmptyString => true
  | String x s' =>
      if Ascii.eqb x c then negb (contains c s') else occurs_at_most_once c s'
  end.

(** [Array.prototype.join]: [undefined] and [null] elements print as the
    empty string, the others by ToString. *)
Definition join_elem (v : Prim) : string :=
  match v with
  | PUndefined | PNull => ""
  | _ => ToString v
  end.

Fixpoint join (sep : string) (l : list string) : string :=
  match l with
  | [] => ""
  | [x] => x
  | x :: l' => x +:+ sep +:+ join sep l'
  end.

Fixpoint string_drop (n : nat) (s : string) : string :=
  match n, s with
  | O, _ => s
  | S n', String _ s' => string_drop n' s'
  | S _, EmptyString => EmptyString
  end.

(** [s.replace(pat, rep)] with a string pattern: only the first
    occurrence of [pat] is replaced.  (The replacement strings used by
    the code contain no [$], so they are inserted literally.) *)
Fixpoint replace (pat rep s : string) : string :=
  if String.prefix pat s then rep +:+ string_drop (String.length pat) s
  else match s with
       | EmptyString => EmptyString
       | String c s' => String c (replace pat rep s')
       end.

(** [s.split(sep)] for a one-character separator. *)
Fixpoint split (sep : ascii) (s : string) : list string :=
  match s with
  | EmptyString => [EmptyString]
  | String c s' =>
      if Ascii.eqb c sep then EmptyString :: split sep s'
      else match split sep s' with
           | [] => [String c EmptyString]
           | p :: ps => String c p :: ps
           end
  end.

(** White space, among the characters with a code below 256: tab, line
    feed, vertical tab, form feed, carriage return, space and the
    no-break space U+00A0.  (A payload is read from its bytes as a
    latin1 string, so it holds no other character.) *)
Definition is_space (c : ascii) : bool :=
  let n := Z.of_N (N_of_ascii c) in
  (n =? 32) || ((9 <=? n) && (n <=? 13)) || (n =? 160).

Fixpoint trim_left (s : string) : string :=
  match s with
  | EmptyString => EmptyString
  | String c s' => if is_space c then trim_left s' else s
  end.

Definition digit_of (c : ascii) : option Z :=
  let n := Z.of_N (N_of_ascii c) in
  if (48 <=? n) && (n <=? 57) then Some (n - 48) else None.

(** The longest prefix of decimal digits, as a number. *)
Fixpoint digits (s : string) (acc : option Z) : option Z :=
  match s with
  | EmptyString => acc
  | String c s' =>
      match digit_of c with
      | Some d => digits s' (Some (10 * default 0 acc + d))
      | None => acc
      end
  end.

(** The double nearest to the integer [z], ties going to the even
    mantissa: an integer of magnitude up to 2^53 is a double; a larger
    one keeps its 53 leading bits, rounded; from 2^1024 - 2^970 on the
    result is an infinity. *)
Definition round_double (z : Z) : Num :=
  let a := Z.abs z in
  let e := Z.max 0 (Z.log2 a - 52) in
  let q := Z.shiftr a e in
  let r := a - Z.shiftl q e in
  let half := Z.shiftl 1 (e - 1) in
  let up := (0 <? e) && ((half <? r) || ((r =? half) && Z.odd q)) in
  let v := Z.shiftl (if up then q + 1 else q) e in
  if 2 ^ 1024 <=? v then Infinity (z <? 0) else Int (Z.sgn z * v).

(** [parseInt(v, 10)]: ToString, skip leading white space, an optional
    sign, then the longest run of digits, whose value is rounded to a
    double; [NaN] when there is no digit. *)
Definition parseInt10 (v : Prim) : Num :=
  let s := trim_left (ToString v) in
  let '(sign, s) :=
    match s with
    | String "-" s' => (-1, s')
    | String "+" s' => (1, s')
    | _ => (1, s)
    end in
  match digits s None with
  | Some n => round_double (sign * n)
  | None => NaN
  end.

(** Buffers. *)
Definition Buffer : Type := list Z.

Definition is_byte (z : Z) : Prop := 0 <= z < 256.

(** [Buffer.from(s, 'utf8')] *)
Definition Buffer_from_string (s : string) : Buffer :=
  (fun c => Z.of_N (N_of_ascii c)) <$> list_ascii_of_string s.

(** [Buffer.from(array)]: every entry is truncated to a byte. *)
Definition Buffer_from_array (l : list Z) : Buffer :=
  (fun z => Z.land z 255) <$> l.

(** [buf[i]], where an index out of range reads [undefined], which the
    bit operators coerce to 0. *)
Definition byte_at (buf : Buffer) (i : nat) : Z := default 0 (buf !! i).

End Js.

(** ** Base64, as [Buffer.prototype.toString('base64')] and
       [Buffer.from(s, 'base64')] *)

Module Base64.
Import Js.

Definition alphabet : list ascii :=
  list_ascii_of_string
    "ABCDEFGHIJKLMNOPQRSTUVWXYZabcdefghijklmnopqrstuvwxyz0123456789+/".

Definition pad : ascii := "="%char.

Definition char_of (n : Z) : ascii := default pad (alphabet !! Z.to_nat n).

Fixpoint encode (bs : Buffer) : string :=
  match bs with
  | [] => EmptyString
  | [a] =>
      String (char_of (Z.shiftr a 2))
        (String (char_of (Z.shiftl (Z.land a 3) 4))
           (String pad (String pad EmptyString)))
  | [a; b] =>
      String (char_of (Z.shiftr a 2))
        (String (char_of (Z.lor (Z.shiftl (Z.land a 3) 4) (Z.shiftr b 4)))
           (String (char_of (Z.shiftl (Z.land b 15) 2))
              (String pad EmptyString)))
  | a :: b :: c :: rest =>
      String (char_of (Z.shiftr a 2))
        (String (char_of (Z.lor (Z.shiftl (Z.land a 3) 4) (Z.shiftr b 4)))
           (String (char_of (Z.lor (Z.shiftl (Z.land b 15) 2) (Z.shiftr c 6)))
              (String (char_of (Z.land c 63)) (encode rest))))
  end.

Fixpoint index_of (c : ascii) (l : list ascii) (i : Z) : option Z :=
  match l with
  | [] => None
  | x :: l' => if Ascii.eqb x c then Some i else index_of c l' (i + 1)
  end.

(** The value of a base64 character; node also accepts the URL-safe
    [-] and [_]. *)
Definition unbase64 (c : ascii) : option Z :=
  if Ascii.eqb c "-" then Some 62
  else if Ascii.eqb c "_" then Some 63
  else index_of c alphabet 0.

(** The decoder is lenient: it stops at the first [=] and skips every
    character outside the alphabet. *)
Fixpoint sextets (s : string) : list Z :=
  match s with
  | EmptyString => []
  | String c s' =>
      if Ascii.eqb c pad then []
      else match unbase64 c with
           | Some v => v :: sextets s'
           | None => sextets s'
           end
  end.

Fixpoint bytes_of_sextets (l : list Z) : Buffer :=
  match l with
  | s0 :: s1 :: s2 :: s3 :: rest =>
      Z.land (Z.lor (Z.shiftl s0 2) (Z.shiftr s1 4)) 255
      :: Z.land (Z.lor (Z.shiftl s1 4) (Z.shiftr s2 2)) 255
      :: Z.land (Z.lor (Z.shiftl s2 6) s3) 255
      :: bytes_of_sextets rest
  | [s0; s1; s2] =>
      [Z.land (Z.lor (Z.shiftl s0 2) (Z.shiftr s1 4)) 255;
       Z.land (Z.lor (Z.shiftl s1 4) (Z.shiftr s2 2)) 255]
  | [s0; s1] =>
      [Z.land (Z.lor (Z.shiftl s0 2) (Z.shiftr s1 4)) 255]
  | _ => []
  end.

Definition decode (s : string) : Buffer := bytes_of_sextets (sextets s).

End Base64.

(** ** Values shared by the coordinator and the mechanism *)

Module Types.
Import Js.

(** A connection is an opaque handle. *)
Definition Conn : Type := nat.

(** [MongoCredentials]: the class is defined outside the two modules
    modelled here; these are the fields that they read. *)
Record Credentials : Type := {
  username : Prim;
  password : Prim;
  source : string;
  mechanism : string
}.

(** [r.result] of a server reply: the fields read by the code. *)
Record Result : Type := {
  dollar_err : Prim;            (* result['$err'] *)
  errmsg : Prim;
  done : Prim;
  conversationId : Prim;
  payload : option string       (* result.payload.value(), when present *)
}.

Record Reply : Type := { result : option Result }.

(** The second argument of a node-style callback: [null]/[undefined],
    [false], or a reply object. *)
Inductive Arg2 : Type :=
| RNone
| RFalse
| RSome (r : Reply).

(** Error objects, passed as first callback argument or thrown. *)
Inductive Error : Type :=
| MongoError (msg : string)
| TypeError (msg : string)
| ResultDoc (res : Result)       (* a reply's result document used as error *)
| TransportError (tag : nat)     (* whatever the transport reports *)
| CryptoError.                   (* thrown by the crypto module *)

(** What a call either returns or throws. *)
Inductive Completion (A : Type) : Type :=
| Returns (a : A)
| Throws (e : Error).
Arguments Returns {A} a.
Arguments Throws {A} e.

(** Commands handed to the transport. *)
Inductive Cmd : Type :=
| saslStart (mechanism : string) (payload : Buffer) (autoAuthorize : Z)
| saslContinue (conversationId : Prim) (payload : Buffer).

Record Query : Type := {
  ns : string;
  cmd : Cmd;
  numberToSkip : Z;
  numberToReturn : Z
}.

#[global] Instance Credentials_eq_dec : EqDecision Credentials.
Proof. solve_decision. Defined.

#[global] Instance Result_eq_dec : EqDecision Result.
Proof. solve_decision. Defined.

#[global] Instance Reply_eq_dec : EqDecision Reply.
Proof. solve_decision. Defined.

#[global] Instance Arg2_eq_dec : EqDecision Arg2.
Proof. solve_decision. Defined.

#[global] Instance Error_eq_dec : EqDecision Error.
Proof. solve_decision. Defined.

End Types.

(** ** auth_provider.js: class AuthProvider *)

Module AuthProvider.
Import Js Types.

(** [MongoCredentials.prototype.equals], defined outside this module. *)
Class CredentialsEquals : Type :=
  equals : Credentials -> Credentials -> bool.

(** The callbacks that [_auth] is given: the caller's own, or the
    closure created by the [rid]-th call of [reauthenticate]. *)
Inductive Callback : Type :=
| Caller
| Reauth (rid : nat).

(** Second argument of an [authResultCallback]. *)
Inductive Verdict : Type :=
| VNull
| VBool (b : bool).

(** The variables captured by the closures of one [_auth] call. *)
Record Frame : Type := {
  count : Z;
  numberOfValidConnections : Z;
  errorObject : option Error;
  credentials : Credentials;
  callback : Callback
}.

(** The provider, the arrays of connections it is handed (by reference),
    the event loop, and what has been observed so far. *)
Record State : Type := {
  authStore : list Credentials;
  arrays : gmap nat (list Conn);          (* array objects, by address *)
  frames : list Frame;                    (* live [_auth] closures *)
  nextTick : list (nat * Conn);           (* queued [execute(connection)] *)
  inflight : list (nat * Conn);           (* attempts awaiting their callback *)
  reauths : list Z;                       (* [count] of each [reauthenticate] *)
  attempts : list (Credentials * Conn);   (* calls of [_authenticateSingleConnection] *)
  reported : list (option Error * Verdict); (* calls of the caller's callback *)
  uncaught : list Error                   (* exceptions thrown in callbacks *)
}.

Definition set_authStore (v : list Credentials) (st : State) : State :=
  {| authStore := v; arrays := arrays st; frames := frames st;
     nextTick := nextTick st; inflight := inflight st; reauths := reauths st;
     attempts := attempts st; reported := reported st; uncaught := uncaught st |}.

Definition set_arrays (v : gmap nat (list Conn)) (st : State) : State :=
  {| authStore := authStore st; arrays := v; frames := frames st;
     nextTick := nextTick st; inflight := inflight st; reauths := reauths st;
     attempts := attempts st; reported := reported st; uncaught := uncaught st |}.

Definition set_frames (v : list Frame) (st : State) : State :=
  {| authStore := authStore st; arrays := arrays st; frames := v;
     nextTick := nextTick st; inflight := inflight st; reauths := reauths st;
     attempts := attempts st; reported := reported st; uncaught := uncaught st |}.

Definition set_nextTick (v : list (nat * Conn)) (st : State) : State :=
  {| authStore := authStore st; arrays := arrays st; frames := frames st;
     nextTick := v; inflight := inflight st; reauths := reauths st;
     attempts := attempts st; reported := reported st; uncaught := uncaught st |}.

Definition set_inflight (v : list (nat * Conn)) (st : State) : State :=
  {| authStore := authStore st; arrays := arrays st; frames := frames st;
     nextTick := nextTick st; inflight := v; reauths := reauths st;
     attempts := attempts st; reported := reported st; uncaught := uncaught st |}.

Definition set_reauths (v : list Z) (st : State) : State :=
  {| authStore := authStore st; arrays := arrays st; frames := frames st;
     nextTick := nextTick st; inflight := inflight st; reauths := v;
     attempts := attempts st; reported := reported st; uncaught := uncaught st |}.

Definition set_attempts (v : list (Credentials * Conn)) (st : State) : State :=
  {| authStore := authStore st; arrays := arrays st; frames := frames st;
     nextTick := nextTick st; inflight := inflight st; reauths := reauths st;
     attempts := v; reported := reported st; uncaught := uncaught st |}.

Definition set_reported (v : list (option Error * Verdict)) (st : State) : State :=
  {| authStore := authStore st; arrays := arrays st; frames := frames st;
     nextTick := nextTick st; inflight := inflight st; reauths := reauths st;
     attempts := attempts st; reported := v; uncaught := uncaught st |}.

Definition set_uncaught (v : list Error) (st : State) : State :=
  {| authStore := authStore st; arrays := arrays st; frames := frames st;
     nextTick := nextTick st; inflight := inflight st; reauths := reauths st;
     attempts := attempts st; reported := reported st; uncaught := v |}.

(** A provider whose store holds [store], with nothing scheduled; [conns]
    is the content of the caller's array, at address 0. *)
Definition fresh (store : list Credentials) (conns : list Conn) : State :=
  {| authStore := store; arrays := {[ 0%nat := conns ]}; frames := [];
     nextTick := []; inflight := []; reauths := []; attempts := [];
     reported := []; uncaught := [] |}.

Definition _buildCommand (namespace : string) (c : Cmd) : Query :=
  {| ns := namespace; cmd := c; numberToSkip := 0; numberToReturn := 1 |}.

(** The caller's callback is invoked: record the call. *)
Definition report (err : option Error) (v : Verdict) (st : State) : State :=
  set_reported (reported st ++ [(err, v)]) st.

(** Calling a callback given to [_auth].  The closure of
    [reauthenticate] is
    [function(err) { count = count - 1; if (count === 0) callback(err, null); }]. *)
Definition invoke (cb : Callback) (err : option Error) (v : Verdict)
    (st : State) : State :=
  match cb with
  | Caller => report err v st
  | Reauth rid =>
      match reauths st !! rid with
      | None => st
      | Some c =>
          let c' := c - 1 in
          let st' := set_reauths (<[rid := c']> (reauths st)) st in
          if c' =? 0 then report err VNull st' else st'
      end
  end.

Section WithEquals.
Context {E : CredentialsEquals}.

(** [addCredentials]: push unless [some(cred => cred.equals(credentials))]. *)
Definition addCredentials (cred : Credentials) (st : State) : State :=
  let found := existsb (fun c => equals c cred) (authStore st) in
  if negb found then set_authStore (authStore st ++ [cred]) st else st.

(** How the callback of [execute] reads one outcome [(err, r)]. *)
Inductive Classified : Type :=
| Invalid (e : Error)
| Valid
| Thrown (e : Error).

(** The exception thrown on [r.result] when [r] is [null] or
    [undefined] is the engine's [TypeError]; its message, written here
    as one engine words it, is not used by the code. *)
Definition classify (err : option Error) (r : Arg2) : Classified :=
  match err with
  | Some e => Invalid e
  | None =>
      match r with
      | RNone => Thrown (TypeError "Cannot read property 'result' of null")
      | RFalse => Valid
      | RSome rep =>
          match result rep with
          | None => Valid
          | Some res =>
              if truthy (dollar_err res) then Invalid (ResultDoc res)
              else if truthy (errmsg res) then Invalid (ResultDoc res)
              else Valid
          end
      end
  end.

(** The assignments made by the callback of [execute] to the variables
    of its [_auth] call: [count] is decremented first; then the
    outcome is recorded (an exception thrown on the way leaves the
    other variables as they were). *)
Definition record_outcome (f : Frame) (c : Classified) : Frame :=
  {| count := count f - 1;
     numberOfValidConnections :=
       match c with
       | Valid => numberOfValidConnections f + 1
       | _ => numberOfValidConnections f
       end;
     errorObject :=
       match c with
       | Invalid e => Some e
       | _ => errorObject f
       end;
     credentials := credentials f;
     callback := callback f |}.

(** The error reported when no connection is valid. *)
Definition failure_error (cred : Credentials) (errorObject : option Error) : Error :=
  match errorObject with
  | None => MongoError ("failed to authenticate using " +:+ mechanism cred)
  | Some e => e
  end.

(** The callback passed to [_authenticateSingleConnection] by
    [execute], run for the [_auth] call whose closure is [frames !! id]. *)
Definition on_result (id : nat) (err : option Error) (r : Arg2)
    (st : State) : State :=
  match frames st !! id with
  | None => st
  | Some f =>
      let c := classify err r in
      let f' := record_outcome f c in
      let st' := set_frames (<[id := f']> (frames st)) st in
      match c with
      | Thrown e => set_uncaught (uncaught st ++ [e]) st'
      | _ =>
          if negb (count f' =? 0) then st'
          else if 0 <? numberOfValidConnections f' then
            invoke (callback f') None (VBool true)
              (addCredentials (credentials f') st')
          else
            invoke (callback f')
              (Some (failure_error (credentials f') (errorObject f')))
              (VBool false) st'
      end
  end.

(** [while (connections.length > 0) executeInNextTick(connections.shift())]:
    returns what is left of the array and the extended queue. *)
Fixpoint dispatch (id : nat) (connections : list Conn)
    (queue : list (nat * Conn)) : list Conn * list (nat * Conn) :=
  match connections with
  | [] => (connections, queue)
  | c :: rest => dispatch id rest (queue ++ [(id, c)])
  end.

(** [_auth(writeCommand, connections, credentials, callback)], where
    [connections] is the array object at address [a]. *)
Definition _auth (cb : Callback) (a : nat) (cred : Credentials)
    (st : State) : State :=
  let connections := default [] (arrays st !! a) in
  let count := Z.of_nat (List.length connections) in
  if count =? 0 then invoke cb None VNull st
  else
    let id := List.length (frames st) in
    let f := {| count := count; numberOfValidConnections := 0;
                errorObject := None; credentials := cred; callback := cb |} in
    let '(rest, queue) := dispatch id connections (nextTick st) in
    set_nextTick queue
      (set_arrays (<[a := rest]> (arrays st))
         (set_frames (frames st ++ [f]) st)).

(** [reauthenticate(writeCommand, connections, callback)] *)
Definition reauthenticate (a : nat) (st : State) : State :=
  let snapshot := authStore st in
  let count := Z.of_nat (List.length snapshot) in
  if count =? 0 then report None VNull st
  else
    let rid := List.length (reauths st) in
    let st' := set_reauths (reauths st ++ [count]) st in
    foldl (fun s cred => _auth (Reauth rid) a cred s) st' snapshot.

(** [logout(source)] *)
Definition logout (src : string) (st : State) : State :=
  set_authStore
    (List.filter (fun c => negb (String.eqb (source c) src)) (authStore st)) st.

(** What the environment does: the event loop runs the next queued
    [execute], which starts an attempt; or the [k]-th attempt in
    flight calls back with [(err, r)]. *)
Inductive Event : Type :=
| Tick
| Answer (k : nat) (err : option Error) (r : Arg2).

Definition step (ev : Event) (st : State) : option State :=
  match ev with
  | Tick =>
      match nextTick st with
      | [] => None
      | (id, c) :: queue =>
          match frames st !! id with
          | None => None
          | Some f =>
              Some (set_inflight (inflight st ++ [(id, c)])
                      (set_attempts (attempts st ++ [(credentials f, c)])
                         (set_nextTick queue st)))
          end
      end
  | Answer k err r =>
      match inflight st !! k with
      | None => None
      | Some (id, _) =>
          Some (on_result id err r (set_inflight (delete k (inflight st)) st))
      end
  end.

Fixpoint run (evs : list Event) (st : State) : option State :=
  match evs with
  | [] => Some st
  | ev :: evs' =>
      match step ev st with
      | None => None
      | Some st' => run evs' st'
      end
  end.

(** The outcomes delivered by a schedule, in order of completion. *)
Fixpoint outcomes (evs : list Event) : list (option Error * Arg2) :=
  match evs with
  | [] => []
  | Tick :: evs' => outcomes evs'
  | Answer _ err r :: evs' => (err, r) :: outcomes evs'
  end.

Definition is_valid (o : option Error * Arg2) : bool :=
  match classify o.1 o.2 with
  | Valid => true
  | _ => false
  end.

Definition outcome_error (o : option Error * Arg2) : option Error :=
  match classify o.1 o.2 with
  | Invalid e => Some e
  | _ => None
  end.

(** An outcome respects the callback contract when it carries an error
    or a second argument. *)
Definition well_formed (o : option Error * Arg2) : bool :=
  match classify o.1 o.2 with
  | Thrown _ => false
  | _ => true
  end.

(** No work is left: nothing queued, nothing in flight. *)
Definition quiescent (st : State) : Prop :=
  nextTick st = [] /\ inflight st = [].

(** The verdict that [_auth] reaches on the outcomes [outs] of its
    attempts, listed in order of completion. *)
Definition verdict (cred : Credentials) (outs : list (option Error * Arg2))
    : option Error * Verdict :=
  if existsb is_valid outs then (None, VBool true)
  else (Some (failure_error cred (last (omap outcome_error outs))), VBool false).

(** The state while attempts of the [_auth] call made in [st0] for
    [cred] are outstanding: its closure is the last frame, every
    queued or running attempt is its own, its variables reflect the
    outcomes [outs] received so far, and the attempts started together
    with those still queued are the [planned] ones. *)
Definition in_progress (st0 : State) (cred : Credentials) (cb : Callback)
    (planned : list (Credentials * Conn))
    (outs : list (option Error * Arg2)) (st : State) : Prop :=
  exists f,
    frames st = frames st0 ++ [f]
    /\ credentials f = cred /\ callback f = cb
    /\ Forall (fun t => t.1 = List.length (frames st0)) (nextTick st)
    /\ Forall (fun t => t.1 = List.length (frames st0)) (inflight st)
    /\ count f = Z.of_nat (List.length (nextTick st) + List.length (inflight st))
    /\ 0 < count f
    /\ numberOfValidConnections f
       = Z.of_nat (List.length (List.filter is_valid outs))
    /\ errorObject f = last (omap outcome_error outs)
    /\ authStore st = authStore st0
    /\ reported st = reported st0
    /\ reauths st = reauths st0
    /\ uncaught st = uncaught st0
    /\ attempts st ++ ((fun t => (cred, t.2)) <$> nextTick st) = planned.

(** The exception that an outcome makes the callback of [execute]
    throw, if any. *)
Definition thrown_error (o : option Error * Arg2) : option Error :=
  match classify o.1 o.2 with
  | Thrown e => Some e
  | _ => None
  end.

(** The state as long as the [_auth] call made in [st0] for [cred] has
    not called back, whatever the outcomes [outs] received so far were:
    as [in_progress], except that the callbacks that threw are recorded
    and that nothing may be left to do, when the outcome that arrived
    last made the callback throw. *)
Definition unreported (st0 : State) (cred : Credentials) (cb : Callback)
    (planned : list (Credentials * Conn))
    (outs : list (option Error * Arg2)) (st : State) : Prop :=
  exists f,
    frames st = frames st0 ++ [f]
    /\ credentials f = cred /\ callback f = cb
    /\ Forall (fun t => t.1 = List.length (frames st0)) (nextTick st)
    /\ Forall (fun t => t.1 = List.length (frames st0)) (inflight st)
    /\ count f = Z.of_nat (List.length (nextTick st) + List.length (inflight st))
    /\ (count f = 0 ->
        exists o, last outs = Some o /\ well_formed o = false)
    /\ numberOfValidConnections f
       = Z.of_nat (List.length (List.filter is_valid outs))
    /\ errorObject f = last (omap outcome_error outs)
    /\ authStore st = authStore st0
    /\ reported st = reported st0
    /\ reauths st = reauths st0
    /\ uncaught st = uncaught st0 ++ omap thrown_error outs
    /\ attempts st ++ ((fun t => (cred, t.2)) <$> nextTick st) = planned.

(** The state once that call has called back: the outcome that arrived
    last respected the callback contract, nothing is left to do, and
    the callback was given the verdict on the outcomes. *)
Definition concluded (st0 : State) (cred : Credentials) (cb : Callback)
    (planned : list (Credentials * Conn))
    (outs : list (option Error * Arg2)) (st : State) : Prop :=
  quiescent st
  /\ (exists o, last outs = Some o /\ well_formed o = true)
  /\ exists st_pre f,
       st = invoke cb (verdict cred outs).1 (verdict cred outs).2 st_pre
       /\ frames st_pre = frames st0 ++ [f] /\ count f = 0
       /\ authStore st_pre
          = (if existsb is_valid outs
             then authStore (addCredentials cred st0) else authStore st0)
       /\ reported st_pre = reported st0
       /\ uncaught st_pre = uncaught st0 ++ omap thrown_error outs
       /\ attempts st_pre = planned.

(** No entry of the store [equals] a later one. *)
Fixpoint no_duplicates (store : list Credentials) : bool :=
  match store with
  | [] => true
  | c :: rest =>
      forallb (fun c' => negb (equals c c')) rest && no_duplicates rest
  end.

End WithEquals.

(** Sample credentials. *)
Definition alice : Credentials :=
  {| username := PStr "alice"; password := PStr "secret";
     source := "admin"; mechanism := "SCRAM-SHA-1" |}.

Definition bob : Credentials :=
  {| username := PStr "bob"; password := PStr "hunter2";
     source := "test"; mechanism := "SCRAM-SHA-256" |}.

(** A reply whose result document has no error field. *)
Definition ok_reply : Arg2 :=
  RSome {| result := Some {| dollar_err := PUndefined; errmsg := PUndefined;
                             done := PBool true; conversationId := PNum (Int 1);
                             payload := None |} |}.

(** The equality relation of the data model: same user name, source and
    mechanism. *)
Definition same_identity : CredentialsEquals :=
  fun c1 c2 =>
    bool_decide (username c1 = username c2)
    && String.eqb (source c1) (source c2)
    && String.eqb (mechanism c1) (mechanism c2).

End AuthProvider.

(** ** The SCRAM mechanism module: class ScramSHA and its helpers *)

Module Scram.
Import Js Types.

(** [this.cryptoMethod] of the two exported classes. *)
Inductive Method : Type :=
| sha1
| sha256.

#[global] Instance Method_eq_dec : EqDecision Method.
Proof. solve_decision. Defined.

(** The node [crypto] module and the optional [saslprep] package.
    [pbkdf2Sync] throws on arguments it rejects: [None]. *)
Class Crypto : Type := {
  md5_hex : string -> string;
  pbkdf2Sync : Prim -> Buffer -> Num -> Z -> Method -> option Buffer;
  createHmac : Method -> Buffer -> string -> Buffer;
  createHash : Method -> Buffer -> Buffer;
  saslprep : option (Prim -> Prim)
}.

(** The names that every plain object inherits from
    [Object.prototype]. *)
Definition Object_prototype_names : list string :=
  ["constructor"; "hasOwnProperty"; "isPrototypeOf"; "propertyIsEnumerable";
   "toLocaleString"; "toString"; "valueOf"; "__proto__";
   "__defineGetter__"; "__defineSetter__"; "__lookupGetter__";
   "__lookupSetter__"].

(** [parsePayload]: the own properties of the object it returns.  The
    last assignment to a key wins; a part without [=] assigns
    [undefined]; an assignment to [__proto__] of a string or of
    [undefined] goes to the inherited setter, which ignores it. *)
Definition parsePayload (payload : string) : gmap string (option string) :=
  foldl
    (fun dict part =>
       match split "=" part with
       | [] => dict
       | key :: valueParts =>
           if String.eqb key "__proto__" then dict
           else <[key := head valueParts]> dict
       end)
    ∅ (split "," payload).

(** [dict.k] for a name [k] that is an own property or that
    [Object.prototype] does not define, such as the names [i], [s] and
    [r] that the code reads.  (An inherited name that is not an own
    property reads a function or an object, which is no primitive
    value.) *)
Definition dict_get (dict : gmap string (option string)) (k : string) : Prim :=
  match dict !! k with
  | Some (Some v) => PStr v
  | _ => PUndefined
  end.

(** [xor] accepts buffers, and anything else goes through [Buffer.from]. *)
Inductive BufferLike : Type :=
| OfBuffer (b : Buffer)
| OfString (s : string).

Definition to_Buffer (x : BufferLike) : Buffer :=
  match x with
  | OfBuffer b => b
  | OfString s => Buffer_from_string s
  end.

Definition xor (a b : BufferLike) : string :=
  let a := to_Buffer a in
  let b := to_Buffer b in
  let length := Nat.max (List.length a) (List.length b) in
  let res := (fun i => Z.lxor (byte_at a i) (byte_at b i)) <$> seq 0 length in
  Base64.encode (Buffer_from_array res).

(** The process-wide variables [_hiCache] and [_hiCacheCount], and a
    record of the calls made to [crypto.pbkdf2Sync]. *)
Record HiState : Type := {
  _hiCache : gmap string Buffer;
  _hiCacheCount : Z;
  pbkdf2_calls : list (Prim * Buffer * Num * Z * Method)
}.

Definition hi_initial : HiState :=
  {| _hiCache := ∅; _hiCacheCount := 0; pbkdf2_calls := [] |}.

Definition _hiCachePurge (w : HiState) : HiState :=
  {| _hiCache := ∅; _hiCacheCount := 0; pbkdf2_calls := pbkdf2_calls w |}.

Definition hiLengthMap (m : Method) : Z :=
  match m with
  | sha256 => 32
  | sha1 => 20
  end.

(** [[data, salt.toString('base64'), iterations].join('_')] *)
Definition hiKey (data : Prim) (salt : Buffer) (iterations : Num) : string :=
  join "_" [join_elem data; Base64.encode salt; Num_toString iterations].

Arguments hiKey : simpl never.

(** The counter is the number of cached entries and never exceeds 200. *)
Definition bounded (w : HiState) : Prop :=
  Z.of_nat (size (_hiCache w)) = _hiCacheCount w /\ _hiCacheCount w <= 200.

(** One argument list of [HI]. *)
Definition HiCall : Type := Prim * Buffer * Num * Method.

(** The username escaping described in words: every [=] becomes [=3D]
    and every [,] becomes [=2C], in one pass over the name.  (The code's
    own version is inside [_executeScram] below.) *)
Fixpoint escape_every_occurrence (s : string) : string :=
  match s with
  | EmptyString => EmptyString
  | String c s' =>
      if Ascii.eqb c "=" then "=3D" +:+ escape_every_occurrence s'
      else if Ascii.eqb c "," then "=2C" +:+ escape_every_occurrence s'
      else String c (escape_every_occurrence s')
  end.

(** One authentication attempt on one connection, up to the next
    callback: it calls the final callback ([Done]), throws ([Raise]), or
    hands a command to the transport and continues with the reply
    ([Send]).  Each node carries the process-wide state at that point;
    a continuation receives the state as it is when the reply arrives. *)
Inductive Proc : Type :=
| Done (w : HiState) (err : option Error) (r : Arg2)
| Raise (w : HiState) (e : Error)
| Send (w : HiState) (connection : Conn) (q : Query)
    (k : option Error -> Arg2 -> HiState -> Proc).

Section WithCrypto.
Context {C : Crypto}.

Definition passwordDigest (username password : Prim) : Completion string :=
  if not_a_string username then Throws (MongoError "username must be a string")
  else if not_a_string password then Throws (MongoError "password must be a string")
  else if (String.length (ToString password) =? 0)%nat
       then Throws (MongoError "password cannot be empty")
  else Returns (md5_hex (ToString username +:+ ":mongo:" +:+ ToString password)).

Definition H (method : Method) (text : Buffer) : Buffer :=
  createHash method text.

Definition HMAC (method : Method) (key : Buffer) (text : string) : Buffer :=
  createHmac method key text.

Definition HI (data : Prim) (salt : Buffer) (iterations : Num)
    (cryptoMethod : Method) (w : HiState) : HiState * Completion Buffer :=
  let key := hiKey data salt iterations in
  match _hiCache w !! key with
  | Some cached => (w, Returns cached)
  | None =>
      let args := (data, salt, iterations, hiLengthMap cryptoMethod, cryptoMethod) in
      let w1 := {| _hiCache := _hiCache w; _hiCacheCount := _hiCacheCount w;
                   pbkdf2_calls := pbkdf2_calls w ++ [args] |} in
      match pbkdf2Sync data salt iterations (hiLengthMap cryptoMethod) cryptoMethod with
      | None => (w1, Throws CryptoError)
      | Some saltedData =>
          let w2 := if 200 <=? _hiCacheCount w1 then _hiCachePurge w1 else w1 in
          ({| _hiCache := <[key := saltedData]> (_hiCache w2);
              _hiCacheCount := _hiCacheCount w2 + 1;
              pbkdf2_calls := pbkdf2_calls w2 |},
           Returns saltedData)
      end
  end.

(** A sequence of calls of [HI], each on the state left by the one before. *)
Definition HI_sequence (calls : list HiCall) (w : HiState) : HiState :=
  foldl (fun s '(data, salt, iterations, m) => (HI data salt iterations m s).1)
    w calls.

(** [ScramSHA._getError] *)
Definition _getError (err : option Error) (r : Arg2) : Completion (option Error) :=
  match err with
  | Some e => Returns (Some e)
  | None =>
      match r with
      | RNone => Throws (TypeError "Cannot read property 'result' of null")
      | RFalse => Throws (TypeError "Cannot read property '$err' of undefined")
      | RSome rep =>
          match result rep with
          | None => Throws (TypeError "Cannot read property '$err' of undefined")
          | Some res =>
              if truthy (dollar_err res) || truthy (errmsg res)
              then Returns (Some (ResultDoc res))
              else Returns None
          end
      end
  end.

(** The callback of the retried [saslContinue] is the caller's. *)
Definition finish (err : option Error) (r : Arg2) (w : HiState) : Proc :=
  Done w err r.

(** The callback of the [saslContinue] command. *)
Definition on_saslContinue (db : string) (connection : Conn)
    (err : option Error) (r : Arg2) (w : HiState) : Proc :=
  match r with
  | RNone | RFalse => Done w err r
  | RSome rep =>
      match result rep with
      | None => Raise w (TypeError "Cannot read property 'done' of undefined")
      | Some res =>
          if strict_not_false (done res) then Done w err r
          else
            let retrySaslContinueCmd :=
              AuthProvider._buildCommand (db +:+ ".$cmd")
                (saslContinue (conversationId res) []) in
            Send w connection retrySaslContinueCmd finish
      end
  end.

(** The callback of the [saslStart] command. *)
Definition on_saslStart (cryptoMethod : Method) (db : string)
    (connection : Conn) (processedPassword : Prim) (firstBare : string)
    (err : option Error) (r : Arg2) (w : HiState) : Proc :=
  match _getError err r with
  | Throws e => Raise w e
  | Returns (Some tmpError) => Done w (Some tmpError) RNone
  | Returns None =>
      match r with
      | RSome {| result := Some res |} =>
          match payload res with
          | None => Raise w (TypeError "Cannot read property 'value' of undefined")
          | Some payload_value =>
              let dict := parsePayload payload_value in
              let iterations := parseInt10 (dict_get dict "i") in
              let salt := dict_get dict "s" in
              let rnonce := dict_get dict "r" in
              let withoutProof := "c=biws,r=" +:+ ToString rnonce in
              match salt with
              | PStr salt_text =>
                  match HI processedPassword (Base64.decode salt_text)
                          iterations cryptoMethod w with
                  | (w', Throws e) => Raise w' e
                  | (w', Returns saltedPassword) =>
                      if Num_truthy iterations && Num_ltb iterations 4096 then
                        Done w'
                          (Some (MongoError
                                   ("Server returned an invalid iteration count "
                                    +:+ Num_toString iterations)))
                          RFalse
                      else
                        let clientKey := HMAC cryptoMethod saltedPassword "Client Key" in
                        let storedKey := H cryptoMethod clientKey in
                        let authMessage :=
                          join "," [firstBare; payload_value; withoutProof] in
                        let clientSignature := HMAC cryptoMethod storedKey authMessage in
                        let clientProof :=
                          "p=" +:+ xor (OfBuffer clientKey) (OfBuffer clientSignature) in
                        let clientFinal := join "," [withoutProof; clientProof] in
                        let saslContinueCmd :=
                          AuthProvider._buildCommand (db +:+ ".$cmd")
                            (saslContinue (conversationId res)
                               (Buffer_from_string clientFinal)) in
                        Send w' connection saslContinueCmd
                          (on_saslContinue db connection)
                  end
              | _ =>
                  Raise w (TypeError "The first argument must be a string or a Buffer")
              end
          end
      | _ => Raise w (TypeError "Cannot read property 'payload' of undefined")
      end
  end.

(** The user name as it is put in the first message:
    [username.replace('=', '=3D').replace(',', '=2C')]. *)
Definition clean_username (username : string) : string :=
  replace "," "=2C" (replace "=" "=3D" username).

Definition _executeScram (cryptoMethod : Method) (connection : Conn)
    (credentials : Credentials) (nonce : string) (w : HiState) : Proc :=
  let db := source credentials in
  let mechanism :=
    match cryptoMethod with
    | sha256 => "SCRAM-SHA-256"
    | sha1 => "SCRAM-SHA-1"
    end in
  let processed :=
    match cryptoMethod with
    | sha256 =>
        Returns (match saslprep with
                 | Some saslprepFn => saslprepFn (password credentials)
                 | None => password credentials
                 end)
    | sha1 =>
        match passwordDigest (username credentials) (password credentials) with
        | Returns d => Returns (PStr d)
        | Throws e => Throws e
        end
    end in
  match processed with
  | Throws e => Raise w e
  | Returns processedPassword =>
      match username credentials with
      | PStr name =>
          let firstBare := "n=" +:+ clean_username name +:+ ",r=" +:+ nonce in
          let saslStartCmd :=
            AuthProvider._buildCommand (db +:+ ".$cmd")
              (saslStart mechanism (Buffer_from_string ("n,," +:+ firstBare)) 1) in
          Send w connection saslStartCmd
            (on_saslStart cryptoMethod db connection processedPassword firstBare)
      | _ => Raise w (TypeError "username.replace is not a function")
      end
  end.


(** [_checkSaslprep]: the warning printed, if any. *)
Definition _checkSaslprep (cryptoMethod : Method) : option string :=
  match cryptoMethod, saslprep with
  | sha256, None =>
      Some "Warning: no saslprep library specified. Passwords will not be sanitized"
  | _, _ => None
  end.

(** What an attempt ends with. *)
Inductive Ending : Type :=
| Called (err : option Error) (r : Arg2)   (* the final callback was called *)
| Threw (e : Error)
| Waiting.                                (* a reply is still awaited *)

(** An attempt run against the replies that the transport delivers, in
    order: the commands sent, how it ends, and the state left. *)
Fixpoint exec (p : Proc) (replies : list (option Error * Arg2))
    : list Query * Ending * HiState :=
  match p with
  | Done w err r => ([], Called err r, w)
  | Raise w e => ([], Threw e, w)
  | Send w _ q k =>
      match replies with
      | [] => ([q], Waiting, w)
      | (err, r) :: rest =>
          let '(sent, ending, w') := exec (k err r w) rest in
          (q :: sent, ending, w')
      end
  end.

(** [ScramSHA.prototype._auth]: the warning of [_checkSaslprep], if any,
    then the inherited [_auth]. *)
Definition _auth (cryptoMethod : Method) (cb : AuthProvider.Callback) (a : nat)
    (credentials : Credentials) (st : AuthProvider.State)
    : option string * AuthProvider.State :=
  (_checkSaslprep cryptoMethod, AuthProvider._auth cb a credentials st).

End WithCrypto.

(** The ways in which a string [s] returned by [xor] can be said to
    equal a buffer [a]: it is the base64 text of [a], its characters are
    the bytes of [a], or it decodes to [a]. *)
Definition denotes (s : string) (a : Buffer) : Prop :=
  s = Base64.encode a \/ Buffer_from_string s = a \/ Base64.decode s = a.

(** The text of [v] before its first [=]. *)
Definition before_equals (v : string) : string :=
  default EmptyString (head (split "=" v)).

(** A payload in the comma-separated [key=value] format:
    [k1=v1,k2=v2,...]. *)
Definition render (kvs : list (string * string)) : string :=
  join "," ((fun kv => kv.1 +:+ "=" +:+ kv.2) <$> kvs).

(** The first message of a server: combined nonce, base64 salt and
    iteration count. *)
Definition server_first (nonce : string) (salt : Buffer) (iterations : Z) : string :=
  render [("r", nonce); ("s", Base64.encode salt); ("i", pretty iterations)].

(** A call of [HI] by the mechanism of method [m]: the material is a
    string and the salt a buffer of bytes. *)
Definition call_of_method (m : Method) (c : HiCall) : Prop :=
  exists (d : string) (s : Buffer) (it : Num),
    c = (PStr d, s, it, m) /\ Forall is_byte s.

(** The conversation identifier that a command carries. *)
Definition conversation_of (c : Cmd) : option Prim :=
  match c with
  | saslStart _ _ _ => None
  | saslContinue cid _ => Some cid
  end.

(** [typeof v === 'string' && v.length > 0] *)
Definition nonempty_string (v : Prim) : bool :=
  match v with
  | PStr s => negb (String.eqb s "")
  | _ => false
  end.

(** An error-free reply document with the given [done] flag,
    conversation identifier and payload. *)
Definition reply_with (d cid : Prim) (pv : option string) : Arg2 :=
  RSome {| result := Some {| dollar_err := PUndefined; errmsg := PUndefined;
                             done := d; conversationId := cid;
                             payload := pv |} |}.

(** The process-wide state at a node of an attempt. *)
Definition state_of (p : Proc) : HiState :=
  match p with
  | Done w _ _ => w
  | Raise w _ => w
  | Send w _ _ _ => w
  end.

(** The error built when the iteration count is refused. *)
Definition invalid_iteration_count (iterations : Num) : Error :=
  MongoError ("Server returned an invalid iteration count "
              +:+ Num_toString iterations).

(** Sample credentials. *)
Definition user_pencil : Credentials :=
  {| username := PStr "user"; password := PStr "pencil";
     source := "admin"; mechanism := "SCRAM-SHA-1" |}.

(** Two hundred calls of [HI] with pairwise different iteration counts. *)
Definition two_hundred_calls : list HiCall :=
  (fun i => (PStr "pw", [1; 2; 3], Int i, sha1)) <$> seqZ 1 200.

(** A fixed stand-in for the crypto module, for evaluating the code on
    examples: the "digest" of a text is the text, and the derived key is
    the salt cut or zero-padded to the requested length. *)
Definition example_crypto : Crypto :=
  {| md5_hex := fun s => s;
     pbkdf2Sync := fun _ salt _ keylen _ =>
       Some (take (Z.to_nat keylen) (salt ++ repeat 0 (Z.to_nat keylen)));
     createHmac := fun _ key text => key ++ Buffer_from_string text;
     createHash := fun _ text => text;
     saslprep := None |}.

End Scram.

(** * Properties *)

(** ** Base64 *)

Module Base64Facts.
Import Js Base64.

Lemma forallb_seqZ (P : Z -> bool) (m len : Z) :
  forallb P (seqZ m len) = true ->
  forall x, m <= x < m + len -> P x = true.
Proof.
  intros HP x Hx. rewrite forallb_forall in HP.
  apply HP, list_elem_of_In, elem_of_seqZ. lia.
Qed.

Lemma unbase64_char_of (n : Z) :
  0 <= n < 64 ->
  unbase64 (char_of n) = Some n /\ Ascii.eqb (char_of n) pad = false.
Proof.
  intros Hn.
  pose (P := fun n =>
    match unbase64 (char_of n) with
    | Some m => (m =? n) && negb (Ascii.eqb (char_of n) pad)
    | None => false
    end).
  assert (HP : P n = true).
  { apply (forallb_seqZ P 0 64); [vm_compute; reflexivity | lia]. }
  unfold P in HP. destruct (unbase64 (char_of n)) as [m|]; [|discriminate].
  apply andb_prop in HP as [Hm Hp]. apply Z.eqb_eq in Hm. subst m.
  split; [reflexivity|]. by destruct (Ascii.eqb (char_of n) pad).
Qed.

Lemma sextets_char_of (n : Z) (s : string) :
  0 <= n < 64 -> sextets (String (char_of n) s) = n :: sextets s.
Proof.
  intros Hn. destruct (unbase64_char_of n Hn) as [Hu Hp].
  simpl. by rewrite Hp, Hu.
Qed.

Lemma sextets_pad (s : string) : sextets (String pad s) = [].
Proof. reflexivity. Qed.

(** The bit arithmetic of one group, checked on every value. *)
Lemma low_bits (a : Z) :
  is_byte a ->
  0 <= Z.land a 3 < 4 /\ 0 <= Z.land a 15 < 16 /\
  0 <= Z.land a 63 < 64 /\ 0 <= Z.shiftr a 2 < 64 /\
  0 <= Z.shiftl (Z.land a 3) 4 < 64 /\ 0 <= Z.shiftl (Z.land a 15) 2 < 64 /\
  Z.land (Z.lor (Z.shiftl (Z.shiftr a 2) 2)
                (Z.shiftr (Z.shiftl (Z.land a 3) 4) 4)) 255 = a /\
  Z.land (Z.lor (Z.shiftl (Z.shiftr a 2) 2) (Z.land a 3)) 255 = a.
Proof.
  intros Ha.
  pose (P := fun a =>
    (0 <=? Z.land a 3) && (Z.land a 3 <? 4) &&
    (0 <=? Z.land a 15) && (Z.land a 15 <? 16) &&
    (0 <=? Z.land a 63) && (Z.land a 63 <? 64) &&
    (0 <=? Z.shiftr a 2) && (Z.shiftr a 2 <? 64) &&
    (0 <=? Z.shiftl (Z.land a 3) 4) && (Z.shiftl (Z.land a 3) 4 <? 64) &&
    (0 <=? Z.shiftl (Z.land a 15) 2) && (Z.shiftl (Z.land a 15) 2 <? 64) &&
    (Z.land (Z.lor (Z.shiftl (Z.shiftr a 2) 2)
                   (Z.shiftr (Z.shiftl (Z.land a 3) 4) 4)) 255 =? a) &&
    (Z.land (Z.lor (Z.shiftl (Z.shiftr a 2) 2) (Z.land a 3)) 255 =? a)).
  assert (HP : P a = true).
  { apply (forallb_seqZ P 0 256); [vm_compute; reflexivity | exact Ha]. }
  unfold P in HP. repeat (apply andb_prop in HP as [HP ?]). lia.
Qed.

Lemma group_first (x b : Z) :
  0 <= x < 4 -> is_byte b ->
  let s1 := Z.lor (Z.shiftl x 4) (Z.shiftr b 4) in
  0 <= s1 < 64 /\ Z.shiftr s1 4 = x.
Proof.
  intros Hx Hb.
  pose (P := fun x => forallb (fun b =>
    let s1 := Z.lor (Z.shiftl x 4) (Z.shiftr b 4) in
    (0 <=? s1) && (s1 <? 64) && (Z.shiftr s1 4 =? x)) (seqZ 0 256)).
  assert (HP : P x = true).
  { apply (forallb_seqZ P 0 4); [vm_compute; reflexivity | lia]. }
  unfold P in HP. apply (forallb_seqZ _ 0 256) with (x := b) in HP; [|exact Hb].
  simpl in HP. repeat (apply andb_prop in HP as [HP ?]). simpl. lia.
Qed.

Lemma group_second (x b c : Z) :
  0 <= x < 4 -> is_byte b -> is_byte c ->
  let s1 := Z.lor (Z.shiftl x 4) (Z.shiftr b 4) in
  let s2 := Z.lor (Z.shiftl (Z.land b 15) 2) (Z.shiftr c 6) in
  0 <= s2 < 64 /\
  Z.land (Z.lor (Z.shiftl s1 4) (Z.shiftr s2 2)) 255 = b.
Proof.
  intros Hx Hb Hc.
  pose (P := fun x => forallb (fun b => forallb (fun c =>
    let s1 := Z.lor (Z.shiftl x 4) (Z.shiftr b 4) in
    let s2 := Z.lor (Z.shiftl (Z.land b 15) 2) (Z.shiftr c 6) in
    (0 <=? s2) && (s2 <? 64) &&
    (Z.land (Z.lor (Z.shiftl s1 4) (Z.shiftr s2 2)) 255 =? b))
    (seqZ 0 256)) (seqZ 0 256)).
  assert (HP : P x = true).
  { apply (forallb_seqZ P 0 4); [vm_compute; reflexivity | lia]. }
  unfold P in HP.
  apply (forallb_seqZ _ 0 256) with (x := b) in HP; [|exact Hb].
  apply (forallb_seqZ _ 0 256) with (x := c) in HP; [|exact Hc].
  simpl in HP. repeat (apply andb_prop in HP as [HP ?]). simpl. lia.
Qed.

Lemma group_third (y c : Z) :
  0 <= y < 16 -> is_byte c ->
  let s2 := Z.lor (Z.shiftl y 2) (Z.shiftr c 6) in
  Z.land (Z.lor (Z.shiftl s2 6) (Z.land c 63)) 255 = c.
Proof.
  intros Hy Hc.
  pose (P := fun y => forallb (fun c =>
    let s2 := Z.lor (Z.shiftl y 2) (Z.shiftr c 6) in
    Z.land (Z.lor (Z.shiftl s2 6) (Z.land c 63)) 255 =? c) (seqZ 0 256)).
  assert (HP : P y = true).
  { apply (forallb_seqZ P 0 16); [vm_compute; reflexivity | lia]. }
  unfold P in HP. apply (forallb_seqZ _ 0 256) with (x := c) in HP; [|exact Hc].
  simpl in HP. simpl. lia.
Qed.

(** Decoding undoes encoding. *)
Lemma decode_encode (bs : Buffer) :
  Forall is_byte bs -> decode (encode bs) = bs.
Proof.
  induction bs as [bs IH] using (induction_ltof1 _ (@List.length Z)).
  unfold ltof in IH. intros Hbs.
  destruct bs as [|a [|b [|c rest]]]; [reflexivity| | |].
  - apply Forall_cons in Hbs as [Ha _].
    destruct (low_bits a Ha) as (_ & _ & _ & H0 & H1 & _ & Heq & _).
    unfold decode. cbn [encode].
    rewrite !sextets_char_of, sextets_pad by assumption.
    cbn [bytes_of_sextets]. by rewrite Heq.
  - apply Forall_cons in Hbs as [Ha Hbs]. apply Forall_cons in Hbs as [Hb _].
    destruct (low_bits a Ha) as (Hx & _ & _ & H0 & _ & _ & _ & Heq).
    destruct (low_bits b Hb) as (_ & _ & _ & _ & _ & H2 & _).
    destruct (group_first (Z.land a 3) b Hx Hb) as [H1 Hs1].
    destruct (group_second (Z.land a 3) b 0 Hx Hb) as [_ Hb'];
      [unfold is_byte; lia|].
    change (Z.shiftr 0 6) with 0 in Hb'. rewrite Z.lor_0_r in Hb'.
    unfold decode. cbn [encode].
    rewrite !sextets_char_of, sextets_pad by assumption.
    cbn [bytes_of_sextets]. by rewrite Hs1, Heq, Hb'.
  - apply Forall_cons in Hbs as [Ha Hbs]. apply Forall_cons in Hbs as [Hb Hbs].
    apply Forall_cons in Hbs as [Hc Hrest].
    destruct (low_bits a Ha) as (Hx & _ & _ & H0 & _ & _ & _ & Heq).
    destruct (low_bits b Hb) as (_ & Hy & _ & _ & _ & _ & _).
    destruct (low_bits c Hc) as (_ & _ & H3 & _ & _ & _ & _).
    destruct (group_first (Z.land a 3) b Hx Hb) as [H1 Hs1].
    destruct (group_second (Z.land a 3) b c Hx Hb Hc) as [H2 Hb'].
    pose proof (group_third (Z.land b 15) c Hy Hc) as Hc'.
    unfold decode. cbn [encode].
    rewrite !sextets_char_of by assumption.
    cbn [bytes_of_sextets]. rewrite Hs1, Heq, Hb', Hc'.
    do 3 f_equal. apply IH; [cbn; lia | exact Hrest].
Qed.

Lemma encode_inj (a b : Buffer) :
  Forall is_byte a -> Forall is_byte b -> encode a = encode b -> a = b.
Proof.
  intros Ha Hb E. rewrite <- (decode_encode a Ha), <- (decode_encode b Hb).
  by rewrite E.
Qed.

End Base64Facts.

(** ** The SCRAM helpers: [xor], user-name escaping, [passwordDigest] *)

Module ScramHelpers.
Import Js Types Scram.

Lemma lxor_byte (x y : Z) : is_byte x -> is_byte y -> is_byte (Z.lxor x y).
Proof.
  intros Hx Hy.
  pose (P := fun x => forallb (fun y =>
    (0 <=? Z.lxor x y) && (Z.lxor x y <? 256)) (seqZ 0 256)).
  assert (HP : P x = true).
  { apply (Base64Facts.forallb_seqZ P 0 256); [vm_compute; reflexivity | exact Hx]. }
  unfold P in HP.
  apply (Base64Facts.forallb_seqZ _ 0 256) with (x := y) in HP; [|exact Hy].
  apply andb_prop in HP as [? ?]. unfold is_byte. lia.
Qed.

Lemma land_255_byte (z : Z) : is_byte z -> Z.land z 255 = z.
Proof.
  intros Hz. change 255 with (Z.ones 8).
  rewrite Z.land_ones by lia. apply Z.mod_small. exact Hz.
Qed.

Lemma byte_at_cons (x : Z) (l : Buffer) (i : nat) :
  byte_at (x :: l) (S i) = byte_at l i.
Proof. reflexivity. Qed.

(** On buffers of equal length the loop of [xor] is the pointwise
    exclusive or. *)
Lemma xor_loop_zip (a b : Buffer) :
  List.length a = List.length b ->
  (fun i => Z.lxor (byte_at a i) (byte_at b i)) <$> seq 0 (Nat.max (List.length a) (List.length b))
  = zip_with Z.lxor a b.
Proof.
  revert b. induction a as [|x a IH]; intros [|y b] Hlen; try discriminate.
  - reflexivity.
  - cbn [List.length] in *. injection Hlen as Hlen.
    change (Nat.max (S (List.length a)) (S (List.length b)))
      with (S (Nat.max (List.length a) (List.length b))).
    cbn [seq fmap list_fmap zip_with]. f_equal.
    rewrite <- fmap_S_seq, <- list_fmap_compose.
    rewrite <- (IH b Hlen). apply list_fmap_ext. intros _ i _. reflexivity.
Qed.

Lemma zip_lxor_bytes (a b : Buffer) :
  Forall is_byte a -> Forall is_byte b -> Forall is_byte (zip_with Z.lxor a b).
Proof.
  intros Ha. revert b. induction Ha as [|x a Hx Ha IH]; intros b Hb.
  - constructor.
  - destruct Hb as [|y b Hy Hb]; cbn; constructor; auto using lxor_byte.
Qed.

Lemma zip_lxor_cancel (a b : Buffer) :
  List.length a = List.length b -> zip_with Z.lxor (zip_with Z.lxor a b) b = a.
Proof.
  revert b. induction a as [|x a IH]; intros [|y b] Hlen; try discriminate.
  - reflexivity.
  - cbn. injection Hlen as Hlen. rewrite IH by exact Hlen.
    by rewrite Z.lxor_assoc, Z.lxor_nilpotent, Z.lxor_0_r.
Qed.

Lemma Buffer_from_array_bytes (l : list Z) :
  Forall is_byte l -> Buffer_from_array l = l.
Proof.
  intros Hl. unfold Buffer_from_array. induction Hl as [|x l Hx Hl IH].
  - reflexivity.
  - cbn. rewrite land_255_byte by exact Hx. f_equal. exact IH.
Qed.

(** What [xor] returns on two buffers of equal length. *)
Lemma xor_buffers (a b : Buffer) :
  List.length a = List.length b -> Forall is_byte a -> Forall is_byte b ->
  xor (OfBuffer a) (OfBuffer b) = Base64.encode (zip_with Z.lxor a b).
Proof.
  intros Hlen Ha Hb. unfold xor, to_Buffer.
  rewrite xor_loop_zip by exact Hlen.
  rewrite Buffer_from_array_bytes by (apply zip_lxor_bytes; assumption).
  reflexivity.
Qed.

(** C4, as amended: for buffers [a] and [b] of equal length, [xor]
    returns the base64 text of the byte-wise exclusive or, the buffer
    whose byte at every index is the exclusive or of the two bytes
    there; so it cannot be applied to its own result as it is, but once
    the result is decoded back into a buffer, which gives those bytes,
    applying [xor] with [b] again gives the base64 text of [a]:
    [xor(Buffer.from(xor(a, b), 'base64'), b) == a.toString('base64')]. *)
Theorem xor_involutive_through_base64 (a b : Buffer) :
  List.length a = List.length b -> Forall is_byte a -> Forall is_byte b ->
  xor (OfBuffer a) (OfBuffer b) = Base64.encode (zip_with Z.lxor a b)
  /\ List.length (zip_with Z.lxor a b) = List.length a
  /\ (forall i x y, a !! i = Some x -> b !! i = Some y ->
        Base64.decode (xor (OfBuffer a) (OfBuffer b)) !! i = Some (Z.lxor x y))
  /\ xor (OfBuffer (Base64.decode (xor (OfBuffer a) (OfBuffer b)))) (OfBuffer b)
     = Base64.encode a.
Proof.
  intros Hlen Ha Hb.
  pose proof (zip_lxor_bytes a b Ha Hb) as Hz.
  rewrite (xor_buffers a b Hlen Ha Hb).
  rewrite Base64Facts.decode_encode by exact Hz.
  split; [reflexivity|]. split; [rewrite length_zip_with; lia|]. split.
  - intros i x y Hx Hy. unfold Buffer in *.
    rewrite lookup_zip_with, Hx, Hy. reflexivity.
  - rewrite xor_buffers.
    + by rewrite zip_lxor_cancel.
    + rewrite length_zip_with. lia.
    + exact Hz.
    + exact Hb.
Qed.

Lemma xor_involutive_through_base64_witness :
  xor (OfBuffer [1; 2; 3; 200]) (OfBuffer [250; 5; 6; 7])
  = Base64.encode [251; 7; 5; 207]
  /\ xor (OfBuffer (Base64.decode (xor (OfBuffer [1; 2; 3; 200])
                                      (OfBuffer [250; 5; 6; 7]))))
       (OfBuffer [250; 5; 6; 7])
     = Base64.encode [1; 2; 3; 200].
Proof.
  destruct (xor_involutive_through_base64 [1; 2; 3; 200] [250; 5; 6; 7])
    as (Htext & _ & _ & Hback).
  - reflexivity.
  - repeat constructor; unfold is_byte; lia.
  - repeat constructor; unfold is_byte; lia.
  - split; [exact Htext | exact Hback].
Defined.

(** C4, as stated, fails: applied to its own result, [xor] reads the
    base64 text as bytes; on [a = [1]] and [b = [2]] the result is
    ["Q3c9PQ=="], which is [a] under no reading. *)
Lemma xor_twice_is_not_identity :
  ~ (forall a b : Buffer,
       List.length a = List.length b -> Forall is_byte a -> Forall is_byte b ->
       denotes (xor (OfString (xor (OfBuffer a) (OfBuffer b))) (OfBuffer b)) a).
Proof.
  intros Hclaim.
  destruct (Hclaim [1] [2]) as [E | [E | E]];
    try (repeat constructor; unfold is_byte; lia);
    vm_compute in E; discriminate E.
Qed.

(** C2: the user name is escaped with two [String.prototype.replace]
    calls whose patterns are strings, so only the first [=] and the
    first [,] are replaced: on ["a=b=c"] the code produces ["a=3Db=c"],
    where replacing every occurrence gives ["a=3Db=3Dc"]; likewise
    ["x,y,z"] becomes ["x=2Cy,z"].  The order of the two substitutions is
    the stated one ([=] first): ["a,b=c"] becomes ["a=2Cb=3Dc"].  The
    first message that [_executeScram] sends for the user ["a=b=c"] and
    the nonce ["bm9uY2U="] is ["n,,n=a=3Db=c,r=bm9uY2U="]. *)
Theorem clean_username_replaces_first_occurrence_only :
  clean_username "a=b=c" = "a=3Db=c"
  /\ escape_every_occurrence "a=b=c" = "a=3Db=3Dc"
  /\ clean_username "x,y,z" = "x=2Cy,z"
  /\ escape_every_occurrence "x,y,z" = "x=2Cy=2Cz"
  /\ clean_username "a,b=c" = escape_every_occurrence "a,b=c"
  /\ clean_username "a=b=c" <> escape_every_occurrence "a=b=c"
  /\ (exec
        (_executeScram (C := example_crypto) sha1 7%nat
           {| username := PStr "a=b=c"; password := PStr "pencil";
              source := "admin"; mechanism := "SCRAM-SHA-1" |}
           "bm9uY2U=" hi_initial) []).1
     = ([AuthProvider._buildCommand "admin.$cmd"
           (saslStart "SCRAM-SHA-1"
              (Buffer_from_string "n,,n=a=3Db=c,r=bm9uY2U=") 1)],
        Waiting).
Proof.
  repeat split; try reflexivity. vm_compute. discriminate.
Qed.

Section WithCrypto.
Context {C : Crypto}.

Lemma passwordDigest_throws_iff (u p : Prim) :
  (exists e, passwordDigest u p = Throws e) <->
  not_a_string u = true \/ not_a_string p = true \/ p = PStr "".
Proof.
  unfold passwordDigest. split.
  - intros [e He]. destruct u; cbn in *; auto.
    destruct p as [| | | |ps]; cbn in *; auto.
    destruct ps; cbn in *; [auto | discriminate].
  - intros [Hu | [Hp | Hp]].
    + rewrite Hu. eauto.
    + destruct (not_a_string u); [eauto|]. rewrite Hp. eauto.
    + subst p. destruct (not_a_string u); cbn; eauto.
Qed.

(** C8, as amended: [passwordDigest] returns the hex MD5 of
    [username + ":mongo:" + password] when the user name is a string
    and the password a non-empty string (an empty user name is
    accepted); it throws a [MongoError] exactly when the user name is
    not a string, the password is not a string, or the password is
    empty; and in the SHA-1 variant that exception leaves
    [_executeScram] before any command is handed to the transport. *)
Theorem passwordDigest_spec (u p : Prim) :
  (forall us ps, u = PStr us -> p = PStr ps -> ps <> "" ->
     passwordDigest u p = Returns (md5_hex (us +:+ ":mongo:" +:+ ps)))
  /\ ((exists msg, passwordDigest u p = Throws (MongoError msg)) <->
      not_a_string u = true \/ not_a_string p = true \/ p = PStr "")
  /\ (forall e connection cred nonce w,
        username cred = u -> password cred = p ->
        passwordDigest u p = Throws e ->
        _executeScram sha1 connection cred nonce w = Raise w e).
Proof.
  split; [|split].
  - intros us ps -> -> Hps. unfold passwordDigest. cbn.
    destruct ps; [congruence | reflexivity].
  - rewrite <- passwordDigest_throws_iff. split.
    + intros [msg H]. eauto.
    + intros [e He]. unfold passwordDigest in *.
      repeat match type of He with
             | (if ?b then _ else _) = _ => destruct b
             end; try discriminate; eauto.
  - intros e connection cred nonce w Hu Hp He.
    unfold _executeScram. rewrite Hu, Hp, He. reflexivity.
Qed.

End WithCrypto.

Lemma passwordDigest_spec_witness :
  passwordDigest (C := example_crypto) (PStr "user") (PStr "pencil")
    = Returns "user:mongo:pencil"
  /\ (exists msg, passwordDigest (C := example_crypto) (PStr "user") (PStr "")
                  = Throws (MongoError msg))
  /\ _executeScram (C := example_crypto) sha1 7%nat
       {| username := PNum (Int 5); password := PStr "pencil";
          source := "admin"; mechanism := "SCRAM-SHA-1" |} "bm9uY2U=" hi_initial
     = Raise hi_initial (MongoError "username must be a string").
Proof.
  split; [|split].
  - refine (proj1 (passwordDigest_spec (C := example_crypto) (PStr "user") (PStr "pencil"))
              "user" "pencil" eq_refl eq_refl _).
    discriminate.
  - apply (proj2 (proj1 (proj2
      (passwordDigest_spec (C := example_crypto) (PStr "user") (PStr ""))))).
    right; right; reflexivity.
  - apply (proj2 (proj2
      (passwordDigest_spec (C := example_crypto) (PNum (Int 5)) (PStr "pencil"))));
      reflexivity.
Defined.

(** C8, as stated, fails: an empty user name is not rejected.  With the
    password ["pencil"], [passwordDigest("", "pencil")] returns the
    digest of [":mongo:pencil"]. *)
Lemma passwordDigest_accepts_empty_username :
  ~ (forall (C : Crypto) (u p : Prim),
       nonempty_string u = false \/ nonempty_string p = false ->
       exists e, passwordDigest u p = Throws e).
Proof.
  intros Hclaim.
  destruct (Hclaim example_crypto (PStr "") (PStr "pencil")) as [e He].
  - left; reflexivity.
  - vm_compute in He. discriminate He.
Qed.

End ScramHelpers.

(** ** The cache key determines the triple *)

Module HiKeyFacts.
Import Js Types Scram.

Lemma append_cons (x : ascii) (s1 s2 : string) :
  String x s1 +:+ s2 = String x (s1 +:+ s2).
Proof. reflexivity. Qed.

Lemma append_nil (s : string) : EmptyString +:+ s = s.
Proof. reflexivity. Qed.

Lemma contains_cons (c x : ascii) (s : string) :
  contains c (String x s) = Ascii.eqb x c || contains c s.
Proof. reflexivity. Qed.

Lemma contains_single (c x : ascii) :
  x <> c -> contains c (String x EmptyString) = false.
Proof.
  intros Hx. rewrite contains_cons. apply orb_false_iff. split; [|reflexivity].
  by apply Ascii.eqb_neq.
Qed.

Lemma contains_app (c : ascii) (s1 s2 : string) :
  contains c (s1 +:+ s2) = contains c s1 || contains c s2.
Proof.
  induction s1 as [|x s1 IH]; [reflexivity|].
  rewrite append_cons, !contains_cons, IH. by rewrite orb_assoc.
Qed.

Lemma append_assoc (s1 s2 s3 : string) :
  (s1 +:+ s2) +:+ s3 = s1 +:+ (s2 +:+ s3).
Proof.
  induction s1 as [|x s1 IH]; [reflexivity|].
  rewrite !append_cons. by rewrite IH.
Qed.

(** A string is cut in one way only at the last occurrence of [c]. *)
Lemma cut_at_last (c : ascii) (s1 s1' s2 s2' : string) :
  contains c s2 = false -> contains c s2' = false ->
  s1 +:+ String c s2 = s1' +:+ String c s2' -> s1 = s1' /\ s2 = s2'.
Proof.
  intros H2 H2'. revert s1'.
  induction s1 as [|x s1 IH]; intros [|x' s1'] Heq;
    rewrite ?append_cons, ?append_nil in Heq.
  - by injection Heq as ->.
  - injection Heq as <- ->.
    rewrite contains_app, contains_cons in H2.
    rewrite Ascii.eqb_refl, orb_true_r in H2. discriminate.
  - injection Heq as -> <-.
    rewrite contains_app, contains_cons in H2'.
    rewrite Ascii.eqb_refl, orb_true_r in H2'. discriminate.
  - injection Heq as -> Heq. destruct (IH _ Heq) as [-> ->]. done.
Qed.

Lemma pretty_N_go_avoids (c : ascii) (x : N) (s : string) :
  (forall k, pretty_N_char k <> c) ->
  contains c s = false -> contains c (pretty_N_go x s) = false.
Proof.
  intros Hc. revert s. induction (N.lt_wf_0 x) as [x _ IH]; intros s Hs.
  assert (x = 0 \/ 0 < x)%N as [-> | Hpos] by lia.
  - by rewrite pretty_N_go_0.
  - rewrite pretty_N_go_step by exact Hpos. apply IH.
    + by apply N.div_lt.
    + rewrite contains_cons, Hs, orb_false_r. apply Ascii.eqb_neq, Hc.
Qed.

Lemma pretty_Z_avoids (c : ascii) (z : Z) :
  (forall k, pretty_N_char k <> c) -> c <> "-"%char ->
  contains c (pretty z) = false.
Proof.
  intros Hc Hdash.
  assert (HN : forall n : N, contains c (pretty n) = false).
  { intros n. unfold pretty, pretty_N. case_decide.
    - apply contains_single. apply (Hc 0%N).
    - by apply pretty_N_go_avoids. }
  destruct z as [|p|p]; unfold pretty, pretty_Z.
  - apply contains_single. apply (Hc 0%N).
  - apply HN.
  - change ("-" +:+ ?x) with (String "-" x).
    rewrite contains_cons. change (pretty p) with (pretty (Npos p)).
    rewrite (HN (Npos p)), orb_false_r.
    apply Ascii.eqb_neq. congruence.
Qed.

Lemma digit_is_not (c : ascii) :
  contains c "0123456789" = false -> forall k, pretty_N_char k <> c.
Proof.
  intros Hc k Hk. subst c. unfold pretty_N_char in Hc.
  repeat case_match; cbn in Hc; discriminate.
Qed.

Lemma Num_toString_no_underscore (n : Num) :
  contains "_" (Num_toString n) = false.
Proof.
  destruct n as [|[|]|z]; [reflexivity..|].
  apply pretty_Z_avoids; [by apply digit_is_not | discriminate].
Qed.

Lemma Num_toString_inj (n n' : Num) :
  Num_toString n = Num_toString n' -> n = n'.
Proof.
  assert (HN : forall z : Z, contains "N" (pretty z) = false).
  { intros z. apply pretty_Z_avoids; [by apply digit_is_not | discriminate]. }
  assert (HI : forall z : Z, contains "I" (pretty z) = false).
  { intros z. apply pretty_Z_avoids; [by apply digit_is_not | discriminate]. }
  destruct n as [|[|]|z], n' as [|[|]|z']; cbn; intros Heq;
    try reflexivity; try discriminate Heq.
  - pose proof (HN z') as H. rewrite <- Heq in H. discriminate.
  - pose proof (HI z') as H. rewrite <- Heq in H. discriminate.
  - pose proof (HI z') as H. rewrite <- Heq in H. discriminate.
  - pose proof (HN z) as H. rewrite Heq in H. discriminate.
  - pose proof (HI z) as H. rewrite Heq in H. discriminate.
  - pose proof (HI z) as H. rewrite Heq in H. discriminate.
  - f_equal. by apply (inj pretty).
Qed.

Lemma char_of_not_underscore (n : Z) : Ascii.eqb (Base64.char_of n) "_" = false.
Proof.
  unfold Base64.char_of.
  destruct (Base64.alphabet !! Z.to_nat n) as [c|] eqn:Hc; [|reflexivity].
  assert (Hall : Forall (fun c => Ascii.eqb c "_" = false) Base64.alphabet)
    by (vm_compute; repeat constructor).
  exact (proj1 (Forall_lookup _ _) Hall _ _ Hc).
Qed.

Lemma encode_no_underscore (bs : Buffer) :
  contains "_" (Base64.encode bs) = false.
Proof.
  induction bs as [bs IH] using (induction_ltof1 _ (@List.length Z)).
  unfold ltof in IH.
  destruct bs as [|a [|b [|c rest]]]; cbn [Base64.encode contains];
    rewrite ?char_of_not_underscore; try reflexivity.
  cbn. apply IH. cbn. lia.
Qed.

(** Two triples with a string as material have the same key only if
    they are the same. *)
Lemma hiKey_inj (d d' : string) (s s' : Buffer) (it it' : Num) :
  Forall is_byte s -> Forall is_byte s' ->
  hiKey (PStr d) s it = hiKey (PStr d') s' it' ->
  d = d' /\ s = s' /\ it = it'.
Proof.
  intros Hs Hs'.
  assert (Hshape : forall (m e n : string),
             join "_" [m; e; n] = (m +:+ String "_" e) +:+ String "_" n).
  { intros m e n. by rewrite append_assoc. }
  unfold hiKey, join_elem, ToString. rewrite !Hshape. intros Heq.
  apply cut_at_last in Heq as [Heq Hit];
    [|apply Num_toString_no_underscore..].
  apply cut_at_last in Heq as [Hd He];
    [|apply encode_no_underscore..].
  split; [exact Hd|]. split.
  - by apply Base64Facts.encode_inj.
  - by apply Num_toString_inj.
Qed.

End HiKeyFacts.

(** ** The salted-password cache: [HI] *)

Module HiCache.
Import Js Types Scram.

Section WithCrypto.
Context {C : Crypto}.

Lemma HI_hit (data : Prim) (salt : Buffer) (it : Num) (m : Method)
    (w : HiState) (cached : Buffer) :
  _hiCache w !! hiKey data salt it = Some cached ->
  HI data salt it m w = (w, Returns cached).
Proof. intros Hhit. unfold HI. by rewrite Hhit. Qed.

Lemma HI_miss (data : Prim) (salt : Buffer) (it : Num) (m : Method)
    (w : HiState) (v : Buffer) :
  _hiCache w !! hiKey data salt it = None ->
  pbkdf2Sync data salt it (hiLengthMap m) m = Some v ->
  HI data salt it m w =
    ({| _hiCache :=
          <[hiKey data salt it := v]>
            (if 200 <=? _hiCacheCount w then ∅ else _hiCache w);
        _hiCacheCount :=
          (if 200 <=? _hiCacheCount w then 0 else _hiCacheCount w) + 1;
        pbkdf2_calls := pbkdf2_calls w ++ [(data, salt, it, hiLengthMap m, m)] |},
     Returns v).
Proof.
  intros Hmiss Hv. unfold HI. rewrite Hmiss, Hv. cbn.
  by destruct (200 <=? _hiCacheCount w).
Qed.

Lemma HI_bounded (data : Prim) (salt : Buffer) (it : Num) (m : Method)
    (w : HiState) :
  bounded w -> bounded (HI data salt it m w).1.
Proof.
  intros [Hsize Hle]. unfold HI.
  destruct (_hiCache w !! hiKey data salt it) as [cached|] eqn:Hk;
    [by split|].
  destruct (pbkdf2Sync data salt it (hiLengthMap m) m) as [v|];
    [|by split].
  cbn. destruct (200 <=? _hiCacheCount w) eqn:Hfull; unfold bounded; cbn.
  - split; [|lia].
    rewrite map_size_insert_None by apply lookup_empty.
    by rewrite map_size_empty.
  - apply Z.leb_gt in Hfull. split; [|lia].
    rewrite map_size_insert_None by exact Hk. lia.
Qed.

Lemma HI_sequence_bounded (calls : list HiCall) (w : HiState) :
  bounded w -> bounded (HI_sequence calls w).
Proof.
  revert w. induction calls as [|[[[data salt] it] m] calls IH]; intros w Hw.
  - exact Hw.
  - apply IH. by apply HI_bounded.
Qed.

Lemma HI_returned_is_cached (data : Prim) (salt : Buffer) (it : Num)
    (m : Method) (w w' : HiState) (v : Buffer) :
  HI data salt it m w = (w', Returns v) ->
  _hiCache w' !! hiKey data salt it = Some v.
Proof.
  unfold HI. destruct (_hiCache w !! hiKey data salt it) as [cached|] eqn:Hk.
  - intros [= <- <-]. exact Hk.
  - destruct (pbkdf2Sync data salt it (hiLengthMap m) m) as [v'|];
      [|discriminate].
    intros [= <- <-]. cbn. apply lookup_insert_eq.
Qed.

(** C6: along every sequence of calls of [HI] from the empty cache, the
    cache holds as many entries as the counter says and at most 200;
    the lookup key is the join of (material, base64 salt, iterations),
    whatever the hash method, and two such triples (the material a
    string) share a key only if they are equal; a call whose key is
    cached returns the
    cached bytes and leaves the whole state, the record of
    [pbkdf2Sync] calls included, as it was, so a call repeated after
    one that returned is such a hit; a call whose key is not cached
    runs [pbkdf2Sync] once, and if the counter has reached 200 the map
    and the counter are cleared before the new entry is stored, so
    that every key cached before misses afterwards. *)
Theorem HI_memoizes_with_bounded_cache (calls : list HiCall) :
  let w := HI_sequence calls hi_initial in
  (size (_hiCache w) <= 200)%nat
  /\ Z.of_nat (size (_hiCache w)) = _hiCacheCount w
  /\ (forall d d' s s' it it',
        Forall is_byte s -> Forall is_byte s' ->
        hiKey (PStr d) s it = hiKey (PStr d') s' it' ->
        d = d' /\ s = s' /\ it = it')
  /\ (forall data salt it m cached,
        _hiCache w !! hiKey data salt it = Some cached ->
        HI data salt it m w = (w, Returns cached))
  /\ (forall data salt it m w' v,
        HI data salt it m w = (w', Returns v) ->
        forall m', HI data salt it m' w' = (w', Returns v))
  /\ (forall data salt it m v,
        _hiCache w !! hiKey data salt it = None ->
        pbkdf2Sync data salt it (hiLengthMap m) m = Some v ->
        let w' := (HI data salt it m w).1 in
        (HI data salt it m w).2 = Returns v
        /\ pbkdf2_calls w' = pbkdf2_calls w ++ [(data, salt, it, hiLengthMap m, m)]
        /\ (_hiCacheCount w < 200 ->
            _hiCache w' = <[hiKey data salt it := v]> (_hiCache w)
            /\ _hiCacheCount w' = _hiCacheCount w + 1)
        /\ (_hiCacheCount w = 200 ->
            _hiCache w' = {[ hiKey data salt it := v ]}
            /\ _hiCacheCount w' = 1
            /\ forall k, is_Some (_hiCache w !! k) -> _hiCache w' !! k = None)).
Proof.
  intros w.
  assert (Hb : bounded w).
  { apply HI_sequence_bounded. split; [reflexivity | cbn; lia]. }
  destruct Hb as [Hsize Hle].
  split; [lia|]. split; [exact Hsize|].
  split; [apply HiKeyFacts.hiKey_inj|]. split; [|split].
  - intros data salt it m cached. apply HI_hit.
  - intros data salt it m w' v Hcall m'.
    apply HI_hit. by eapply HI_returned_is_cached.
  - intros data salt it m v Hmiss Hv w'. subst w'.
    rewrite (HI_miss _ _ _ _ _ _ Hmiss Hv). cbn.
    split; [reflexivity|]. split; [reflexivity|]. split.
    + intros Hlt. apply Z.leb_gt in Hlt. by rewrite Hlt.
    + intros Hfull. rewrite Hfull. cbn. split; [reflexivity|].
      split; [reflexivity|].
      intros k [x Hx]. apply lookup_insert_None. split; [apply lookup_empty|].
      intros <-. congruence.
Qed.

End WithCrypto.

Lemma HI_memoizes_with_bounded_cache_witness :
  let w := HI_sequence (C := example_crypto) two_hundred_calls hi_initial in
  let w' := (HI (C := example_crypto) (PStr "pw") [1; 2; 3] (Int 201) sha1 w).1 in
  _hiCacheCount w = 200
  /\ HI (C := example_crypto) (PStr "pw") [1; 2; 3] (Int 7) sha256 w
     = (w, Returns (take 20 ([1; 2; 3] ++ repeat 0 20)))
  /\ _hiCacheCount w' = 1
  /\ _hiCache w' !! hiKey (PStr "pw") [1; 2; 3] (Int 7) = None.
Proof.
  intros w w'.
  pose proof (HI_memoizes_with_bounded_cache (C := example_crypto) two_hundred_calls)
    as (_ & _ & _ & Hhit & _ & Hmiss).
  fold w in Hhit, Hmiss.
  assert (Hfull : _hiCacheCount w = 200) by (vm_compute; reflexivity).
  assert (Hold : _hiCache w !! hiKey (PStr "pw") [1; 2; 3] (Int 7)
                 = Some (take 20 ([1; 2; 3] ++ repeat 0 20)))
    by (vm_compute; reflexivity).
  assert (Hnew : _hiCache w !! hiKey (PStr "pw") [1; 2; 3] (Int 201) = None)
    by (vm_compute; reflexivity).
  destruct (Hmiss (PStr "pw") [1; 2; 3] (Int 201) sha1
              (take 20 ([1; 2; 3] ++ repeat 0 20)) Hnew eq_refl)
    as (_ & _ & _ & Hpurge).
  destruct (Hpurge Hfull) as (_ & Hone & Hgone).
  split; [exact Hfull|]. split; [exact (Hhit _ _ _ sha256 _ Hold)|].
  split; [exact Hone|]. apply Hgone. eexists. exact Hold.
Defined.

End HiCache.

(** ** The conversation: [_executeScram] and its callbacks *)

Module ScramProtocol.
Import Js Types Scram.

Section WithCrypto.
Context {C : Crypto}.

(** The callback of [saslStart] on a reply without error fields that
    carries a payload with a salt: [HI] runs first, then the
    iteration count is examined. *)
Lemma on_saslStart_shape (m : Method) (db : string) (connection : Conn)
    (pw : Prim) (firstBare : string) (res : Result) (pv salt_text : string)
    (w : HiState) :
  truthy (dollar_err res) = false -> truthy (errmsg res) = false ->
  payload res = Some pv ->
  dict_get (parsePayload pv) "s" = PStr salt_text ->
  let it := parseInt10 (dict_get (parsePayload pv) "i") in
  let p := on_saslStart m db connection pw firstBare None
             (RSome {| result := Some res |}) w in
  match HI pw (Base64.decode salt_text) it m w with
  | (w', Throws e) => p = Raise w' e
  | (w', Returns _) =>
      if Num_truthy it && Num_ltb it 4096
      then p = Done w' (Some (invalid_iteration_count it)) RFalse
      else exists pl,
          p = Send w' connection
                (AuthProvider._buildCommand (db +:+ ".$cmd")
                   (saslContinue (conversationId res) pl))
                (on_saslContinue db connection)
  end.
Proof.
  intros Herr Hmsg Hpv Hsalt it p. subst p.
  unfold on_saslStart, _getError. cbn [result].
  rewrite Herr, Hmsg, Hpv, Hsalt. cbn [orb].
  fold it. destruct (HI pw (Base64.decode salt_text) it m w) as [w' [sp|e]];
    [|reflexivity].
  destruct (Num_truthy it && Num_ltb it 4096); [reflexivity|].
  eexists. reflexivity.
Qed.

(** C5: a first reply whose iteration count is 0 is not rejected.  On
    the payload ["r=abc,s=QUJD,i=0"], [parseInt] gives 0, which is
    falsy, so the test [iterations && iterations < 4096] fails: the
    derivation runs with 0 iterations and, unless [pbkdf2Sync] itself
    throws, the [saslContinue] command is sent.  In no case is the
    invalid-iteration-count error reported.  With the sample crypto
    functions, the whole attempt for ["user"] sends two commands on this
    reply, the second a [saslContinue], and awaits its answer. *)
Theorem zero_iteration_count_is_not_rejected (m : Method) (db : string)
    (connection : Conn) (pw : Prim) (firstBare : string) (w : HiState) :
  let reply := reply_with PUndefined (PNum (Int 1)) (Some "r=abc,s=QUJD,i=0") in
  let p := on_saslStart m db connection pw firstBare None reply w in
  parseInt10 (dict_get (parsePayload "r=abc,s=QUJD,i=0") "i") = Int 0
  /\ match HI pw [65; 66; 67] (Int 0) m w with
     | (w', Throws e) => p = Raise w' e
     | (w', Returns _) =>
         exists pl,
           p = Send w' connection
                 (AuthProvider._buildCommand (db +:+ ".$cmd")
                    (saslContinue (PNum (Int 1)) pl))
                 (on_saslContinue db connection)
     end
  /\ exists q1 q2 pl w',
       exec
         (_executeScram (C := example_crypto) sha1 7%nat user_pencil "bm9uY2U="
            hi_initial)
         [(None, reply)]
       = ([q1; q2], Waiting, w')
       /\ cmd q2 = saslContinue (PNum (Int 1)) pl.
Proof.
  intros reply p.
  assert (Hi : parseInt10 (dict_get (parsePayload "r=abc,s=QUJD,i=0") "i") = Int 0)
    by (vm_compute; reflexivity).
  assert (Hs : dict_get (parsePayload "r=abc,s=QUJD,i=0") "s" = PStr "QUJD")
    by (vm_compute; reflexivity).
  split; [exact Hi|].
  split; [|vm_compute; do 4 eexists; split; reflexivity].
  pose proof (on_saslStart_shape m db connection pw firstBare
                {| dollar_err := PUndefined; errmsg := PUndefined;
                   done := PUndefined; conversationId := PNum (Int 1);
                   payload := Some "r=abc,s=QUJD,i=0" |}
                "r=abc,s=QUJD,i=0" "QUJD" w eq_refl eq_refl eq_refl Hs) as Hshape.
  cbn zeta in Hshape. rewrite Hi in Hshape.
  change (Base64.decode "QUJD") with [65; 66; 67] in Hshape.
  exact Hshape.
Qed.

(** A non-zero count below 4096 is rejected, once [HI] has returned. *)
Lemma low_iteration_count_is_rejected (m : Method) (db : string)
    (connection : Conn) (pw : Prim) (firstBare : string) (res : Result)
    (pv salt_text : string) (w w' : HiState) (sp : Buffer) :
  truthy (dollar_err res) = false -> truthy (errmsg res) = false ->
  payload res = Some pv ->
  dict_get (parsePayload pv) "s" = PStr salt_text ->
  let it := parseInt10 (dict_get (parsePayload pv) "i") in
  Num_truthy it = true -> Num_ltb it 4096 = true ->
  HI pw (Base64.decode salt_text) it m w = (w', Returns sp) ->
  on_saslStart m db connection pw firstBare None
    (RSome {| result := Some res |}) w
  = Done w' (Some (invalid_iteration_count it)) RFalse.
Proof.
  intros Herr Hmsg Hpv Hsalt it Ht Hlt HHI.
  pose proof (on_saslStart_shape m db connection pw firstBare res pv salt_text
                w Herr Hmsg Hpv Hsalt) as Hshape.
  cbn zeta in Hshape. fold it in Hshape.
  rewrite HHI, Ht, Hlt in Hshape. exact Hshape.
Qed.

(** C10, as amended: on every error-free first reply that carries a
    salt, [HI] runs before the iteration count is examined, so the
    state in which the attempt goes on is the one [HI] leaves.  For a
    non-zero count below 4096: when the key is not cached and
    [pbkdf2Sync] returns, the derivation is computed with that count
    and its result is stored under that key, and the attempt then
    fails with the invalid-iteration-count error; when the key is
    already cached nothing is computed or stored, and the attempt
    fails in the same way. *)
Theorem HI_precedes_iteration_check (m : Method) (db : string)
    (connection : Conn) (pw : Prim) (firstBare : string) (res : Result)
    (pv salt_text : string) (w : HiState) :
  truthy (dollar_err res) = false -> truthy (errmsg res) = false ->
  payload res = Some pv ->
  dict_get (parsePayload pv) "s" = PStr salt_text ->
  let it := parseInt10 (dict_get (parsePayload pv) "i") in
  let salt := Base64.decode salt_text in
  let p := on_saslStart m db connection pw firstBare None
             (RSome {| result := Some res |}) w in
  state_of p = (HI pw salt it m w).1
  /\ (Num_truthy it = true -> Num_ltb it 4096 = true ->
      (forall v,
         _hiCache w !! hiKey pw salt it = None ->
         pbkdf2Sync pw salt it (hiLengthMap m) m = Some v ->
         exists w',
           p = Done w' (Some (invalid_iteration_count it)) RFalse
           /\ pbkdf2_calls w' = pbkdf2_calls w ++ [(pw, salt, it, hiLengthMap m, m)]
           /\ _hiCache w !! hiKey pw salt it = None
           /\ _hiCache w' !! hiKey pw salt it = Some v)
      /\ (forall v,
            _hiCache w !! hiKey pw salt it = Some v ->
            p = Done w (Some (invalid_iteration_count it)) RFalse)).
Proof.
  intros Herr Hmsg Hpv Hsalt it salt p. split.
  - pose proof (on_saslStart_shape m db connection pw firstBare res pv salt_text
                  w Herr Hmsg Hpv Hsalt) as Hshape.
    cbn zeta in Hshape. fold it salt p in Hshape.
    destruct (HI pw salt it m w) as [w' [sp|e]]; cbn [fst].
    + destruct (Num_truthy it && Num_ltb it 4096).
      * by rewrite Hshape.
      * destruct Hshape as [pl ->]. reflexivity.
    + by rewrite Hshape.
  - intros Ht Hlt. split.
    + intros v Hmiss Hv.
      pose proof (HiCache.HI_miss pw salt it m w v Hmiss Hv) as HHI.
      eexists. split; [|split; [|split]].
      * eapply low_iteration_count_is_rejected; eassumption.
      * reflexivity.
      * exact Hmiss.
      * cbn. apply lookup_insert_eq.
    + intros v Hhit.
      eapply low_iteration_count_is_rejected; try eassumption.
      by apply HiCache.HI_hit.
Qed.

(** C7, as amended: the callback of the [saslContinue] command sends
    one more [saslContinue], with an empty payload and the conversation
    identifier of the reply just received, exactly when that reply is
    an object whose [result.done] is [false]; the callback of that last
    command is the caller's.  When there is no reply, or [done] is
    anything but [false], the callback ends the attempt with the
    error and reply it was given; a reply object without a result
    document makes it throw.  The command that this callback answers
    carried the identifier of the first reply, so the additional
    command carries the same identifier exactly when the second reply
    repeats the identifier of the first. *)
Theorem extra_round_iff_done_false (db : string) (connection : Conn)
    (err : option Error) (r : Arg2) (w : HiState) :
  ((exists q k, on_saslContinue db connection err r w = Send w connection q k)
   <-> exists res, r = RSome {| result := Some res |} /\ done res = PBool false)
  /\ (forall res,
        r = RSome {| result := Some res |} -> done res = PBool false ->
        on_saslContinue db connection err r w
        = Send w connection
            (AuthProvider._buildCommand (db +:+ ".$cmd")
               (saslContinue (conversationId res) []))
            finish
        /\ forall err' r' w', finish err' r' w' = Done w' err' r')
  /\ (r = RNone \/ r = RFalse
      \/ (exists res, r = RSome {| result := Some res |} /\ done res <> PBool false) ->
      on_saslContinue db connection err r w = Done w err r)
  /\ (r = RSome {| result := None |} ->
      exists msg, on_saslContinue db connection err r w = Raise w (TypeError msg))
  /\ (forall m pw firstBare err1 r1 w1 c q k res,
        on_saslStart m db connection pw firstBare err1 r1 w1 = Send w c q k ->
        r = RSome {| result := Some res |} -> done res = PBool false ->
        exists res1 pl q',
          r1 = RSome {| result := Some res1 |}
          /\ cmd q = saslContinue (conversationId res1) pl
          /\ k err r w = Send w connection q' finish
          /\ cmd q' = saslContinue (conversationId res) []
          /\ (conversation_of (cmd q') = conversation_of (cmd q)
              <-> conversationId res = conversationId res1)).
Proof.
  split; [|split; [|split; [|split]]].
  - split.
    + intros (q & k & Hsend). destruct r as [| |[[res|]]]; try discriminate.
      exists res. split; [reflexivity|].
      cbn in Hsend. destruct (done res) as [| |[|]| |]; try discriminate.
      reflexivity.
    + intros (res & -> & Hdone). cbn. rewrite Hdone. cbn. eauto.
  - intros res -> Hdone. cbn. rewrite Hdone. cbn. split; reflexivity.
  - intros [-> | [-> | (res & -> & Hdone)]]; try reflexivity.
    cbn. destruct (done res) as [| |[|]| |]; try reflexivity. congruence.
  - intros ->. cbn. eexists. reflexivity.
  - intros m pw firstBare err1 r1 w1 c q k res Hsend -> Hdone.
    unfold on_saslStart in Hsend.
    destruct (_getError err1 r1) as [[tmpError|]|e]; try discriminate.
    destruct r1 as [| |[[res1|]]]; try discriminate.
    destruct (payload res1) as [pv|]; try discriminate.
    destruct (dict_get (parsePayload pv) "s") as [| | | |salt_text];
      try discriminate.
    destruct (HI _ _ _ _ _) as [w' [sp|e]]; try discriminate.
    destruct (_ && _); try discriminate.
    injection Hsend as _ _ <- <-.
    exists res1. eexists. eexists.
    split; [reflexivity|]. split; [reflexivity|].
    split; [cbn; rewrite Hdone; reflexivity|].
    split; [reflexivity|].
    cbn. split; [by intros [= ->] | by intros ->].
Qed.

End WithCrypto.

Lemma HI_precedes_iteration_check_witness :
  let reply := {| dollar_err := PUndefined; errmsg := PUndefined;
                  done := PUndefined; conversationId := PNum (Int 1);
                  payload := Some "r=abc,s=QUJD,i=5" |} in
  exists w',
    on_saslStart (C := example_crypto) sha1 "admin" 7%nat (PStr "pw")
      "n=user,r=abc" None (RSome {| result := Some reply |}) hi_initial
    = Done w' (Some (invalid_iteration_count (Int 5))) RFalse
    /\ pbkdf2_calls w' = [(PStr "pw", [65; 66; 67], Int 5, 20, sha1)].
Proof.
  intros reply.
  assert (Hs : dict_get (parsePayload "r=abc,s=QUJD,i=5") "s" = PStr "QUJD")
    by (vm_compute; reflexivity).
  destruct (HI_precedes_iteration_check (C := example_crypto) sha1 "admin" 7%nat
              (PStr "pw") "n=user,r=abc" reply "r=abc,s=QUJD,i=5" "QUJD"
              hi_initial eq_refl eq_refl eq_refl Hs) as [_ Hlow].
  destruct Hlow as [Hmiss _]; [vm_compute; reflexivity ..|].
  destruct (Hmiss (take 20 ([65; 66; 67] ++ repeat 0 20)))
    as (w' & Hp & Hcalls & _ & _); [vm_compute; reflexivity ..|].
  exists w'. split; [exact Hp | exact Hcalls].
Defined.

(** C10, as stated, fails on a cached key.  With the payload
    ["r=abc,s=QUJD,i=5"], a first attempt computes the derivation once
    and is refused; a second attempt receiving the same reply in the
    state [w1] left by the first is refused too, but leaves the state
    exactly as it was: no derivation is computed and no entry is added. *)
Lemma cached_low_count_computes_nothing :
  let reply := reply_with PUndefined (PNum (Int 1)) (Some "r=abc,s=QUJD,i=5") in
  let attempt :=
    on_saslStart (C := example_crypto) sha1 "admin" 7%nat (PStr "pw")
      "n=user,r=abc" None reply in
  let w1 := state_of (attempt hi_initial) in
  attempt hi_initial = Done w1 (Some (invalid_iteration_count (Int 5))) RFalse
  /\ pbkdf2_calls w1 = [(PStr "pw", [65; 66; 67], Int 5, 20, sha1)]
  /\ size (_hiCache w1) = 1%nat
  /\ attempt w1 = Done w1 (Some (invalid_iteration_count (Int 5))) RFalse.
Proof. vm_compute. repeat split; reflexivity. Qed.

Lemma extra_round_iff_done_false_witness :
  on_saslContinue "admin" 7%nat None
    (reply_with (PBool false) (PNum (Int 1)) None) hi_initial
  = Send hi_initial 7%nat
      (AuthProvider._buildCommand "admin.$cmd" (saslContinue (PNum (Int 1)) []))
      finish
  /\ on_saslContinue "admin" 7%nat None
       (reply_with (PBool true) (PNum (Int 1)) None) hi_initial
     = Done hi_initial None (reply_with (PBool true) (PNum (Int 1)) None)
  /\ on_saslContinue "admin" 7%nat (Some (TransportError 1)) RNone hi_initial
     = Done hi_initial (Some (TransportError 1)) RNone.
Proof.
  split; [|split].
  - apply (proj1 (proj1 (proj2 (extra_round_iff_done_false (C := example_crypto) "admin" 7%nat None
              (reply_with (PBool false) (PNum (Int 1)) None) hi_initial))
             _ eq_refl eq_refl)).
  - apply (proj1 (proj2 (proj2 (extra_round_iff_done_false (C := example_crypto) "admin" 7%nat None
              (reply_with (PBool true) (PNum (Int 1)) None) hi_initial)))).
    right; right. eexists. split; [reflexivity | discriminate].
  - apply (proj1 (proj2 (proj2 (extra_round_iff_done_false (C := example_crypto) "admin" 7%nat
              (Some (TransportError 1)) RNone hi_initial)))).
    left; reflexivity.
Defined.

(** C7, as stated, fails in two ways.  The additional command carries
    the identifier of the reply it answers, not the one used before:
    when the first reply has identifier 1 and the second, with [done]
    false, has identifier 2, the attempt for the sample user sends a
    [saslContinue] with identifier 1 and then one with identifier 2.
    And a reply object that has no result document is not returned as
    the final result: the callback throws. *)
Lemma extra_round_carries_the_new_identifier :
  (exists q1 q2 q3 pl w',
     exec
       (_executeScram (C := example_crypto) sha1 7%nat user_pencil "bm9uY2U="
          hi_initial)
       [(None, reply_with PUndefined (PNum (Int 1)) (Some "r=abc,s=QUJD,i=4096"));
        (None, reply_with (PBool false) (PNum (Int 2)) None)]
     = ([q1; q2; q3], Waiting, w')
     /\ cmd q2 = saslContinue (PNum (Int 1)) pl
     /\ cmd q3 = saslContinue (PNum (Int 2)) []
     /\ conversation_of (cmd q3) <> conversation_of (cmd q2))
  /\ (exists msg,
        on_saslContinue "admin" 7%nat None (RSome {| result := None |}) hi_initial
        = Raise hi_initial (TypeError msg)).
Proof.
  split.
  - vm_compute. do 5 eexists.
    split; [reflexivity|]. split; [reflexivity|]. split; [reflexivity|].
    discriminate.
  - vm_compute. eexists. reflexivity.
Qed.

End ScramProtocol.

(** ** The coordinator: [_auth] and [reauthenticate] *)

Module Coordinator.
Import Js Types AuthProvider.

Section WithEquals.
Context {E : CredentialsEquals}.

Lemma dispatch_spec (id : nat) (conns : list Conn) (queue : list (nat * Conn)) :
  dispatch id conns queue = ([], queue ++ ((fun c => (id, c)) <$> conns)).
Proof.
  revert queue. induction conns as [|c conns IH]; intros queue; cbn.
  - by rewrite app_nil_r.
  - rewrite IH. by rewrite <- app_assoc.
Qed.

Lemma _auth_nonempty (cb : Callback) (a : nat) (cred : Credentials)
    (st : State) (conns : list Conn) :
  arrays st !! a = Some conns -> conns <> [] ->
  _auth cb a cred st =
    set_nextTick
      (nextTick st ++ ((fun c => (List.length (frames st), c)) <$> conns))
      (set_arrays (<[a := []]> (arrays st))
         (set_frames
            (frames st ++
               [{| count := Z.of_nat (List.length conns);
                   numberOfValidConnections := 0; errorObject := None;
                   credentials := cred; callback := cb |}]) st)).
Proof.
  intros Ha Hne. unfold _auth. rewrite Ha.
  change (default [] (Some conns)) with conns.
  destruct (Z.of_nat (List.length conns) =? 0) eqn:Hz.
  - apply Z.eqb_eq in Hz. destruct conns; [done | cbn in Hz; lia].
  - by rewrite dispatch_spec.
Qed.

Lemma _auth_empty (cb : Callback) (a : nat) (cred : Credentials) (st : State) :
  arrays st !! a = Some [] ->
  _auth cb a cred st = invoke cb None VNull st.
Proof. intros Ha. unfold _auth. by rewrite Ha. Qed.

Lemma existsb_filter_length {A} (f : A -> bool) (l : list A) :
  (0 <? Z.of_nat (List.length (List.filter f l))) = existsb f l.
Proof.
  induction l as [|x l IH]; [reflexivity|].
  cbn. destruct (f x); cbn; [|exact IH].
  apply Z.ltb_lt. lia.
Qed.

Lemma filter_snoc {A} (f : A -> bool) (l : list A) (x : A) :
  List.filter f (l ++ [x]) = List.filter f l ++ (if f x then [x] else []).
Proof. rewrite List.filter_app. cbn. by destruct (f x). Qed.

Lemma last_omap_snoc (outs : list (option Error * Arg2)) (o : option Error * Arg2) :
  last (omap outcome_error (outs ++ [o])) =
    match outcome_error o with
    | Some e => Some e
    | None => last (omap outcome_error outs)
    end.
Proof.
  rewrite omap_app. cbn. destruct (outcome_error o) as [e|].
  - by rewrite last_snoc.
  - by rewrite app_nil_r.
Qed.

Lemma invoke_frame (cb : Callback) (err : option Error) (v : Verdict) (st : State) :
  authStore (invoke cb err v st) = authStore st
  /\ arrays (invoke cb err v st) = arrays st
  /\ frames (invoke cb err v st) = frames st
  /\ nextTick (invoke cb err v st) = nextTick st
  /\ inflight (invoke cb err v st) = inflight st
  /\ attempts (invoke cb err v st) = attempts st
  /\ uncaught (invoke cb err v st) = uncaught st.
Proof.
  unfold invoke. destruct cb as [|rid]; [done|].
  destruct (reauths st !! rid) as [c|]; [|done].
  by destruct (c - 1 =? 0).
Qed.

Lemma addCredentials_frame (cred : Credentials) (st : State) :
  arrays (addCredentials cred st) = arrays st
  /\ frames (addCredentials cred st) = frames st
  /\ nextTick (addCredentials cred st) = nextTick st
  /\ inflight (addCredentials cred st) = inflight st
  /\ reauths (addCredentials cred st) = reauths st
  /\ attempts (addCredentials cred st) = attempts st
  /\ reported (addCredentials cred st) = reported st
  /\ uncaught (addCredentials cred st) = uncaught st.
Proof. unfold addCredentials. by destruct (negb _). Qed.

(** Nothing can happen in a state without work. *)
Lemma run_quiescent (evs : list Event) (st st' : State) :
  quiescent st -> run evs st = Some st' -> evs = [] /\ st' = st.
Proof.
  intros [Hq Hf] Hrun. destruct evs as [|[|k err r] evs]; cbn in Hrun.
  - by injection Hrun as <-.
  - by rewrite Hq in Hrun.
  - by rewrite Hf in Hrun.
Qed.

Lemma auth_starts (cb : Callback) (a : nat) (cred : Credentials)
    (st0 : State) (conns : list Conn) :
  quiescent st0 -> arrays st0 !! a = Some conns -> conns <> [] ->
  in_progress st0 cred cb (attempts st0 ++ ((fun c => (cred, c)) <$> conns)) []
    (_auth cb a cred st0).
Proof.
  intros [Hq Hf] Ha Hne. rewrite (_auth_nonempty cb a cred st0 conns Ha Hne).
  exists {| count := Z.of_nat (List.length conns);
            numberOfValidConnections := 0; errorObject := None;
            credentials := cred; callback := cb |}.
  cbn. rewrite Hq, Hf. cbn.
  split; [reflexivity|]. split; [reflexivity|]. split; [reflexivity|].
  split. { apply Forall_fmap, Forall_true. done. }
  split; [constructor|].
  split. { rewrite length_fmap. f_equal. lia. }
  split. { destruct conns; [done | cbn; lia]. }
  repeat (split; [reflexivity|]).
  by rewrite <- list_fmap_compose.
Qed.

Lemma addCredentials_authStore (cred : Credentials) (st st0 : State) :
  authStore st = authStore st0 ->
  authStore (addCredentials cred st) = authStore (addCredentials cred st0).
Proof.
  intros Hs. unfold addCredentials. rewrite Hs.
  destruct (negb _); cbn; congruence.
Qed.

Lemma classify_well_formed (o : option Error * Arg2) :
  well_formed o = true ->
  (classify o.1 o.2 = Valid /\ is_valid o = true /\ outcome_error o = None)
  \/ (exists e, classify o.1 o.2 = Invalid e /\ is_valid o = false
                /\ outcome_error o = Some e).
Proof.
  unfold well_formed, is_valid, outcome_error.
  destruct (classify o.1 o.2) as [e| |e]; intros Hwf; try discriminate.
  - right. by exists e.
  - by left.
Qed.

(** The run of one [_auth] call to its end. *)
Lemma run_in_progress (st0 : State) (cred : Credentials) (cb : Callback)
    (planned : list (Credentials * Conn)) (evs : list Event) :
  forall (st : State) (outs : list (option Error * Arg2)) (st' : State),
    in_progress st0 cred cb planned outs st ->
    run evs st = Some st' -> quiescent st' ->
    Forall (fun o => well_formed o = true) (outcomes evs) ->
    exists st_pre,
      st' = invoke cb (verdict cred (outs ++ outcomes evs)).1
              (verdict cred (outs ++ outcomes evs)).2 st_pre
      /\ authStore st_pre
         = (if existsb is_valid (outs ++ outcomes evs)
            then authStore (addCredentials cred st0) else authStore st0)
      /\ reported st_pre = reported st0
      /\ reauths st_pre = reauths st0
      /\ uncaught st_pre = uncaught st0
      /\ attempts st_pre = planned
      /\ List.length (outcomes evs)
         = (List.length (nextTick st) + List.length (inflight st))%nat.
Proof.
  induction evs as [|ev evs IH]; intros st outs st' Hin Hrun Hq Hwf.
  - cbn in Hrun. injection Hrun as <-.
    destruct Hin as (f & _ & _ & _ & _ & _ & Hcount & Hpos & _).
    destruct Hq as [Hq1 Hq2]. rewrite Hq1, Hq2 in Hcount. cbn in Hcount. lia.
  - destruct Hin as (f & Hframes & Hcred & Hcb & Hticks & Hfly & Hcount & Hpos
                     & Hvalid & Herr & Hstore & Hrep & Hre & Hunc & Hatt).
    assert (Hf : frames st !! List.length (frames st0) = Some f).
    { rewrite Hframes. apply list_lookup_middle. reflexivity. }
    destruct ev as [|k err r].
    + (* the event loop starts the next attempt *)
      cbn in Hrun. destruct (nextTick st) as [|[id c] queue] eqn:Hnt;
        [discriminate|].
      apply Forall_cons in Hticks as [Hid Hticks]. cbn in Hid. subst id.
      rewrite Hf in Hrun. cbn in Hwf.
      assert (Hin1 : in_progress st0 cred cb planned outs
                (set_inflight (inflight st ++ [(List.length (frames st0), c)])
                   (set_attempts (attempts st ++ [(credentials f, c)])
                      (set_nextTick queue st)))); [|
        destruct (IH _ outs st' Hin1 Hrun Hq Hwf)
          as (st_pre & H1 & H2 & H3 & H4 & H5 & H6 & H7);
        exists st_pre; repeat (split; [assumption|]);
        cbn in H7 |- *; rewrite H7, length_app; cbn; lia].
      exists f. cbn.
      split; [exact Hframes|]. split; [exact Hcred|]. split; [exact Hcb|].
      split; [exact Hticks|].
      split. { apply Forall_app. split; [exact Hfly|]. by repeat constructor. }
      split. { rewrite Hcount, length_app. cbn. lia. }
      split; [exact Hpos|].
      repeat (split; [assumption|]).
      rewrite <- Hatt, Hcred, <- app_assoc. reflexivity.
    + (* an attempt calls back *)
      cbn in Hrun. destruct (inflight st !! k) as [[id c]|] eqn:Hk;
        [|discriminate].
      pose proof (proj1 (Forall_lookup _ _) Hfly k _ Hk) as Hid.
      cbn in Hid. subst id.
      cbn in Hwf. apply Forall_cons in Hwf as [Hwf1 Hwf].
      assert (Hlen : List.length (delete k (inflight st))
                     = (List.length (inflight st) - 1)%nat).
      { apply length_delete. by eexists. }
      assert (Hlt : (0 < List.length (inflight st))%nat).
      { apply lookup_lt_Some in Hk. lia. }
      unfold on_result in Hrun. cbn [frames set_inflight] in Hrun.
      rewrite Hf in Hrun. cbn zeta in Hrun.
      assert (Hins : forall f', <[List.length (frames st0) := f']> (frames st)
                                = frames st0 ++ [f']).
      { intros f'. rewrite Hframes.
        rewrite insert_app_r_alt by lia.
        by rewrite Nat.sub_diag. }
      rewrite Hins in Hrun.
      set (c' := classify err r) in *.
      assert (Hc' : (c' = Valid /\ is_valid (err, r) = true
                     /\ outcome_error (err, r) = None)
                    \/ (exists e, c' = Invalid e /\ is_valid (err, r) = false
                                  /\ outcome_error (err, r) = Some e)).
      { apply (classify_well_formed (err, r)). exact Hwf1. }
      destruct (decide (count f - 1 = 0)) as [Hlast | Hmore].
      * (* it was the last one *)
        assert (Hrun' : exists st1,
                   run evs st1 = Some st' /\ quiescent st1
                   /\ exists st_pre,
                       st1 = invoke cb (verdict cred (outs ++ [(err, r)])).1
                               (verdict cred (outs ++ [(err, r)])).2 st_pre
                       /\ authStore st_pre
                          = (if existsb is_valid (outs ++ [(err, r)])
                             then authStore (addCredentials cred st0)
                             else authStore st0)
                       /\ reported st_pre = reported st0
                       /\ reauths st_pre = reauths st0
                       /\ uncaught st_pre = uncaught st0
                       /\ attempts st_pre = attempts st).
        { assert (Hnt : nextTick st = [] /\ delete k (inflight st) = []).
          { split; apply length_zero_iff_nil; lia. }
          destruct Hnt as [Hnt Hdel].
          unfold verdict. rewrite <- existsb_filter_length, filter_snoc, length_app.
          rewrite last_omap_snoc.
          destruct Hc' as [(Hc & Hv & He) | (e & Hc & Hv & He)];
            rewrite Hc in Hrun; rewrite Hv, He; cbn in Hrun;
            rewrite Hlast in Hrun; cbn in Hrun; rewrite Hcb, Hcred in Hrun.
          - rewrite Hvalid in Hrun.
            replace (0 <? Z.of_nat (List.length (List.filter is_valid outs)) + 1)
              with true in Hrun by (symmetry; apply Z.ltb_lt; lia).
            replace (0 <? Z.of_nat (List.length (List.filter is_valid outs)
                                    + List.length [(err, r)]))
              with true by (symmetry; apply Z.ltb_lt; cbn; lia).
            eexists. split; [exact Hrun|]. split.
            { destruct (invoke_frame cb None (VBool true)
                (addCredentials cred
                   (set_frames (frames st0 ++ [record_outcome f Valid])
                      (set_inflight (delete k (inflight st)) st))))
                as (_ & _ & _ & H1 & H2 & _).
              split; [rewrite H1 | rewrite H2];
                (etrans; [apply addCredentials_frame|]); cbn; assumption. }
            eexists. split; [reflexivity|].
            split. { apply addCredentials_authStore. exact Hstore. }
            split. { etrans; [apply addCredentials_frame|]. exact Hrep. }
            split. { etrans; [apply addCredentials_frame|]. exact Hre. }
            split. { etrans; [apply addCredentials_frame|]. exact Hunc. }
            etrans; [apply addCredentials_frame|]. reflexivity.
          - rewrite Hvalid in Hrun. cbn [List.length]. rewrite Nat.add_0_r.
            rewrite existsb_filter_length in *.
            destruct (existsb is_valid outs) eqn:Hex.
            + eexists. split; [exact Hrun|]. split.
              { destruct (invoke_frame cb None (VBool true)
                  (addCredentials cred
                     (set_frames (frames st0 ++ [record_outcome f (Invalid e)])
                        (set_inflight (delete k (inflight st)) st))))
                  as (_ & _ & _ & H1 & H2 & _).
                split; [rewrite H1 | rewrite H2];
                  (etrans; [apply addCredentials_frame|]); cbn; assumption. }
              eexists. split; [reflexivity|].
              split. { apply addCredentials_authStore. exact Hstore. }
              split. { etrans; [apply addCredentials_frame|]. exact Hrep. }
              split. { etrans; [apply addCredentials_frame|]. exact Hre. }
              split. { etrans; [apply addCredentials_frame|]. exact Hunc. }
              etrans; [apply addCredentials_frame|]. reflexivity.
            + eexists. split; [exact Hrun|]. split.
              { destruct (invoke_frame cb (Some e) (VBool false)
                  (set_frames (frames st0 ++ [record_outcome f (Invalid e)])
                     (set_inflight (delete k (inflight st)) st)))
                  as (_ & _ & _ & H1 & H2 & _).
                split; [rewrite H1 | rewrite H2]; cbn; assumption. }
              eexists. split; [reflexivity|]. cbn. done. }
        destruct Hrun' as (st1 & Hrun1 & Hq1 & st_pre & Hst1 & Hs & Hr & Hre' & Hu & Ha).
        destruct (run_quiescent evs st1 st' Hq1 Hrun1) as [-> ->].
        cbn [outcomes]. exists st_pre.
        split; [exact Hst1|]. split; [exact Hs|]. split; [exact Hr|].
        split; [exact Hre'|]. split; [exact Hu|].
        split.
        { rewrite Ha, <- Hatt.
          assert (Hnt : nextTick st = []) by (apply length_zero_iff_nil; lia).
          rewrite Hnt. cbn. by rewrite app_nil_r. }
        cbn. lia.
      * (* others are still outstanding *)
        assert (Hrun1 : run evs
                  (set_frames (frames st0 ++ [record_outcome f c'])
                     (set_inflight (delete k (inflight st)) st)) = Some st').
        { destruct Hc' as [(Hc & _) | (e & Hc & _)];
            rewrite Hc in Hrun |- *; cbn in Hrun |- *;
            (destruct (count f - 1 =? 0) eqn:Hz;
             [apply Z.eqb_eq in Hz; contradiction | exact Hrun]). }
        assert (Hin1 : in_progress st0 cred cb planned (outs ++ [(err, r)])
                  (set_frames (frames st0 ++ [record_outcome f c'])
                     (set_inflight (delete k (inflight st)) st))).
        { exists (record_outcome f c'). cbn.
          split; [reflexivity|]. split; [exact Hcred|]. split; [exact Hcb|].
          split; [exact Hticks|].
          split. { by apply Forall_delete. }
          split. { rewrite Hlen. lia. }
          split; [lia|].
          split. { rewrite filter_snoc, length_app.
                   destruct Hc' as [(-> & -> & _) | (e & -> & -> & _)];
                     cbn; rewrite Hvalid; lia. }
          split. { rewrite last_omap_snoc.
                   destruct Hc' as [(-> & _ & ->) | (e & -> & _ & ->)];
                     cbn; [exact Herr | reflexivity]. }
          repeat (split; [assumption|]).
          exact Hatt. }
        destruct (IH _ (outs ++ [(err, r)]) st' Hin1 Hrun1 Hq Hwf)
          as (st_pre & H1 & H2 & H3 & H4 & H5 & H6 & H7).
        exists st_pre. cbn [outcomes].
        rewrite <- app_assoc in H1, H2.
        repeat (split; [assumption|]).
        cbn in H7 |- *. rewrite H7, Hlen. lia.
Qed.

Lemma is_valid_iff (o : option Error * Arg2) :
  well_formed o = true ->
  (is_valid o = true <->
   o.1 = None
   /\ forall rep res, o.2 = RSome rep -> result rep = Some res ->
        truthy (dollar_err res) = false /\ truthy (errmsg res) = false).
Proof.
  destruct o as [[e|] r]; unfold well_formed, is_valid, classify; cbn.
  { intros _. split; [discriminate | intros [? _]; discriminate]. }
  destruct r as [| |[[res|]]]; cbn; try discriminate; intros _.
  - split; [|reflexivity]. intros _. split; [reflexivity|]. discriminate.
  - destruct (truthy (dollar_err res)) eqn:H1.
    + split; [discriminate|]. intros [_ H].
      destruct (H _ _ eq_refl eq_refl). congruence.
    + destruct (truthy (errmsg res)) eqn:H2.
      * split; [discriminate|]. intros [_ H].
        destruct (H _ _ eq_refl eq_refl). congruence.
      * split; [|reflexivity]. intros _. split; [reflexivity|].
        intros rep res' [= <-] [= <-]. by split.
  - split; [|reflexivity]. intros _. split; [reflexivity|].
    intros rep res [= <-]. discriminate.
Qed.

(** With no valid outcome there is always a last error: the generic
    message is never the one reported. *)
Lemma no_valid_outcome_has_error (outs : list (option Error * Arg2)) :
  outs <> [] -> Forall (fun o => well_formed o = true) outs ->
  existsb is_valid outs = false ->
  exists e, last (omap outcome_error outs) = Some e.
Proof.
  intros Hne Hwf Hex. destruct (exists_last Hne) as (outs' & o & ->).
  apply Forall_app in Hwf as [_ Hwf]. apply Forall_cons in Hwf as [Hwf _].
  rewrite existsb_app in Hex. apply orb_false_iff in Hex as [_ Hex].
  cbn in Hex. rewrite orb_false_r in Hex.
  rewrite last_omap_snoc.
  destruct (classify_well_formed o Hwf) as [(_ & Hv & _) | (e & _ & _ & ->)].
  - congruence.
  - by exists e.
Qed.

(** C3, as amended: [_auth] on a non-empty array of connections, run
    until every attempt has called back (in any order, each outcome
    respecting the callback contract: an error or a second argument).
    An outcome counts as valid exactly when its error is absent and
    the result document of its reply has neither a truthy [$err] nor a
    truthy [errmsg] (a field that is present but falsy does not count);
    there are as many outcomes as connections, one attempt per
    connection; the caller's callback is called once.  With at least
    one valid outcome it is called with [(null, true)], after the
    credentials were added to the store unless an equal entry is there
    already; with none it is called with [(e, false)] and the store is
    unchanged, [e] being the error of the last outcome that had one.
    The error that the code builds for the caller is the captured one
    or, when none was captured, a [MongoError] "failed to authenticate
    using <mechanism>"; on these runs an error was always captured. *)
Theorem auth_aggregates_outcomes (st0 : State) (a : nat) (cred : Credentials)
    (conns : list Conn) (evs : list Event) (st' : State) :
  quiescent st0 -> arrays st0 !! a = Some conns -> conns <> [] ->
  run evs (_auth Caller a cred st0) = Some st' -> quiescent st' ->
  Forall (fun o => well_formed o = true) (outcomes evs) ->
  let outs := outcomes evs in
  (forall o, o ∈ outs ->
     (is_valid o = true <->
      o.1 = None
      /\ forall rep res, o.2 = RSome rep -> result rep = Some res ->
           truthy (dollar_err res) = false /\ truthy (errmsg res) = false))
  /\ List.length outs = List.length conns
  /\ attempts st' = attempts st0 ++ ((fun c => (cred, c)) <$> conns)
  /\ (existsb is_valid outs = true ->
      reported st' = reported st0 ++ [(None, VBool true)]
      /\ authStore st'
         = if existsb (fun c => equals c cred) (authStore st0)
           then authStore st0 else authStore st0 ++ [cred])
  /\ (existsb is_valid outs = false ->
      authStore st' = authStore st0
      /\ reported st' = reported st0
           ++ [(Some (failure_error cred (last (omap outcome_error outs))),
                VBool false)]
      /\ exists e, last (omap outcome_error outs) = Some e
                   /\ failure_error cred (last (omap outcome_error outs)) = e)
  /\ failure_error cred None
     = MongoError ("failed to authenticate using " +:+ mechanism cred)
  /\ (forall e, failure_error cred (Some e) = e).
Proof.
  intros Hq0 Ha Hne Hrun Hq Hwf outs.
  pose proof (auth_starts Caller a cred st0 conns Hq0 Ha Hne) as Hin.
  destruct (run_in_progress st0 cred Caller _ evs _ [] st' Hin Hrun Hq Hwf)
    as (st_pre & Hst' & Hstore & Hrep & _ & _ & Hatt & Hlen).
  cbn [app] in Hst', Hstore. fold outs in Hst', Hstore, Hlen.
  assert (Hcount : List.length outs = List.length conns).
  { rewrite Hlen, (_auth_nonempty Caller a cred st0 conns Ha Hne). cbn.
    destruct Hq0 as [-> ->]. cbn. rewrite length_fmap. lia. }
  split.
  { intros o Ho. apply is_valid_iff.
    exact (proj1 (Forall_forall _ _) Hwf o Ho). }
  split; [exact Hcount|].
  split.
  { rewrite Hst'. cbn. exact Hatt. }
  unfold verdict in Hst'. split; [|split; [|split]].
  - intros Hex. rewrite Hex in Hst', Hstore. cbn in Hst'. subst st'. cbn.
    rewrite Hrep, Hstore. split; [reflexivity|].
    unfold addCredentials. by destruct (existsb _ (authStore st0)).
  - intros Hex. rewrite Hex in Hst', Hstore. cbn in Hst'. subst st'. cbn.
    rewrite Hrep, Hstore. split; [reflexivity|]. split; [reflexivity|].
    destruct (no_valid_outcome_has_error outs) as [e He].
    + intros Hnil. rewrite Hnil in Hcount. destruct conns; [done | discriminate].
    + exact Hwf.
    + exact Hex.
    + exists e. by rewrite He.
  - reflexivity.
  - reflexivity.
Qed.

Lemma reauth_rest (a rid : nat) (rest : list Credentials) :
  forall (s : State) (n : Z),
    arrays s !! a = Some [] ->
    reauths s !! rid = Some (Z.of_nat (List.length rest) + n) -> 1 <= n ->
    foldl (fun s cred => _auth (Reauth rid) a cred s) s rest
    = set_reauths (<[rid := n]> (reauths s)) s.
Proof.
  induction rest as [|cred rest IH]; intros s n Ha Hc Hn.
  - cbn in *. rewrite list_insert_id by exact Hc. by destruct s.
  - cbn [foldl]. rewrite _auth_empty by exact Ha.
    unfold invoke. rewrite Hc.
    destruct (Z.of_nat (List.length (cred :: rest)) + n - 1 =? 0) eqn:Hz.
    { apply Z.eqb_eq in Hz. cbn in Hz. lia. }
    rewrite (IH _ n); cbn.
    + by rewrite list_insert_insert_eq.
    + exact Ha.
    + rewrite list_lookup_insert_eq by (by eapply lookup_lt_Some).
      f_equal. lia.
    + exact Hn.
Qed.

(** What [reauthenticate] has done when it returns, on a store
    [c1 :: rest] and a non-empty array. *)
Lemma reauthenticate_returns (a : nat) (st : State) (c1 : Credentials)
    (rest : list Credentials) (conns : list Conn) :
  authStore st = c1 :: rest -> arrays st !! a = Some conns -> conns <> [] ->
  reauthenticate a st =
    set_reauths (reauths st ++ [1])
      (set_nextTick
         (nextTick st ++ ((fun c => (List.length (frames st), c)) <$> conns))
         (set_arrays (<[a := []]> (arrays st))
            (set_frames
               (frames st ++
                  [{| count := Z.of_nat (List.length conns);
                      numberOfValidConnections := 0; errorObject := None;
                      credentials := c1;
                      callback := Reauth (List.length (reauths st)) |}]) st))).
Proof.
  intros Hstore Ha Hne. unfold reauthenticate. rewrite Hstore.
  destruct (Z.of_nat (List.length (c1 :: rest)) =? 0) eqn:Hz.
  { apply Z.eqb_eq in Hz. cbn in Hz. lia. }
  cbn [foldl].
  rewrite (_auth_nonempty _ a c1 _ conns) by assumption.
  rewrite (reauth_rest a _ rest _ 1); cbn.
  - rewrite insert_app_r_alt by lia. by rewrite Nat.sub_diag.
  - apply lookup_insert_eq.
  - rewrite lookup_app_r by lia. rewrite Nat.sub_diag. cbn. f_equal. lia.
  - lia.
Qed.

(** C9: [_auth] on a non-empty array empties that very array: after
    the dispatch loop the array object at [a] is empty (other arrays
    are untouched), one attempt per former element is queued, and any
    later [_auth] on the same array sees no connection: it queues
    nothing and calls its callback at once with [(null, null)].  In
    particular, within [reauthenticate] only the first stored
    credential gets attempts queued; for each later credential the
    closure of [reauthenticate] is called back immediately, which
    leaves its counter at 1. *)
Theorem auth_empties_the_callers_array (cb : Callback) (a : nat)
    (cred : Credentials) (st : State) (conns : list Conn) :
  arrays st !! a = Some conns -> conns <> [] ->
  let st' := _auth cb a cred st in
  arrays st' !! a = Some []
  /\ (forall b, b <> a -> arrays st' !! b = arrays st !! b)
  /\ nextTick st' = nextTick st ++ ((fun c => (List.length (frames st), c)) <$> conns)
  /\ (forall cb' cred',
        _auth cb' a cred' st' = invoke cb' None VNull st'
        /\ nextTick (_auth cb' a cred' st') = nextTick st'
        /\ arrays (_auth cb' a cred' st') !! a = Some [])
  /\ (forall rest,
        authStore st = cred :: rest ->
        let s := reauthenticate a st in
        arrays s !! a = Some []
        /\ nextTick s = nextTick st ++ ((fun c => (List.length (frames st), c)) <$> conns)
        /\ (forall f, f ∈ drop (List.length (frames st)) (frames s) ->
             credentials f = cred)
        /\ reauths s = reauths st ++ [1]
        /\ reported s = reported st).
Proof.
  intros Ha Hne st'. subst st'.
  rewrite (_auth_nonempty cb a cred st conns Ha Hne). cbn.
  split; [apply lookup_insert_eq|].
  split. { intros b Hb. by apply lookup_insert_ne. }
  split; [reflexivity|].
  split.
  - intros cb' cred'.
    rewrite _auth_empty by (cbn; apply lookup_insert_eq).
    split; [reflexivity|].
    match goal with
    | |- context [invoke ?c ?e ?v ?s] =>
        destruct (invoke_frame c e v s) as (_ & -> & _ & -> & _)
    end.
    cbn. split; [reflexivity | apply lookup_insert_eq].
  - intros rest Hstore.
    rewrite (reauthenticate_returns a st cred rest conns Hstore Ha Hne). cbn.
    split; [apply lookup_insert_eq|]. split; [reflexivity|].
    split; [|split; reflexivity].
    intros f. rewrite drop_app_length. intros ->%list_elem_of_singleton.
    reflexivity.
Qed.

(** [reauthenticate] on a store [c1 :: rest] and a non-empty array, run
    to the end: the attempts made are those of [c1], one per
    connection, and the caller is told the error of the verdict on
    [c1]. *)
Lemma reauthenticate_replays_first_only (st0 : State) (a : nat)
    (c1 : Credentials) (rest : list Credentials) (conns : list Conn)
    (evs : list Event) (st' : State) :
  quiescent st0 -> authStore st0 = c1 :: rest ->
  arrays st0 !! a = Some conns -> conns <> [] ->
  run evs (reauthenticate a st0) = Some st' -> quiescent st' ->
  Forall (fun o => well_formed o = true) (outcomes evs) ->
  attempts st' = attempts st0 ++ ((fun c => (c1, c)) <$> conns)
  /\ reported st' = reported st0 ++ [((verdict c1 (outcomes evs)).1, VNull)].
Proof.
  intros Hq0 Hstore Ha Hne Hrun Hq Hwf.
  rewrite (reauthenticate_returns a st0 c1 rest conns Hstore Ha Hne) in Hrun.
  destruct Hq0 as [Hnt Hfl].
  set (st0' := set_reauths (reauths st0 ++ [1]) st0).
  assert (Hin : in_progress st0' c1 (Reauth (List.length (reauths st0)))
                  (attempts st0 ++ ((fun c => (c1, c)) <$> conns)) []
                  (set_reauths (reauths st0 ++ [1])
                     (set_nextTick
                        (nextTick st0 ++
                           ((fun c => (List.length (frames st0), c)) <$> conns))
                        (set_arrays (<[a := []]> (arrays st0))
                           (set_frames
                              (frames st0 ++
                                 [{| count := Z.of_nat (List.length conns);
                                     numberOfValidConnections := 0;
                                     errorObject := None; credentials := c1;
                                     callback := Reauth (List.length (reauths st0)) |}])
                              st0))))).
  { eexists. cbn. rewrite Hnt, Hfl. cbn.
    split; [reflexivity|]. cbn.
    split; [reflexivity|]. split; [reflexivity|].
    split. { apply Forall_fmap, Forall_true. done. }
    split; [constructor|].
    split. { rewrite length_fmap. f_equal. lia. }
    split. { destruct conns; [done | cbn; lia]. }
    repeat (split; [reflexivity|]).
    by rewrite <- list_fmap_compose. }
  destruct (run_in_progress st0' c1 _ _ evs _ [] st' Hin Hrun Hq Hwf)
    as (st_pre & Hst' & _ & Hrep & Hre & _ & Hatt & _).
  cbn [app] in Hst'. subst st'. unfold invoke. rewrite Hre. cbn.
  rewrite lookup_app_r by lia. rewrite Nat.sub_diag. cbn [lookup list_lookup].
  change (1 - 1 =? 0) with true. cbn.
  rewrite Hatt, Hrep. split; reflexivity.
Qed.

End WithEquals.

Lemma auth_aggregates_outcomes_witness :
  let evs := [Tick; Tick; Answer 1 (Some (TransportError 1)) RNone;
              Answer 0 None ok_reply] in
  exists st',
    run (E := same_identity) evs (_auth Caller 0 alice (fresh [] [7; 8]%nat))
    = Some st'
    /\ reported st' = [(None, VBool true)]
    /\ authStore st' = [alice]
    /\ attempts st' = [(alice, 7%nat); (alice, 8%nat)].
Proof.
  intros evs.
  destruct (run (E := same_identity) evs (_auth Caller 0 alice (fresh [] [7; 8]%nat)))
    as [st'|] eqn:Hrun; [|vm_compute in Hrun; discriminate Hrun].
  assert (Hq : quiescent st').
  { vm_compute in Hrun. injection Hrun as <-. split; reflexivity. }
  exists st'. split; [reflexivity|].
  destruct (auth_aggregates_outcomes (E := same_identity) (fresh [] [7; 8]%nat)
              0 alice [7; 8]%nat evs st') as (_ & _ & Hatt & Hok & _).
  - split; reflexivity.
  - reflexivity.
  - discriminate.
  - exact Hrun.
  - exact Hq.
  - repeat constructor.
  - destruct Hok as [Hrep Hstore]; [reflexivity|].
    split; [exact Hrep|]. split; [exact Hstore | exact Hatt].
Defined.

(** C3, as stated, fails: an outcome without error whose result
    document carries a [$err] and an [errmsg] field is counted as valid
    when both are falsy (an empty string, 0).  With one connection and
    this outcome, the caller is told [(null, true)] and the credentials
    are stored. *)
Lemma auth_counts_falsy_error_fields_as_valid :
  let res := {| dollar_err := PStr ""; errmsg := PNum (Int 0);
                done := PBool true; conversationId := PNum (Int 1);
                payload := None |} in
  let o := (None, RSome {| result := Some res |}) in
  dollar_err res <> PUndefined /\ errmsg res <> PUndefined
  /\ is_valid o = true
  /\ exists st',
       run (E := same_identity) [Tick; Answer 0 o.1 o.2]
         (_auth Caller 0 alice (fresh [] [7]%nat))
       = Some st'
       /\ reported st' = [(None, VBool true)]
       /\ authStore st' = [alice].
Proof.
  intros res o. split; [discriminate|]. split; [discriminate|].
  split; [reflexivity|].
  eexists. split; [vm_compute; reflexivity|]. split; reflexivity.
Qed.

Lemma auth_empties_the_callers_array_witness :
  let st := fresh [alice; bob] [7; 8]%nat in
  arrays (_auth Caller 0 alice st) !! 0%nat = Some []
  /\ nextTick (reauthenticate 0 st) = [(0, 7); (0, 8)]%nat
  /\ reauths (reauthenticate 0 st) = [1].
Proof.
  intros st.
  destruct (auth_empties_the_callers_array Caller 0 alice st
              [7; 8]%nat) as (Harr & _ & _ & _ & Hre).
  - reflexivity.
  - discriminate.
  - split; [exact Harr|].
    destruct (Hre [bob] eq_refl) as (_ & Hnt & _ & Hcount & _).
    split; [exact Hnt | exact Hcount].
Defined.

(** C1: [reauthenticate] passes the same array object to every [_auth]
    call, and the first call empties it.  With the stored credentials
    [alice; bob] and the single connection 7, when [reauthenticate]
    returns one attempt is queued (for [alice]), the array is empty and
    the closure's counter is already down to 1; whatever the outcome of
    that attempt, it is the only one made (nothing is ever attempted for
    [bob]) and its error is what the caller is told. *)
Theorem reauthenticate_skips_later_credentials :
  let st1 := reauthenticate 0 (fresh [alice; bob] [7%nat]) in
  nextTick st1 = [(0%nat, 7%nat)]
  /\ arrays st1 !! 0%nat = Some []
  /\ reauths st1 = [1]
  /\ reported st1 = []
  /\ (exists st2,
        run (E := same_identity) [Tick; Answer 0 None ok_reply] st1 = Some st2
        /\ quiescent st2
        /\ attempts st2 = [(alice, 7%nat)]
        /\ reported st2 = [(None, VNull)])
  /\ (exists st2,
        run (E := same_identity)
          [Tick; Answer 0 (Some (TransportError 1)) RNone] st1 = Some st2
        /\ quiescent st2
        /\ attempts st2 = [(alice, 7%nat)]
        /\ reported st2 = [(Some (TransportError 1), VNull)]).
Proof.
  vm_compute. repeat split; try reflexivity; eexists; repeat split; reflexivity.
Qed.

End Coordinator.

(** ** The coordinator: edge cases and invariants *)

Module CoordinatorEdges.
Import Js Types AuthProvider Coordinator.

Section WithEquals.
Context {E : CredentialsEquals}.

Lemma outcomes_cons (ev : Event) (evs : list Event) :
  outcomes (ev :: evs) = outcomes [ev] ++ outcomes evs.
Proof. by destruct ev. Qed.

Lemma outcomes_app (evs1 evs2 : list Event) :
  outcomes (evs1 ++ evs2) = outcomes evs1 ++ outcomes evs2.
Proof.
  induction evs1 as [|ev evs1 IH]; [reflexivity|].
  cbn [app]. rewrite outcomes_cons, (outcomes_cons ev evs1), IH.
  by rewrite app_assoc.
Qed.

Lemma run_app (evs1 evs2 : list Event) (st : State) :
  run evs1 st ≫= run evs2 = run (evs1 ++ evs2) st.
Proof.
  revert st. induction evs1 as [|ev evs1 IH]; intros st; [reflexivity|].
  cbn. destruct (step ev st) as [st1|]; [apply IH | reflexivity].
Qed.

(** The callback of [execute] never touches the queue or the attempts in
    flight. *)
Lemma on_result_queues (id : nat) (err : option Error) (r : Arg2) (st : State) :
  nextTick (on_result id err r st) = nextTick st
  /\ inflight (on_result id err r st) = inflight st.
Proof.
  unfold on_result. destruct (frames st !! id) as [f|]; [|done].
  destruct (classify err r) as [e| |e]; cbn; [| |done].
  - destruct (negb _); [done|].
    destruct (_ <? _);
      match goal with
      | |- context [invoke ?c ?x ?v ?s] =>
          destruct (invoke_frame c x v s) as (_ & _ & _ & -> & -> & _)
      end; [|done].
    match goal with
    | |- context [addCredentials ?c ?s] =>
        destruct (addCredentials_frame c s) as (_ & _ & -> & -> & _)
    end. done.
  - destruct (negb _); [done|].
    destruct (_ <? _);
      match goal with
      | |- context [invoke ?c ?x ?v ?s] =>
          destruct (invoke_frame c x v s) as (_ & _ & _ & -> & -> & _)
      end; [|done].
    match goal with
    | |- context [addCredentials ?c ?s] =>
        destruct (addCredentials_frame c s) as (_ & _ & -> & -> & _)
    end. done.
Qed.

(** One move of the environment while an [_auth] call is in progress:
    the call is still in progress, or nothing is left to do. *)
Lemma step_in_progress (st0 : State) (cred : Credentials) (cb : Callback)
    (planned : list (Credentials * Conn)) (outs : list (option Error * Arg2))
    (st st1 : State) (ev : Event) :
  in_progress st0 cred cb planned outs st ->
  step ev st = Some st1 ->
  Forall (fun o => well_formed o = true) (outcomes [ev]) ->
  in_progress st0 cred cb planned (outs ++ outcomes [ev]) st1 \/ quiescent st1.
Proof.
  intros Hin Hstep Hwf.
  destruct Hin as (f & Hframes & Hcred & Hcb & Hticks & Hfly & Hcount & Hpos
                   & Hvalid & Herr & Hstore & Hrep & Hre & Hunc & Hatt).
  assert (Hf : frames st !! List.length (frames st0) = Some f).
  { rewrite Hframes. apply list_lookup_middle. reflexivity. }
  destruct ev as [|k err r]; cbn in Hstep.
  - destruct (nextTick st) as [|[id c] queue] eqn:Hnt; [discriminate|].
    apply Forall_cons in Hticks as [Hid Hticks]. cbn in Hid. subst id.
    rewrite Hf in Hstep. injection Hstep as <-.
    left. cbn [outcomes]. rewrite app_nil_r.
    exists f. cbn.
    split; [exact Hframes|]. split; [exact Hcred|]. split; [exact Hcb|].
    split; [exact Hticks|].
    split. { apply Forall_app. split; [exact Hfly|]. by repeat constructor. }
    split. { rewrite Hcount, length_app. cbn. lia. }
    split; [exact Hpos|].
    repeat (split; [assumption|]).
    rewrite <- Hatt, Hcred, <- app_assoc. reflexivity.
  - destruct (inflight st !! k) as [[id c]|] eqn:Hk; [|discriminate].
    pose proof (proj1 (Forall_lookup _ _) Hfly k _ Hk) as Hid.
    cbn in Hid. subst id. injection Hstep as <-.
    cbn in Hwf. apply Forall_cons in Hwf as [Hwf1 _].
    assert (Hlen : List.length (delete k (inflight st))
                   = (List.length (inflight st) - 1)%nat).
    { apply length_delete. by eexists. }
    assert (Hlt : (0 < List.length (inflight st))%nat).
    { apply lookup_lt_Some in Hk. lia. }
    destruct (decide (count f - 1 = 0)) as [Hlast | Hmore].
    + right.
      destruct (on_result_queues (List.length (frames st0)) err r
                  (set_inflight (delete k (inflight st)) st)) as [H1 H2].
      split; [rewrite H1 | rewrite H2]; cbn; apply length_zero_iff_nil; lia.
    + left. cbn [outcomes].
      unfold on_result. cbn [frames set_inflight]. rewrite Hf. cbn zeta.
      assert (Hins : forall f', <[List.length (frames st0) := f']> (frames st)
                                = frames st0 ++ [f']).
      { intros f'. rewrite Hframes.
        rewrite insert_app_r_alt by lia. by rewrite Nat.sub_diag. }
      rewrite Hins.
      destruct (classify_well_formed (err, r) Hwf1)
        as [(Hc & Hv & He) | (e & Hc & Hv & He)];
        cbn [fst snd] in Hc; rewrite Hc; cbn;
        (destruct (count f - 1 =? 0) eqn:Hz;
         [apply Z.eqb_eq in Hz; contradiction|]); cbn.
      * exists (record_outcome f Valid). cbn.
        split; [reflexivity|]. split; [exact Hcred|]. split; [exact Hcb|].
        split; [exact Hticks|].
        split. { by apply Forall_delete. }
        split. { rewrite Hlen. lia. }
        split; [lia|].
        split. { rewrite filter_snoc, length_app, Hv. cbn. rewrite Hvalid. lia. }
        split. { rewrite last_omap_snoc, He. exact Herr. }
        repeat (split; [assumption|]). exact Hatt.
      * exists (record_outcome f (Invalid e)). cbn.
        split; [reflexivity|]. split; [exact Hcred|]. split; [exact Hcb|].
        split; [exact Hticks|].
        split. { by apply Forall_delete. }
        split. { rewrite Hlen. lia. }
        split; [lia|].
        split. { rewrite filter_snoc, length_app, Hv. cbn. rewrite Hvalid. lia. }
        split. { rewrite last_omap_snoc, He. reflexivity. }
        repeat (split; [assumption|]). exact Hatt.
Qed.

Lemma run_preserves (st0 : State) (cred : Credentials) (cb : Callback)
    (planned : list (Credentials * Conn)) (evs : list Event) :
  forall (outs : list (option Error * Arg2)) (st st' : State),
    in_progress st0 cred cb planned outs st ->
    run evs st = Some st' ->
    Forall (fun o => well_formed o = true) (outcomes evs) ->
    in_progress st0 cred cb planned (outs ++ outcomes evs) st' \/ quiescent st'.
Proof.
  induction evs as [|ev evs IH]; intros outs st st' Hin Hrun Hwf.
  - cbn in Hrun. injection Hrun as <-. left. cbn. by rewrite app_nil_r.
  - cbn [run] in Hrun. destruct (step ev st) as [st1|] eqn:Hstep; [|discriminate].
    rewrite outcomes_cons in Hwf |- *. apply Forall_app in Hwf as [Hwf1 Hwf2].
    destruct (step_in_progress _ _ _ _ _ _ _ _ Hin Hstep Hwf1) as [Hin1 | Hq1].
    + rewrite app_assoc. by apply (IH _ st1).
    + destruct (run_quiescent evs st1 st' Hq1 Hrun) as [_ ->]. by right.
Qed.

(** X7. While an attempt of an [_auth] call is still queued or in flight,
    the caller has not been called back and the store has not changed,
    whatever the outcomes received so far: there is no early return on a
    first success. *)
Theorem auth_reports_only_at_the_end (st0 : State) (a : nat) (cred : Credentials)
    (conns : list Conn) (evs : list Event) (st' : State) :
  quiescent st0 -> arrays st0 !! a = Some conns -> conns <> [] ->
  run evs (_auth Caller a cred st0) = Some st' ->
  Forall (fun o => well_formed o = true) (outcomes evs) ->
  ~ quiescent st' ->
  reported st' = reported st0 /\ authStore st' = authStore st0.
Proof.
  intros Hq0 Ha Hne Hrun Hwf Hbusy.
  pose proof (auth_starts Caller a cred st0 conns Hq0 Ha Hne) as Hin.
  destruct (run_preserves _ _ _ _ evs [] _ st' Hin Hrun Hwf) as [Hin' | Hq];
    [|contradiction].
  destruct Hin' as (f & _ & _ & _ & _ & _ & _ & _ & _ & _ & Hstore & Hrep & _).
  by split.
Qed.

(** X8. When [_auth] ends with no valid outcome, the error handed to the
    caller is the one of the outcome that arrived last (its [err], or
    else the result document of its reply): the generic "failed to
    authenticate" message is never the one reported. *)
Theorem auth_failure_reports_last_outcome (st0 : State) (a : nat)
    (cred : Credentials) (conns : list Conn) (evs : list Event) (st' : State) :
  quiescent st0 -> arrays st0 !! a = Some conns -> conns <> [] ->
  run evs (_auth Caller a cred st0) = Some st' -> quiescent st' ->
  Forall (fun o => well_formed o = true) (outcomes evs) ->
  existsb is_valid (outcomes evs) = false ->
  exists o e,
    last (outcomes evs) = Some o
    /\ outcome_error o = Some e
    /\ reported st' = reported st0 ++ [(Some e, VBool false)].
Proof.
  intros Hq0 Ha Hne Hrun Hq Hwf Hex.
  pose proof (auth_starts Caller a cred st0 conns Hq0 Ha Hne) as Hin.
  destruct (run_in_progress st0 cred Caller _ evs _ [] st' Hin Hrun Hq Hwf)
    as (st_pre & Hst' & _ & Hrep & _ & _ & _ & Hlen).
  cbn [app] in Hst'.
  assert (Hne' : outcomes evs <> []).
  { intros Hnil. rewrite Hnil in Hlen.
    rewrite (_auth_nonempty Caller a cred st0 conns Ha Hne) in Hlen.
    cbn in Hlen. destruct Hq0 as [Hq1 Hq2]. rewrite Hq1, Hq2 in Hlen.
    cbn in Hlen. rewrite length_fmap in Hlen. destruct conns; [done|].
    cbn in Hlen. lia. }
  destruct (exists_last Hne') as (outs' & o & Hsplit).
  assert (Hwfo : well_formed o = true).
  { rewrite Hsplit in Hwf. apply Forall_app in Hwf as [_ Hwf].
    by apply Forall_cons in Hwf as [Hwf _]. }
  assert (Hvo : is_valid o = false).
  { rewrite Hsplit, existsb_app in Hex. apply orb_false_iff in Hex as [_ Hex].
    cbn in Hex. by rewrite orb_false_r in Hex. }
  destruct (classify_well_formed o Hwfo) as [(_ & Hv & _) | (e & _ & _ & He)];
    [congruence|].
  exists o, e. split; [|split; [exact He|]].
  - rewrite Hsplit. apply last_snoc.
  - unfold verdict in Hst'. rewrite Hex in Hst'. cbn in Hst'. subst st'. cbn.
    rewrite Hrep. do 3 f_equal.
    rewrite Hsplit, last_omap_snoc, He. reflexivity.
Qed.

(** How one outcome is read. *)
Lemma classify_cases (o : option Error * Arg2) :
  (classify o.1 o.2 = Valid /\ is_valid o = true /\ outcome_error o = None
   /\ thrown_error o = None /\ well_formed o = true)
  \/ (exists e, classify o.1 o.2 = Invalid e /\ is_valid o = false
                /\ outcome_error o = Some e /\ thrown_error o = None
                /\ well_formed o = true)
  \/ (exists e, classify o.1 o.2 = Thrown e /\ is_valid o = false
                /\ outcome_error o = None /\ thrown_error o = Some e
                /\ well_formed o = false).
Proof.
  unfold is_valid, outcome_error, thrown_error, well_formed.
  destruct (classify o.1 o.2) as [e| |e]; eauto 10.
Qed.

(** Only an outcome with neither an error nor a second argument makes
    the callback throw, and what it throws is a [TypeError]. *)
Lemma thrown_error_iff (o : option Error * Arg2) (e : Error) :
  thrown_error o = Some e ->
  o = (None, RNone) /\ exists msg, e = TypeError msg.
Proof.
  destruct o as [[e0|] r]; unfold thrown_error, classify; cbn; [discriminate|].
  destruct r as [| |[[res|]]]; cbn; try discriminate.
  - intros [= <-]. split; [reflexivity | by eexists].
  - destruct (truthy (dollar_err res)); [discriminate|].
    destruct (truthy (errmsg res)); discriminate.
Qed.

(** The call as [_auth] leaves it has not called back. *)
Lemma auth_unreported (cb : Callback) (a : nat) (cred : Credentials)
    (st0 : State) (conns : list Conn) :
  quiescent st0 -> arrays st0 !! a = Some conns -> conns <> [] ->
  unreported st0 cred cb (attempts st0 ++ ((fun c => (cred, c)) <$> conns)) []
    (_auth cb a cred st0).
Proof.
  intros Hq0 Ha Hne.
  destruct (auth_starts cb a cred st0 conns Hq0 Ha Hne)
    as (f & H1 & H2 & H3 & H4 & H5 & H6 & H7 & H8 & H9 & H10 & H11 & H12
        & H13 & H14).
  exists f. repeat (split; [assumption|]).
  split; [lia|]. repeat (split; [assumption|]).
  split; [|assumption]. cbn. by rewrite app_nil_r.
Qed.

(** One move of the environment before the call has called back,
    whatever the outcome is. *)
Lemma step_unreported (st0 : State) (cred : Credentials) (cb : Callback)
    (planned : list (Credentials * Conn)) (outs : list (option Error * Arg2))
    (st st1 : State) (ev : Event) :
  unreported st0 cred cb planned outs st ->
  step ev st = Some st1 ->
  (List.length (outcomes [ev]) + List.length (nextTick st1)
   + List.length (inflight st1)
   = List.length (nextTick st) + List.length (inflight st))%nat
  /\ (unreported st0 cred cb planned (outs ++ outcomes [ev]) st1
      \/ concluded st0 cred cb planned (outs ++ outcomes [ev]) st1).
Proof.
  intros Hin Hstep.
  destruct Hin as (f & Hframes & Hcred & Hcb & Hticks & Hfly & Hcount & Hzero
                   & Hvalid & Herr & Hstore & Hrep & Hre & Hunc & Hatt).
  assert (Hf : frames st !! List.length (frames st0) = Some f).
  { rewrite Hframes. apply list_lookup_middle. reflexivity. }
  destruct ev as [|k err r]; cbn in Hstep.
  - (* the event loop starts the next attempt *)
    destruct (nextTick st) as [|[id c] queue] eqn:Hnt; [discriminate|].
    apply Forall_cons in Hticks as [Hid Hticks]. cbn in Hid. subst id.
    rewrite Hf in Hstep. injection Hstep as <-.
    cbn [outcomes]. rewrite app_nil_r. cbn. rewrite length_app. cbn.
    split; [lia|]. left.
    exists f. cbn.
    split; [exact Hframes|]. split; [exact Hcred|]. split; [exact Hcb|].
    split; [exact Hticks|].
    split. { apply Forall_app. split; [exact Hfly|]. by repeat constructor. }
    split. { rewrite Hcount, length_app. cbn. lia. }
    split. { intros Hz. rewrite Hcount in Hz. cbn in Hz. lia. }
    repeat (split; [assumption|]).
    rewrite <- Hatt, Hcred, <- app_assoc. reflexivity.
  - (* an attempt calls back *)
    destruct (inflight st !! k) as [[id c]|] eqn:Hk; [|discriminate].
    pose proof (proj1 (Forall_lookup _ _) Hfly k _ Hk) as Hid.
    cbn in Hid. subst id. injection Hstep as <-.
    assert (Hlen : List.length (delete k (inflight st))
                   = (List.length (inflight st) - 1)%nat).
    { apply length_delete. by eexists. }
    assert (Hlt : (0 < List.length (inflight st))%nat).
    { apply lookup_lt_Some in Hk. lia. }
    destruct (on_result_queues (List.length (frames st0)) err r
                (set_inflight (delete k (inflight st)) st)) as [Hq1 Hq2].
    cbn in Hq1, Hq2.
    split. { rewrite Hq1, Hq2, Hlen. cbn. lia. }
    cbn [outcomes].
    assert (Hins : forall f', <[List.length (frames st0) := f']> (frames st)
                              = frames st0 ++ [f']).
    { intros f'. rewrite Hframes.
      rewrite insert_app_r_alt by lia. by rewrite Nat.sub_diag. }
    assert (Hlast : last (outs ++ [(err, r)]) = Some (err, r))
      by apply last_snoc.
    unfold on_result. cbn [frames set_inflight]. rewrite Hf. cbn zeta.
    rewrite Hins.
    destruct (classify_cases (err, r))
      as [(Hc & Hv & He & Ht & Hw) | [(e & Hc & Hv & He & Ht & Hw)
                                     | (e & Hc & Hv & He & Ht & Hw)]];
      cbn [fst snd] in Hc; rewrite Hc.
    + (* a valid outcome *)
      cbn. destruct (count f - 1 =? 0) eqn:Hz; cbn.
      * right. apply Z.eqb_eq in Hz.
        assert (Hnt : nextTick st = [] /\ delete k (inflight st) = []).
        { split; apply length_zero_iff_nil; lia. }
        destruct Hnt as [Hnt Hdel].
        rewrite Hcb, Hcred, Hvalid.
        replace (0 <? Z.of_nat (List.length (List.filter is_valid outs)) + 1)
          with true by (symmetry; apply Z.ltb_lt; lia).
        assert (Hex : existsb is_valid (outs ++ [(err, r)]) = true).
        { rewrite existsb_app. cbn. rewrite Hv. by rewrite orb_true_r. }
        split.
        { match goal with
          | |- quiescent (invoke ?c ?x ?v ?s) =>
              destruct (invoke_frame c x v s) as (_ & _ & _ & H1 & H2 & _)
          end.
          split; [rewrite H1 | rewrite H2];
            (etrans; [apply addCredentials_frame|]); cbn; assumption. }
        split; [by eauto|].
        unfold verdict. rewrite Hex. cbn [fst snd].
        eexists _, (record_outcome f Valid). split; [reflexivity|].
        split. { etrans; [apply addCredentials_frame|]. reflexivity. }
        split; [cbn; lia|].
        split. { apply addCredentials_authStore. exact Hstore. }
        split. { etrans; [apply addCredentials_frame|]. exact Hrep. }
        split. { etrans; [apply addCredentials_frame|]. cbn.
                 rewrite omap_app. cbn. rewrite Ht, app_nil_r. exact Hunc. }
        etrans; [apply addCredentials_frame|]. cbn.
        rewrite <- Hatt, Hnt. cbn. by rewrite app_nil_r.
      * left. apply Z.eqb_neq in Hz.
        exists (record_outcome f Valid). cbn.
        split; [reflexivity|]. split; [exact Hcred|]. split; [exact Hcb|].
        split; [exact Hticks|].
        split. { by apply Forall_delete. }
        split. { rewrite Hlen. lia. }
        split; [intros; contradiction|].
        split. { rewrite filter_snoc, length_app, Hv. cbn. rewrite Hvalid. lia. }
        split. { rewrite last_omap_snoc, He. exact Herr. }
        repeat (split; [assumption|]).
        split; [|exact Hatt].
        rewrite omap_app. cbn. rewrite Ht, app_nil_r. exact Hunc.
    + (* an invalid outcome *)
      cbn. destruct (count f - 1 =? 0) eqn:Hz; cbn.
      * right. apply Z.eqb_eq in Hz.
        assert (Hnt : nextTick st = [] /\ delete k (inflight st) = []).
        { split; apply length_zero_iff_nil; lia. }
        destruct Hnt as [Hnt Hdel].
        rewrite Hcb, Hcred, Hvalid, existsb_filter_length.
        assert (Hex : existsb is_valid (outs ++ [(err, r)])
                      = existsb is_valid outs).
        { rewrite existsb_app. cbn. rewrite Hv. by rewrite !orb_false_r. }
        assert (Hu : uncaught st0 ++ omap thrown_error (outs ++ [(err, r)])
                     = uncaught st).
        { rewrite omap_app. cbn. rewrite Ht, app_nil_r. by symmetry. }
        unfold concluded, verdict. rewrite Hex, Hu, last_omap_snoc, He.
        destruct (existsb is_valid outs) eqn:Hany; cbn [fst snd].
        -- split.
           { match goal with
             | |- quiescent (invoke ?c ?x ?v ?s) =>
                 destruct (invoke_frame c x v s) as (_ & _ & _ & H1 & H2 & _)
             end.
             split; [rewrite H1 | rewrite H2];
               (etrans; [apply addCredentials_frame|]); cbn; assumption. }
           split; [by eauto|].
           eexists _, (record_outcome f (Invalid e)). split; [reflexivity|].
           split. { etrans; [apply addCredentials_frame|]. reflexivity. }
           split; [cbn; lia|].
           split. { apply addCredentials_authStore. exact Hstore. }
           split. { etrans; [apply addCredentials_frame|]. exact Hrep. }
           split. { etrans; [apply addCredentials_frame|]. reflexivity. }
           etrans; [apply addCredentials_frame|]. cbn.
           rewrite <- Hatt, Hnt. cbn. by rewrite app_nil_r.
        -- split.
           { match goal with
             | |- quiescent (invoke ?c ?x ?v ?s) =>
                 destruct (invoke_frame c x v s) as (_ & _ & _ & H1 & H2 & _)
             end.
             split; [rewrite H1 | rewrite H2]; cbn; assumption. }
           split; [by eauto|].
           eexists _, (record_outcome f (Invalid e)). split; [reflexivity|].
           cbn. split; [reflexivity|]. split; [lia|].
           repeat (split; [assumption || reflexivity|]).
           rewrite <- Hatt, Hnt. cbn. by rewrite app_nil_r.
      * left. apply Z.eqb_neq in Hz.
        exists (record_outcome f (Invalid e)). cbn.
        split; [reflexivity|]. split; [exact Hcred|]. split; [exact Hcb|].
        split; [exact Hticks|].
        split. { by apply Forall_delete. }
        split. { rewrite Hlen. lia. }
        split; [intros; contradiction|].
        split. { rewrite filter_snoc, length_app, Hv. cbn. rewrite Hvalid. lia. }
        split. { rewrite last_omap_snoc, He. reflexivity. }
        repeat (split; [assumption|]).
        split; [|exact Hatt].
        rewrite omap_app. cbn. rewrite Ht, app_nil_r. exact Hunc.
    + (* the callback throws *)
      left. exists (record_outcome f (Thrown e)). cbn.
      split; [reflexivity|]. split; [exact Hcred|]. split; [exact Hcb|].
      split; [exact Hticks|].
      split. { by apply Forall_delete. }
      split. { rewrite Hlen. lia. }
      split; [intros _; by eauto|].
      split. { rewrite filter_snoc, length_app, Hv. cbn. rewrite Hvalid. lia. }
      split. { rewrite last_omap_snoc, He. exact Herr. }
      repeat (split; [assumption|]).
      split; [|exact Hatt].
      rewrite omap_app. cbn. rewrite Ht, Hunc. by rewrite app_assoc.
Qed.

(** Any run of the environment from there. *)
Lemma run_unreported (st0 : State) (cred : Credentials) (cb : Callback)
    (planned : list (Credentials * Conn)) (evs : list Event) :
  forall (outs : list (option Error * Arg2)) (st st' : State),
    unreported st0 cred cb planned outs st ->
    run evs st = Some st' ->
    (List.length (outcomes evs) + List.length (nextTick st')
     + List.length (inflight st')
     = List.length (nextTick st) + List.length (inflight st))%nat
    /\ (unreported st0 cred cb planned (outs ++ outcomes evs) st'
        \/ concluded st0 cred cb planned (outs ++ outcomes evs) st').
Proof.
  induction evs as [|ev evs IH]; intros outs st st' Hin Hrun.
  - cbn in Hrun. injection Hrun as <-. cbn. rewrite app_nil_r.
    split; [reflexivity | by left].
  - cbn [run] in Hrun. destruct (step ev st) as [st1|] eqn:Hstep; [|discriminate].
    rewrite outcomes_cons.
    destruct (step_unreported _ _ _ _ _ _ _ _ Hin Hstep) as [Hlen1 [Hin1 | Hend]].
    + destruct (IH _ _ _ Hin1 Hrun) as [Hlen2 Hcases].
      rewrite app_assoc, length_app. split; [lia | exact Hcases].
    + destruct Hend as (Hq1 & Hrest).
      destruct (run_quiescent evs st1 st' Hq1 Hrun) as [-> ->].
      cbn [outcomes]. rewrite !app_nil_r. split; [exact Hlen1|].
      right. by split.
Qed.

(** X9. Outcomes that break the callback contract.  An attempt that calls
    back with neither an error nor a reply makes the callback of
    [execute] throw a [TypeError], after it has decremented [count]:
    along every run, [count] is the number of connections less the
    number of outcomes, throwing ones included, and every exception is
    recorded.  Such an outcome counts neither as valid nor as an error.
    The caller is called back when the last outcome arrives, with the
    verdict on all outcomes, unless that last outcome is a throwing
    one: then the caller is never called back and the store is
    unchanged. *)
Theorem auth_throws_on_empty_outcome (st0 : State) (a : nat) (cred : Credentials)
    (conns : list Conn) (evs : list Event) (st' : State) :
  quiescent st0 -> arrays st0 !! a = Some conns -> conns <> [] ->
  run evs (_auth Caller a cred st0) = Some st' ->
  let outs := outcomes evs in
  (exists f, frames st' !! List.length (frames st0) = Some f
             /\ count f = Z.of_nat (List.length conns)
                          - Z.of_nat (List.length outs))
  /\ uncaught st' = uncaught st0 ++ omap thrown_error outs
  /\ (forall o e, thrown_error o = Some e ->
        o = (None, RNone) /\ (exists msg, e = TypeError msg)
        /\ is_valid o = false /\ outcome_error o = None)
  /\ (~ quiescent st' ->
      reported st' = reported st0 /\ authStore st' = authStore st0)
  /\ (quiescent st' ->
      exists o,
        last outs = Some o
        /\ List.length outs = List.length conns
        /\ (well_formed o = false ->
            reported st' = reported st0 /\ authStore st' = authStore st0)
        /\ (well_formed o = true ->
            reported st' = reported st0 ++ [verdict cred outs]
            /\ authStore st'
               = if existsb is_valid outs
                 then authStore (addCredentials cred st0) else authStore st0)).
Proof.
  intros Hq0 Ha Hne Hrun outs.
  pose proof (auth_unreported Caller a cred st0 conns Hq0 Ha Hne) as Hin.
  destruct (run_unreported _ _ _ _ evs [] _ st' Hin Hrun) as [Hlen Hcases].
  cbn [app] in Hcases. fold outs in Hlen, Hcases.
  rewrite (_auth_nonempty Caller a cred st0 conns Ha Hne) in Hlen.
  cbn in Hlen. destruct Hq0 as [Hq1 Hq2]. rewrite Hq1, Hq2 in Hlen.
  cbn in Hlen. rewrite length_fmap in Hlen.
  assert (Hthrown : forall o e, thrown_error o = Some e ->
            o = (None, RNone) /\ (exists msg, e = TypeError msg)
            /\ is_valid o = false /\ outcome_error o = None).
  { intros o e Ho. destruct (thrown_error_iff o e Ho) as [-> Hmsg].
    split; [reflexivity|]. split; [exact Hmsg|]. split; reflexivity. }
  destruct Hcases as [Hun | Hend].
  - destruct Hun as (f & Hframes & _ & _ & _ & _ & Hcount & Hzero & _ & _
                     & Hstore & Hrep & _ & Hunc & _).
    split.
    { exists f. split; [rewrite Hframes; by apply list_lookup_middle|].
      rewrite Hcount. lia. }
    split; [exact Hunc|]. split; [exact Hthrown|].
    split; [by intros _|].
    intros [Hn1 Hn2]. rewrite Hn1, Hn2 in Hcount, Hlen. cbn in Hcount, Hlen.
    destruct (Hzero Hcount) as (o & Hlast & Hbad).
    exists o. split; [exact Hlast|]. split; [lia|].
    split; [by intros _|]. intros Hgood. congruence.
  - destruct Hend as (Hq & (o & Hlast & Hgood) & st_pre & f & Hst' & Hframes
                      & Hcount & Hstore & Hrep & Hunc & Hatt).
    destruct Hq as [Hn1 Hn2]. rewrite Hn1, Hn2 in Hlen. cbn in Hlen.
    assert (Hshape : frames st' = frames st_pre /\ uncaught st' = uncaught st_pre
                     /\ authStore st' = authStore st_pre
                     /\ reported st' = reported st_pre ++ [verdict cred outs]).
    { rewrite Hst'. cbn. by destruct (verdict cred outs). }
    destruct Hshape as (Hfr & Hu & Hs & Hr).
    split.
    { exists f. split; [rewrite Hfr, Hframes; by apply list_lookup_middle|].
      rewrite Hcount. lia. }
    split; [by rewrite Hu|]. split; [exact Hthrown|].
    split; [intros Hbusy; by destruct Hbusy|].
    intros _. exists o. split; [exact Hlast|]. split; [lia|].
    split; [intros Hbad; congruence|].
    intros _. by rewrite Hr, Hs, Hrep, Hstore.
Qed.

(** X1. [_auth] on an empty array of connections calls the caller back at
    once with [(null, null)] and schedules nothing: from a state without
    pending work no event can follow, so no attempt is ever made and the
    store is left as it was. *)
Theorem auth_without_connections (st : State) (a : nat) (cred : Credentials)
    (evs : list Event) (st' : State) :
  quiescent st -> arrays st !! a = Some [] ->
  run evs (_auth Caller a cred st) = Some st' ->
  evs = []
  /\ reported st' = reported st ++ [(None, VNull)]
  /\ attempts st' = attempts st
  /\ authStore st' = authStore st
  /\ arrays st' = arrays st.
Proof.
  intros Hq Ha Hrun. rewrite (_auth_empty Caller a cred st Ha) in Hrun.
  destruct (run_quiescent evs (invoke Caller None VNull st) st') as [-> ->];
    [exact Hq | exact Hrun |].
  done.
Qed.

Lemma reauth_all_immediate (a rid : nat) (store : list Credentials) (s : State) :
  store <> [] -> arrays s !! a = Some [] ->
  reauths s !! rid = Some (Z.of_nat (List.length store)) ->
  foldl (fun s cred => _auth (Reauth rid) a cred s) s store
  = report None VNull (set_reauths (<[rid := 0]> (reauths s)) s).
Proof.
  intros Hne Ha Hc. destruct (exists_last Hne) as (rest & c & ->).
  rewrite foldl_app. cbn [foldl].
  rewrite length_app in Hc. cbn in Hc.
  rewrite (reauth_rest a rid rest s 1); [|exact Ha| |lia].
  - rewrite _auth_empty by exact Ha. unfold invoke. cbn.
    rewrite list_lookup_insert_eq by (by eapply lookup_lt_Some).
    change (1 - 1 =? 0) with true. cbn.
    by rewrite list_insert_insert_eq.
  - rewrite Hc. f_equal. lia.
Qed.

(** X2. The two immediate cases of [reauthenticate].  With an empty
    store the caller is called back at once with [(null, null)] and
    nothing else happens.  With a non-empty store and an empty array of
    connections every [_auth] call comes back at once, so the caller is
    called back exactly once, with [(null, null)], when the loop reaches
    the last credential; no attempt is queued and the store is as it
    was. *)
Theorem reauthenticate_immediate (a : nat) (st : State) :
  (authStore st = [] -> reauthenticate a st = report None VNull st)
  /\ (authStore st <> [] -> arrays st !! a = Some [] ->
      let s := reauthenticate a st in
      reported s = reported st ++ [(None, VNull)]
      /\ nextTick s = nextTick st
      /\ inflight s = inflight st
      /\ attempts s = attempts st
      /\ frames s = frames st
      /\ authStore s = authStore st).
Proof.
  split.
  - intros Hstore. unfold reauthenticate. by rewrite Hstore.
  - intros Hne Ha s. subst s. unfold reauthenticate.
    destruct (Z.of_nat (List.length (authStore st)) =? 0) eqn:Hz.
    { apply Z.eqb_eq in Hz. destruct (authStore st); [done | cbn in Hz; lia]. }
    rewrite (reauth_all_immediate a _ (authStore st)); cbn; try done.
    rewrite lookup_app_r by lia. by rewrite Nat.sub_diag.
Qed.

(** X3. [reauthenticate] with a non-empty store [c1 :: rest] and a
    non-empty array of connections, run until every attempt has called
    back: the attempts made are those of the first credential [c1], one
    per connection in the order of the array, and none for the other
    credentials; the caller is called back exactly once, with the error
    of the verdict on [c1] and [null]. *)
Theorem reauthenticate_attempts_first_credential (st0 : State) (a : nat)
    (c1 : Credentials) (rest : list Credentials) (conns : list Conn)
    (evs : list Event) (st' : State) :
  quiescent st0 -> authStore st0 = c1 :: rest ->
  arrays st0 !! a = Some conns -> conns <> [] ->
  run evs (reauthenticate a st0) = Some st' -> quiescent st' ->
  Forall (fun o => well_formed o = true) (outcomes evs) ->
  attempts st' = attempts st0 ++ ((fun c => (c1, c)) <$> conns)
  /\ reported st' = reported st0 ++ [((verdict c1 (outcomes evs)).1, VNull)].
Proof. apply reauthenticate_replays_first_only. Qed.

(** X4. [addCredentials] only ever appends: the old store is a prefix of
    the new one; and when [equals] holds between the credentials and
    themselves, they are afterwards found in the store and adding them
    again changes nothing. *)
Theorem addCredentials_idempotent (cred : Credentials) (st : State) :
  equals cred cred = true ->
  authStore st `prefix_of` authStore (addCredentials cred st)
  /\ existsb (fun c => equals c cred) (authStore (addCredentials cred st)) = true
  /\ addCredentials cred (addCredentials cred st) = addCredentials cred st.
Proof.
  intros Hrefl. unfold addCredentials.
  destruct (existsb (fun c => equals c cred) (authStore st)) eqn:Hfound; cbn.
  - rewrite Hfound. cbn. done.
  - rewrite existsb_app. cbn. rewrite Hrefl, orb_true_r. cbn.
    split; [by apply prefix_app_r|]. done.
Qed.

Lemma no_duplicates_snoc (store : list Credentials) (cred : Credentials) :
  no_duplicates (store ++ [cred])
  = no_duplicates store && negb (existsb (fun c => equals c cred) store).
Proof.
  induction store as [|c store IH]; [reflexivity|].
  cbn. rewrite IH, forallb_app. cbn.
  destruct (forallb _ store), (equals c cred), (no_duplicates store); cbn;
    try reflexivity.
Qed.

Lemma no_duplicates_filter (p : Credentials -> bool) (store : list Credentials) :
  no_duplicates store = true -> no_duplicates (List.filter p store) = true.
Proof.
  induction store as [|c store IH]; [done|].
  cbn. intros [Hc Hrest]%andb_prop. specialize (IH Hrest).
  destruct (p c); [|exact IH]. cbn. rewrite IH, andb_true_r.
  rewrite forallb_forall in Hc |- *. intros x Hx. apply Hc.
  by apply List.filter_In in Hx as [Hx _].
Qed.

Lemma addCredentials_no_duplicates (cred : Credentials) (st : State) :
  no_duplicates (authStore st) = true ->
  no_duplicates (authStore (addCredentials cred st)) = true.
Proof.
  intros Hnd. unfold addCredentials.
  destruct (existsb (fun c => equals c cred) (authStore st)) eqn:Hfound; cbn.
  - exact Hnd.
  - by rewrite no_duplicates_snoc, Hnd, Hfound.
Qed.

Lemma on_result_store (id : nat) (err : option Error) (r : Arg2) (st : State) :
  authStore (on_result id err r st) = authStore st
  \/ exists cred, authStore (on_result id err r st)
                  = authStore (addCredentials cred st).
Proof.
  unfold on_result. destruct (frames st !! id) as [f|]; [|by left].
  destruct (classify err r) as [e| |e]; cbn; [| |by left].
  - destruct (negb _); [by left|].
    destruct (_ <? _);
      match goal with
      | |- context [invoke ?c ?x ?v ?s] =>
          destruct (invoke_frame c x v s) as (-> & _)
      end; [|by left].
    right. eexists. by apply addCredentials_authStore.
  - destruct (negb _); [by left|].
    destruct (_ <? _);
      match goal with
      | |- context [invoke ?c ?x ?v ?s] =>
          destruct (invoke_frame c x v s) as (-> & _)
      end; [|by left].
    right. eexists. by apply addCredentials_authStore.
Qed.

(** X5. The store never comes to hold an entry that [equals] a later
    one.  If it holds none, then it holds none after [addCredentials],
    after [logout], and after any run of the event loop; and [_auth] and
    [reauthenticate] themselves leave the store untouched when they
    return. *)
Theorem store_has_no_duplicates (st : State) :
  no_duplicates (authStore st) = true ->
  (forall cred, no_duplicates (authStore (addCredentials cred st)) = true)
  /\ (forall src, no_duplicates (authStore (logout src st)) = true)
  /\ (forall evs st', run evs st = Some st' ->
        no_duplicates (authStore st') = true)
  /\ (forall cb a cred, authStore (_auth cb a cred st) = authStore st)
  /\ (forall a, authStore (reauthenticate a st) = authStore st).
Proof.
  intros Hnd.
  assert (Hauth : forall cb a cred s, authStore (_auth cb a cred s) = authStore s).
  { intros cb a cred s. unfold _auth.
    destruct (_ =? 0); [apply invoke_frame|].
    by destruct (dispatch _ _ _). }
  split; [intros cred; by apply addCredentials_no_duplicates|].
  split; [intros src; by apply no_duplicates_filter|].
  split; [|split; [intros; apply Hauth|]].
  - intros evs. revert st Hnd.
    induction evs as [|ev evs IH]; intros st Hnd st' Hrun.
    + by injection Hrun as <-.
    + cbn [run] in Hrun. destruct (step ev st) as [st1|] eqn:Hstep; [|discriminate].
      apply (IH st1); [|exact Hrun].
      destruct ev as [|k err r]; cbn in Hstep.
      * destruct (nextTick st) as [|[id c] queue]; [discriminate|].
        destruct (frames st !! id); [|discriminate]. by injection Hstep as <-.
      * destruct (inflight st !! k) as [[id c]|]; [|discriminate].
        injection Hstep as <-.
        destruct (on_result_store id err r (set_inflight (delete k (inflight st)) st))
          as [-> | [cred ->]]; [exact Hnd|].
        by apply addCredentials_no_duplicates.
  - intros a. unfold reauthenticate.
    destruct (_ =? 0); [done|].
    assert (Hfold : forall cb store s,
               authStore (foldl (fun s cred => _auth cb a cred s) s store)
               = authStore s).
    { intros cb store. induction store as [|c store IH]; intros s; [done|].
      cbn [foldl]. rewrite IH. apply Hauth. }
    by rewrite Hfold.
Qed.

End WithEquals.

(** X6. [logout(source)] removes all and only the stored credentials
    with that source, keeps the others in their order, changes nothing
    else (it queues no attempt and calls nobody back), is idempotent,
    and two logouts commute. *)
Theorem logout_removes_exactly (src : string) (st : State) :
  (forall c, c ∈ authStore (logout src st)
             <-> c ∈ authStore st /\ source c <> src)
  /\ authStore (logout src st) `sublist_of` authStore st
  /\ logout src (logout src st) = logout src st
  /\ (forall src', logout src (logout src' st) = logout src' (logout src st))
  /\ nextTick (logout src st) = nextTick st
  /\ attempts (logout src st) = attempts st
  /\ reported (logout src st) = reported st.
Proof.
  assert (Hcomm : forall (p q : Credentials -> bool) (l : list Credentials),
             List.filter p (List.filter q l) = List.filter q (List.filter p l)).
  { intros p q l. induction l as [|c l IH]; [done|].
    cbn. destruct (q c) eqn:Hq, (p c) eqn:Hp; cbn; rewrite ?Hq, ?Hp, IH; done. }
  assert (Hidem : forall (p : Credentials -> bool) (l : list Credentials),
             List.filter p (List.filter p l) = List.filter p l).
  { intros p l. induction l as [|c l IH]; [done|].
    cbn. destruct (p c) eqn:Hp; cbn; rewrite ?Hp, IH; done. }
  split; [|split; [|split; [|split]]]; cbn.
  - intros c. rewrite !list_elem_of_In, List.filter_In.
    rewrite negb_true_iff, String.eqb_neq. done.
  - induction (authStore st) as [|c l IH]; [done|].
    cbn. destruct (negb _); by constructor.
  - unfold logout. cbn. by rewrite Hidem.
  - intros src'. unfold logout. cbn. by rewrite Hcomm.
  - done.
Qed.

Lemma auth_reports_only_at_the_end_witness :
  exists st',
    run (E := same_identity) [Tick; Tick; Answer 0 None ok_reply]
      (_auth Caller 0 alice (fresh [] [7; 8]%nat)) = Some st'
    /\ inflight st' = [(0, 8)]%nat
    /\ reported st' = []
    /\ authStore st' = [].
Proof.
  destruct (run (E := same_identity) [Tick; Tick; Answer 0 None ok_reply]
              (_auth Caller 0 alice (fresh [] [7; 8]%nat)))
    as [st'|] eqn:Hrun; [|vm_compute in Hrun; discriminate Hrun].
  assert (Hfly : inflight st' = [(0, 8)]%nat).
  { vm_compute in Hrun. by injection Hrun as <-. }
  exists st'. split; [reflexivity|]. split; [exact Hfly|].
  apply (auth_reports_only_at_the_end (E := same_identity) (fresh [] [7; 8]%nat)
           0 alice [7; 8]%nat [Tick; Tick; Answer 0 None ok_reply] st').
  - split; reflexivity.
  - reflexivity.
  - discriminate.
  - exact Hrun.
  - repeat constructor.
  - intros [_ Hq]. rewrite Hfly in Hq. discriminate Hq.
Defined.

Lemma auth_failure_reports_last_outcome_witness :
  exists st',
    run (E := same_identity)
      [Tick; Tick; Answer 1 (Some (TransportError 1)) RNone;
       Answer 0 (Some (TransportError 2)) RNone]
      (_auth Caller 0 alice (fresh [] [7; 8]%nat)) = Some st'
    /\ exists o e,
        last [(Some (TransportError 1), RNone); (Some (TransportError 2), RNone)]
          = Some o
        /\ outcome_error o = Some e
        /\ reported st' = [(Some e, VBool false)].
Proof.
  destruct (run (E := same_identity)
              [Tick; Tick; Answer 1 (Some (TransportError 1)) RNone;
               Answer 0 (Some (TransportError 2)) RNone]
              (_auth Caller 0 alice (fresh [] [7; 8]%nat)))
    as [st'|] eqn:Hrun; [|vm_compute in Hrun; discriminate Hrun].
  assert (Hq : quiescent st').
  { vm_compute in Hrun. injection Hrun as <-. split; reflexivity. }
  exists st'. split; [reflexivity|].
  apply (auth_failure_reports_last_outcome (E := same_identity)
           (fresh [] [7; 8]%nat) 0 alice [7; 8]%nat
           [Tick; Tick; Answer 1 (Some (TransportError 1)) RNone;
            Answer 0 (Some (TransportError 2)) RNone] st').
  - split; reflexivity.
  - reflexivity.
  - discriminate.
  - exact Hrun.
  - exact Hq.
  - repeat constructor.
  - reflexivity.
Defined.

Lemma auth_throws_on_empty_outcome_witness :
  let evs := [Tick; Tick; Answer 0 None RNone; Answer 0 None ok_reply] in
  exists st',
    run (E := same_identity) evs (_auth Caller 0 alice (fresh [] [7; 8]%nat))
    = Some st'
    /\ reported st' = [(None, VBool true)]
    /\ List.length (uncaught st') = 1%nat.
Proof.
  intros evs.
  destruct (run (E := same_identity) evs (_auth Caller 0 alice (fresh [] [7; 8]%nat)))
    as [st'|] eqn:Hrun; [|vm_compute in Hrun; discriminate Hrun].
  assert (Hq : quiescent st').
  { vm_compute in Hrun. injection Hrun as <-. split; reflexivity. }
  exists st'. split; [reflexivity|].
  destruct (auth_throws_on_empty_outcome (E := same_identity)
              (fresh [] [7; 8]%nat) 0 alice [7; 8]%nat evs st')
    as (_ & Hunc & _ & _ & Hend).
  - split; reflexivity.
  - reflexivity.
  - discriminate.
  - exact Hrun.
  - destruct (Hend Hq) as (o & Hlast & _ & _ & Hgood).
    cbn in Hlast. injection Hlast as <-.
    destruct (Hgood eq_refl) as [Hrep _].
    split; [rewrite Hrep; reflexivity | rewrite Hunc; reflexivity].
Defined.

Lemma auth_without_connections_witness :
  [] = ([] : list Event)
  /\ reported (_auth Caller 0 alice (fresh [bob] [])) = [(None, VNull)]
  /\ attempts (_auth Caller 0 alice (fresh [bob] [])) = []
  /\ authStore (_auth Caller 0 alice (fresh [bob] [])) = [bob]
  /\ arrays (_auth Caller 0 alice (fresh [bob] [])) = arrays (fresh [bob] []).
Proof.
  apply (auth_without_connections (E := same_identity) (fresh [bob] []) 0 alice []
           (_auth Caller 0 alice (fresh [bob] []))).
  - split; reflexivity.
  - reflexivity.
  - reflexivity.
Defined.

Lemma reauthenticate_immediate_witness :
  reauthenticate 0 (fresh [] [7%nat]) = report None VNull (fresh [] [7%nat])
  /\ reported (reauthenticate 0 (fresh [alice; bob] [])) = [(None, VNull)]
  /\ nextTick (reauthenticate 0 (fresh [alice; bob] [])) = [].
Proof.
  split.
  - apply (proj1 (reauthenticate_immediate 0 (fresh [] [7%nat]))). reflexivity.
  - destruct (proj2 (reauthenticate_immediate 0 (fresh [alice; bob] [])))
      as (Hrep & Hnt & _); [discriminate | reflexivity |].
    split; [exact Hrep | exact Hnt].
Defined.

Lemma reauthenticate_attempts_first_credential_witness :
  exists st',
    run (E := same_identity)
      [Tick; Tick; Answer 0 None ok_reply; Answer 0 (Some (TransportError 1)) RNone]
      (reauthenticate 0 (fresh [alice; bob] [7; 8]%nat)) = Some st'
    /\ attempts st' = [(alice, 7%nat); (alice, 8%nat)]
    /\ reported st' = [(None, VNull)].
Proof.
  destruct (run (E := same_identity)
              [Tick; Tick; Answer 0 None ok_reply;
               Answer 0 (Some (TransportError 1)) RNone]
              (reauthenticate 0 (fresh [alice; bob] [7; 8]%nat)))
    as [st'|] eqn:Hrun; [|vm_compute in Hrun; discriminate Hrun].
  assert (Hq : quiescent st').
  { vm_compute in Hrun. injection Hrun as <-. split; reflexivity. }
  exists st'. split; [reflexivity|].
  apply (reauthenticate_attempts_first_credential (E := same_identity)
           (fresh [alice; bob] [7; 8]%nat) 0 alice [bob] [7; 8]%nat
           [Tick; Tick; Answer 0 None ok_reply;
            Answer 0 (Some (TransportError 1)) RNone] st').
  - split; reflexivity.
  - reflexivity.
  - reflexivity.
  - discriminate.
  - exact Hrun.
  - exact Hq.
  - repeat constructor.
Defined.

Lemma addCredentials_idempotent_witness :
  authStore (fresh [bob] []) `prefix_of`
    authStore (addCredentials (E := same_identity) alice (fresh [bob] []))
  /\ existsb (fun c => same_identity c alice)
       (authStore (addCredentials (E := same_identity) alice (fresh [bob] [])))
     = true
  /\ addCredentials (E := same_identity) alice
       (addCredentials (E := same_identity) alice (fresh [bob] []))
     = addCredentials (E := same_identity) alice (fresh [bob] []).
Proof.
  apply (addCredentials_idempotent (E := same_identity) alice (fresh [bob] [])).
  reflexivity.
Defined.

Lemma store_has_no_duplicates_witness :
  no_duplicates (E := same_identity)
    (authStore (addCredentials (E := same_identity) alice (fresh [alice; bob] [])))
  = true
  /\ no_duplicates (E := same_identity)
       (authStore (logout "admin" (fresh [alice; bob] []))) = true.
Proof.
  destruct (store_has_no_duplicates (E := same_identity) (fresh [alice; bob] []))
    as (Hadd & Hout & _); [reflexivity|].
  split; [apply Hadd | apply Hout].
Defined.

End CoordinatorEdges.

(** ** The SCRAM helpers: more on [xor] and [parsePayload] *)

Module ScramEdges.
Import Js Types Scram HiKeyFacts.

Lemma byte_at_byte (b : Buffer) (i : nat) :
  Forall is_byte b -> is_byte (byte_at b i).
Proof.
  intros Hb. unfold byte_at. destruct (b !! i) as [x|] eqn:Hx; cbn.
  - exact (proj1 (Forall_lookup _ _) Hb _ _ Hx).
  - unfold is_byte. lia.
Qed.

(** X10. On byte buffers of any lengths, [xor] returns the base64 text of
    a buffer as long as the longer argument, whose byte at each index is
    the exclusive or of the two bytes there, a missing byte counting as
    0; and [xor] is symmetric in its arguments. *)
Theorem xor_pads_with_zeros (a b : Buffer) :
  Forall is_byte a -> Forall is_byte b ->
  let out := Base64.decode (xor (OfBuffer a) (OfBuffer b)) in
  List.length out = Nat.max (List.length a) (List.length b)
  /\ (forall i, (i < Nat.max (List.length a) (List.length b))%nat ->
        out !! i = Some (Z.lxor (byte_at a i) (byte_at b i)))
  /\ (forall x y, xor x y = xor y x).
Proof.
  intros Ha Hb out. subst out. unfold xor at 1 2. cbn [to_Buffer].
  set (n := Nat.max (List.length a) (List.length b)).
  set (res := (fun i => Z.lxor (byte_at a i) (byte_at b i)) <$> seq 0 n).
  assert (Hres : Forall is_byte res).
  { apply Forall_fmap, Forall_forall. intros i _. cbn.
    apply ScramHelpers.lxor_byte; by apply byte_at_byte. }
  rewrite ScramHelpers.Buffer_from_array_bytes by exact Hres.
  rewrite Base64Facts.decode_encode by exact Hres.
  split; [|split].
  - unfold res. by rewrite length_fmap, length_seq.
  - intros i Hi. unfold res, Buffer.
    rewrite list_lookup_fmap, lookup_seq_lt by exact Hi. reflexivity.
  - intros x y. unfold xor. rewrite Nat.max_comm. do 2 f_equal.
    apply list_fmap_ext. intros _ i _. apply Z.lxor_comm.
Qed.

Lemma xor_pads_with_zeros_witness :
  Base64.decode (xor (OfBuffer [1; 2; 3]) (OfBuffer [255])) !! 2%nat
  = Some (Z.lxor (byte_at [1; 2; 3] 2) (byte_at [255] 2)).
Proof.
  apply (xor_pads_with_zeros [1; 2; 3] [255]).
  - repeat constructor; unfold is_byte; lia.
  - repeat constructor; unfold is_byte; lia.
  - cbn. lia.
Defined.

Lemma split_without (c : ascii) (s : string) :
  contains c s = false -> split c s = [s].
Proof.
  induction s as [|x s IH]; [reflexivity|].
  rewrite contains_cons. intros [Hx Hs]%orb_false_iff.
  cbn. rewrite Hx, (IH Hs). reflexivity.
Qed.

Lemma split_cut (c : ascii) (s1 s2 : string) :
  contains c s1 = false ->
  split c (s1 +:+ String c s2) = s1 :: split c s2.
Proof.
  induction s1 as [|x s1 IH].
  - intros _. rewrite append_nil. cbn. by rewrite Ascii.eqb_refl.
  - rewrite contains_cons. intros [Hx Hs]%orb_false_iff.
    rewrite append_cons. cbn. rewrite Hx, (IH Hs). reflexivity.
Qed.

Lemma split_head (c : ascii) (s : string) :
  exists p ps, split c s = p :: ps.
Proof.
  destruct s as [|x s]; [by eexists _, _|].
  cbn. destruct (Ascii.eqb x c); [by eexists _, _|].
  destruct (split c s); by eexists _, _.
Qed.

Lemma split_join (c : ascii) (l : list string) :
  l <> [] -> Forall (fun s => contains c s = false) l ->
  split c (join (String c EmptyString) l) = l.
Proof.
  induction l as [|x l IH]; [done|]. intros _ Hl.
  apply Forall_cons in Hl as [Hx Hl].
  destruct l as [|y l].
  - cbn. by apply split_without.
  - change (join (String c EmptyString) (x :: y :: l))
      with (x +:+ String c (join (String c EmptyString) (y :: l))).
    rewrite split_cut by exact Hx. f_equal. by apply IH.
Qed.

Lemma before_equals_without (v : string) :
  contains "=" v = false -> before_equals v = v.
Proof. intros Hv. unfold before_equals. by rewrite split_without. Qed.

(** What [parsePayload] does with one part [k=v]. *)
Lemma parse_part (k v : string) :
  contains "=" k = false ->
  split "=" (k +:+ "=" +:+ v) = k :: split "=" v
  /\ head (split "=" v) = Some (before_equals v).
Proof.
  intros Hk. split.
  - change ("=" +:+ v) with (String "=" v). by apply split_cut.
  - unfold before_equals. destruct (split_head "=" v) as (p & ps & ->). done.
Qed.

Lemma parsePayload_render (kvs : list (string * string)) :
  kvs <> [] ->
  Forall (fun kv => contains "," kv.1 = false /\ contains "=" kv.1 = false
                    /\ contains "," kv.2 = false) kvs ->
  parsePayload (render kvs)
  = foldl (fun dict kv =>
             if String.eqb kv.1 "__proto__" then dict
             else <[kv.1 := Some (before_equals kv.2)]> dict) ∅ kvs.
Proof.
  intros Hne Hkvs. unfold parsePayload, render.
  rewrite split_join.
  - clear Hne. generalize (∅ : gmap string (option string)).
    induction Hkvs as [|[k v] kvs (Hk1 & Hk2 & Hv) _ IH]; intros d; [done|].
    cbn [fmap list_fmap foldl fst snd].
    destruct (parse_part k v Hk2) as [-> ->]. apply IH.
  - by destruct kvs.
  - apply Forall_fmap. eapply Forall_impl; [exact Hkvs|].
    intros [k v] (Hk1 & _ & Hv). cbn in *.
    rewrite !contains_app, Hk1, Hv. reflexivity.
Qed.

Lemma foldl_insert_absent (kvs : list (string * string)) (k : string) :
  forall d : gmap string (option string),
    k ∉ kvs.*1 ->
    foldl (fun dict kv =>
             if String.eqb kv.1 "__proto__" then dict
             else <[kv.1 := Some (before_equals kv.2)]> dict) d kvs !! k
    = d !! k.
Proof.
  induction kvs as [|[k0 v0] kvs IH]; intros d Hk; [done|].
  cbn in *. apply not_elem_of_cons in Hk as [Hne Hk].
  rewrite IH by exact Hk.
  destruct (String.eqb k0 "__proto__"); [reflexivity|].
  by apply lookup_insert_ne.
Qed.

Lemma foldl_insert_present (kvs : list (string * string)) (k v : string) :
  forall d : gmap string (option string),
    NoDup kvs.*1 -> (k, v) ∈ kvs -> k <> "__proto__" ->
    foldl (fun dict kv =>
             if String.eqb kv.1 "__proto__" then dict
             else <[kv.1 := Some (before_equals kv.2)]> dict) d kvs !! k
    = Some (Some (before_equals v)).
Proof.
  induction kvs as [|[k0 v0] kvs IH]; intros d Hnd Hin Hk.
  - by apply elem_of_nil in Hin.
  - cbn in *. apply NoDup_cons in Hnd as [Hk0 Hnd].
    apply elem_of_cons in Hin as [[= -> ->] | Hin].
    + rewrite foldl_insert_absent by exact Hk0.
      apply String.eqb_neq in Hk. rewrite Hk. apply lookup_insert_eq.
    + by apply IH.
Qed.

(** No payload makes [__proto__] an own property. *)
Lemma parsePayload_proto (payload : string) :
  parsePayload payload !! "__proto__" = None.
Proof.
  unfold parsePayload.
  assert (Hfold : forall parts (d : gmap string (option string)),
             d !! "__proto__" = None ->
             foldl (fun dict part =>
                      match split "=" part with
                      | [] => dict
                      | key :: valueParts =>
                          if String.eqb key "__proto__" then dict
                          else <[key := head valueParts]> dict
                      end) d parts !! "__proto__" = None).
  { induction parts as [|part parts IH]; intros d Hd; [exact Hd|].
    cbn [foldl]. apply IH.
    destruct (split "=" part) as [|key valueParts]; [exact Hd|].
    destruct (String.eqb key "__proto__") eqn:Hkey; [exact Hd|].
    apply String.eqb_neq in Hkey. by rewrite lookup_insert_ne. }
  apply Hfold, lookup_empty.
Qed.

(** X11. [parsePayload] reads back a payload written as
    [k1=v1,k2=v2,...] with pairwise different keys, no [,] in keys and
    values and no [=] in keys: every key other than [__proto__] is
    mapped to its value, cut at the value's first [=] (the whole value
    when it has none); a name that is no key and that
    [Object.prototype] does not define reads [undefined]; and
    [__proto__] never becomes an own property, whatever the payload. *)
Theorem parsePayload_reads_back (kvs : list (string * string)) :
  NoDup kvs.*1 ->
  Forall (fun kv => contains "," kv.1 = false /\ contains "=" kv.1 = false
                    /\ contains "," kv.2 = false) kvs ->
  (forall k v, (k, v) ∈ kvs -> k <> "__proto__" ->
     dict_get (parsePayload (render kvs)) k = PStr (before_equals v))
  /\ (forall k v, (k, v) ∈ kvs -> k <> "__proto__" -> contains "=" v = false ->
        dict_get (parsePayload (render kvs)) k = PStr v)
  /\ (forall k, k ∉ kvs.*1 -> k ∉ Object_prototype_names ->
        dict_get (parsePayload (render kvs)) k = PUndefined)
  /\ (forall payload, parsePayload payload !! "__proto__" = None).
Proof.
  intros Hnd Hkvs.
  destruct (decide (kvs = [])) as [-> | Hne].
  { split; [|split; [|split]].
    - intros k v Hin. by apply elem_of_nil in Hin.
    - intros k v Hin. by apply elem_of_nil in Hin.
    - intros k _ _. unfold dict_get, parsePayload, render. cbn.
      destruct (decide (k = "")) as [-> | Hk].
      + by rewrite lookup_insert_eq.
      + by rewrite lookup_insert_ne, lookup_empty.
    - apply parsePayload_proto. }
  rewrite (parsePayload_render kvs Hne Hkvs).
  assert (Hfirst : forall k v, (k, v) ∈ kvs -> k <> "__proto__" ->
            dict_get
              (foldl (fun dict kv =>
                        if String.eqb kv.1 "__proto__" then dict
                        else <[kv.1 := Some (before_equals kv.2)]> dict) ∅ kvs) k
            = PStr (before_equals v)).
  { intros k v Hin Hk. unfold dict_get.
    by rewrite (foldl_insert_present kvs k v ∅ Hnd Hin Hk). }
  split; [exact Hfirst|]. split; [|split].
  - intros k v Hin Hk Hv. rewrite (Hfirst k v Hin Hk).
    by rewrite before_equals_without.
  - intros k Hk _. unfold dict_get.
    by rewrite (foldl_insert_absent kvs k ∅ Hk), lookup_empty.
  - apply parsePayload_proto.
Qed.

(** Decide a closed decidable proposition by evaluation. *)
Ltac by_decide :=
  match goal with
  | |- ?P => refine (@bool_decide_unpack P _ _); vm_compute; exact I
  end.

Lemma parsePayload_reads_back_witness :
  dict_get (parsePayload (render [("r", "abc"); ("s", "QUJD=="); ("i", "4096")])) "s"
  = PStr (before_equals "QUJD==")
  /\ dict_get (parsePayload (render [("r", "abc"); ("s", "QUJD=="); ("i", "4096")])) "i"
     = PStr "4096"
  /\ dict_get (parsePayload (render [("r", "abc"); ("s", "QUJD=="); ("i", "4096")])) "v"
     = PUndefined.
Proof.
  destruct (parsePayload_reads_back [("r", "abc"); ("s", "QUJD=="); ("i", "4096")])
    as (H1 & H2 & H3 & _).
  - by_decide.
  - repeat constructor.
  - split; [|split].
    + apply H1; [by_decide | discriminate].
    + apply H2; [by_decide | discriminate | reflexivity].
    + apply H3; by_decide.
Defined.

Lemma encode_avoids (c : ascii) (bs : Buffer) :
  forallb (fun x => negb (Ascii.eqb x c)) (Base64.pad :: Base64.alphabet) = true ->
  contains c (Base64.encode bs) = false.
Proof.
  intros Hc. cbn [forallb] in Hc. apply andb_prop in Hc as [Hpad Hall].
  apply negb_true_iff in Hpad.
  assert (Hchar : forall n, Ascii.eqb (Base64.char_of n) c = false).
  { intros n. unfold Base64.char_of.
    destruct (Base64.alphabet !! Z.to_nat n) as [x|] eqn:Hx; [|exact Hpad].
    rewrite forallb_forall in Hall. apply negb_true_iff, Hall.
    apply list_elem_of_In. by eapply list_elem_of_lookup_2. }
  induction bs as [bs IH] using (induction_ltof1 _ (@List.length Z)).
  unfold ltof in IH.
  destruct bs as [|x [|y [|z rest]]]; cbn [Base64.encode];
    rewrite ?contains_cons, ?Hchar, ?Hpad; try reflexivity.
  cbn. apply IH. cbn. lia.
Qed.

Lemma sextets_before_equals (s : string) :
  Base64.sextets (before_equals s) = Base64.sextets s.
Proof.
  unfold before_equals. induction s as [|c s IH]; [reflexivity|].
  cbn [split]. change "="%char with Base64.pad.
  destruct (Ascii.eqb c Base64.pad) eqn:Hc.
  - cbn. by rewrite Hc.
  - destruct (split_head Base64.pad s) as (p & ps & Hs).
    change "="%char with Base64.pad in IH. rewrite Hs in IH |- *. cbn in IH |- *.
    rewrite Hc, IH. reflexivity.
Qed.

(** The padding that [parsePayload] cuts off does not change what the
    value decodes to. *)
Lemma decode_before_equals (bs : Buffer) :
  Forall is_byte bs -> Base64.decode (before_equals (Base64.encode bs)) = bs.
Proof.
  intros Hbs. unfold Base64.decode. rewrite sextets_before_equals.
  by apply Base64Facts.decode_encode.
Qed.

Lemma digit_of_pretty_N_char (k : N) :
  (k < 10)%N -> digit_of (pretty_N_char k) = Some (Z.of_N k).
Proof.
  intros Hk.
  assert (k = 0 \/ k = 1 \/ k = 2 \/ k = 3 \/ k = 4 \/ k = 5 \/ k = 6
          \/ k = 7 \/ k = 8 \/ k = 9)%N as Hcases by lia.
  repeat (destruct Hcases as [-> | Hcases]; [reflexivity|]).
  by subst k.
Qed.

Lemma digits_pretty_N_go (x : N) :
  forall s, (0 < x)%N ->
    digits (pretty_N_go x s) None = digits s (Some (Z.of_N x)).
Proof.
  induction (N.lt_wf_0 x) as [x _ IH]; intros s Hx.
  rewrite pretty_N_go_step by exact Hx.
  assert (Hd : digit_of (pretty_N_char (x `mod` 10)) = Some (Z.of_N (x `mod` 10))).
  { apply digit_of_pretty_N_char. by apply N.mod_lt. }
  pose proof (N.div_mod x 10 ltac:(discriminate)) as Hdm.
  destruct (N.eq_dec (x `div` 10) 0) as [Hz | Hpos].
  - rewrite Hz in Hdm |- *. rewrite pretty_N_go_0. cbn [digits]. rewrite Hd.
    cbn [default]. unfold id. do 2 f_equal. lia.
  - apply N.neq_0_lt_0 in Hpos.
    rewrite IH; [|by apply N.div_lt|exact Hpos].
    cbn [digits]. rewrite Hd. cbn [default]. unfold id. do 2 f_equal. lia.
Qed.

Lemma pretty_N_go_first (x : N) :
  forall s, (0 < x)%N ->
    exists k s', pretty_N_go x s = String (pretty_N_char k) s'.
Proof.
  induction (N.lt_wf_0 x) as [x _ IH]; intros s Hx.
  rewrite pretty_N_go_step by exact Hx.
  destruct (N.eq_dec (x `div` 10) 0) as [Hz | Hpos].
  - rewrite Hz, pretty_N_go_0. by eexists _, _.
  - apply N.neq_0_lt_0 in Hpos. apply IH; [by apply N.div_lt | exact Hpos].
Qed.

(** An integer of magnitude up to 2^53 is a double. *)
Lemma round_double_exact (z : Z) :
  Z.abs z <= 2 ^ 53 -> round_double z = Int z.
Proof.
  intros Hz.
  destruct (decide (Z.abs z = 2 ^ 53)) as [Hmax | Hlt].
  { assert (z = 2 ^ 53 \/ z = - 2 ^ 53) as [-> | ->] by lia;
      vm_compute; reflexivity. }
  assert (He : Z.max 0 (Z.log2 (Z.abs z) - 52) = 0).
  { destruct (decide (Z.abs z = 0)) as [-> | Hnz]; [reflexivity|].
    assert (Z.log2 (Z.abs z) < 53) by (apply Z.log2_lt_pow2; lia). lia. }
  unfold round_double. rewrite He.
  rewrite Z.shiftr_0_r, Z.shiftl_0_r. cbn [Z.ltb Z.compare andb].
  rewrite ?Z.shiftl_0_r.
  assert (Hsmall : (2 ^ 1024 <=? Z.abs z) = false).
  { apply Z.leb_gt. assert (2 ^ 53 < 2 ^ 1024) by (apply Z.pow_lt_mono_r; lia).
    lia. }
  rewrite Hsmall. f_equal. destruct z; cbn; lia.
Qed.

Lemma parseInt10_unsigned (k : N) (s : string) :
  parseInt10 (PStr (String (pretty_N_char k) s))
  = match digits (String (pretty_N_char k) s) None with
    | Some n => round_double n
    | None => NaN
    end.
Proof.
  assert (Hone : forall n, round_double (1 * n) = round_double n)
    by (intros n; by rewrite Z.mul_1_l).
  unfold pretty_N_char; repeat case_match; subst;
    unfold parseInt10; cbn [ToString];
    match goal with
    | |- context [trim_left (String ?c s)] =>
        change (trim_left (String c s)) with (String c s)
    end;
    cbv beta iota zeta;
    repeat match goal with
           | H : digits _ None = _ |- _ => rewrite H; clear H
           end;
    by rewrite ?Hone.
Qed.

(** [parseInt] reads the decimal text of an integer as the nearest
    double. *)
Lemma parseInt10_pretty (z : Z) : parseInt10 (PStr (pretty z)) = round_double z.
Proof.
  assert (HN : forall p : positive,
             pretty (Npos p) = pretty_N_go (Npos p) "").
  { intros p. unfold pretty, pretty_N. by case_decide. }
  destruct z as [|p|p].
  - reflexivity.
  - change (pretty (Zpos p)) with (pretty (Npos p)). rewrite HN.
    destruct (pretty_N_go_first (Npos p) "") as (k & s' & Hs); [lia|].
    rewrite Hs, parseInt10_unsigned, <- Hs, digits_pretty_N_go by lia.
    reflexivity.
  - change (pretty (Zneg p)) with (String "-" (pretty (Npos p))). rewrite HN.
    unfold parseInt10. cbn [ToString].
    change (trim_left (String "-" ?t)) with (String "-" t).
    cbv iota beta. rewrite digits_pretty_N_go by lia.
    cbn [digits]. reflexivity.
Qed.

(** [parseInt] on sample texts: leading white space (the no-break space
    U+00A0 included) and a sign are skipped and reading stops at the
    first character that is no digit; integers beyond 2^53 are rounded
    to the nearest double, ties to the even one, and to an infinity
    beyond the largest double; without a digit the result is [NaN]. *)
Lemma parseInt10_samples :
  parseInt10 (PStr (String (ascii_of_nat 160) "5")) = Int 5
  /\ parseInt10 (PStr " +12abc") = Int 12
  /\ parseInt10 (PStr "-0") = Int 0
  /\ parseInt10 (PStr "x1") = NaN
  /\ parseInt10 PUndefined = NaN
  /\ parseInt10 (PStr "9007199254740993") = Int 9007199254740992
  /\ parseInt10 (PStr "9007199254740995") = Int 9007199254740996
  /\ parseInt10 (PStr "100000000000000000000000")
     = Int 99999999999999991611392
  /\ parseInt10 (PStr (pretty (2 ^ 1024 - 2 ^ 970 - 1)))
     = Int (2 ^ 1024 - 2 ^ 971)
  /\ parseInt10 (PStr (pretty (2 ^ 1024 - 2 ^ 970))) = Infinity false
  /\ parseInt10 (PStr (pretty (- 10 ^ 400))) = Infinity true.
Proof. repeat split; vm_compute; reflexivity. Qed.

(** X12. A server's first message ["r=<nonce>,s=<base64 salt>,i=<count>"]
    is read back by the mechanism: [parsePayload] yields the nonce (one
    without [,] or [=]); the salt text it yields, although cut at the
    base64 padding, decodes to the bytes of the salt; and [parseInt]
    applied to the count field gives the double nearest to the count,
    which is the count itself when its magnitude is at most 2^53. *)
Theorem server_first_reads_back (nonce : string) (salt : Buffer) (iterations : Z) :
  contains "," nonce = false -> contains "=" nonce = false ->
  Forall is_byte salt ->
  let dict := parsePayload (server_first nonce salt iterations) in
  dict_get dict "r" = PStr nonce
  /\ (exists salt_text,
        dict_get dict "s" = PStr salt_text /\ Base64.decode salt_text = salt)
  /\ parseInt10 (dict_get dict "i") = round_double iterations
  /\ (Z.abs iterations <= 2 ^ 53 ->
      parseInt10 (dict_get dict "i") = Int iterations).
Proof.
  intros Hn1 Hn2 Hsalt dict. subst dict. unfold server_first.
  assert (Hpretty : forall c, contains c "0123456789-" = false ->
                              contains c (pretty iterations) = false).
  { intros c Hc. apply pretty_Z_avoids.
    - apply digit_is_not. rewrite !contains_cons in Hc |- *.
      repeat (apply orb_false_iff in Hc as [? Hc]).
      repeat (apply orb_false_iff; split; [assumption|]). reflexivity.
    - intros ->. discriminate Hc. }
  destruct (parsePayload_reads_back
              [("r", nonce); ("s", Base64.encode salt); ("i", pretty iterations)])
    as (Hcut & Hwhole & _).
  - by_decide.
  - repeat constructor; cbn; try assumption.
    + by apply encode_avoids.
    + by apply Hpretty.
  - assert (Hi : parseInt10
                   (dict_get
                      (parsePayload
                         (render [("r", nonce); ("s", Base64.encode salt);
                                  ("i", pretty iterations)])) "i")
                 = round_double iterations).
    { rewrite (Hwhole "i" (pretty iterations)).
      - apply parseInt10_pretty.
      - do 2 apply list_elem_of_further. apply list_elem_of_here.
      - discriminate.
      - by apply Hpretty. }
    split; [|split; [|split]].
    + apply Hwhole; [|discriminate|exact Hn2]. apply list_elem_of_here.
    + eexists. split.
      * apply Hcut; [|discriminate].
        apply list_elem_of_further, list_elem_of_here.
      * by apply decode_before_equals.
    + exact Hi.
    + intros Hsafe. rewrite Hi. by apply round_double_exact.
Qed.

Lemma server_first_reads_back_witness :
  let dict := parsePayload (server_first "fyko+d2lbbFgONRv9qkxdawL3rfcNHYJY1ZVvWVs7j"
                              [65; 37; 194; 71] 4096) in
  dict_get dict "r" = PStr "fyko+d2lbbFgONRv9qkxdawL3rfcNHYJY1ZVvWVs7j"
  /\ (exists salt_text,
        dict_get dict "s" = PStr salt_text
        /\ Base64.decode salt_text = [65; 37; 194; 71])
  /\ parseInt10 (dict_get dict "i") = Int 4096.
Proof.
  destruct (server_first_reads_back "fyko+d2lbbFgONRv9qkxdawL3rfcNHYJY1ZVvWVs7j"
              [65; 37; 194; 71] 4096) as (Hr & Hs & _ & Hi).
  - reflexivity.
  - reflexivity.
  - repeat constructor; unfold is_byte; lia.
  - split; [exact Hr|]. split; [exact Hs|]. apply Hi. vm_compute. discriminate.
Defined.

End ScramEdges.

(** ** The cache used by a single mechanism *)

Module HiCacheOneMethod.
Import Js Types Scram.

Section WithCrypto.
Context {C : Crypto}.

(** X13. Memoization is transparent as long as one hash method is used:
    after any sequence of calls of [HI] made with the method [m] (string
    material, byte salts) from the empty cache, a further such call
    returns exactly what [pbkdf2Sync] returns for its arguments and the
    method [m], or throws when [pbkdf2Sync] does, whether or not the
    cache is hit. *)
Theorem HI_is_transparent_for_one_method (m : Method) (calls : list HiCall)
    (d : string) (s : Buffer) (it : Num) :
  Forall (call_of_method m) calls -> Forall is_byte s ->
  (HI (PStr d) s it m (HI_sequence calls hi_initial)).2
  = match pbkdf2Sync (PStr d) s it (hiLengthMap m) m with
    | Some v => Returns v
    | None => Throws CryptoError
    end.
Proof.
  intros Hcalls Hs.
  pose (coherent := fun w : HiState =>
    forall d s it v, Forall is_byte s ->
      _hiCache w !! hiKey (PStr d) s it = Some v ->
      pbkdf2Sync (PStr d) s it (hiLengthMap m) m = Some v).
  assert (Hstep : forall w d s it,
             Forall is_byte s -> coherent w ->
             coherent (HI (PStr d) s it m w).1).
  { intros w d0 s0 it0 Hs0 Hw. unfold HI.
    destruct (_hiCache w !! hiKey (PStr d0) s0 it0) as [cached|] eqn:Hk;
      [exact Hw|].
    destruct (pbkdf2Sync (PStr d0) s0 it0 (hiLengthMap m) m) as [v0|] eqn:Hv;
      [|exact Hw].
    intros d1 s1 it1 v1 Hs1. cbn.
    destruct (decide (hiKey (PStr d0) s0 it0 = hiKey (PStr d1) s1 it1))
      as [Heq | Hne].
    - rewrite Heq, lookup_insert_eq. intros [= <-].
      apply HiKeyFacts.hiKey_inj in Heq as (<- & <- & <-); assumption.
    - rewrite lookup_insert_ne by exact Hne.
      destruct (200 <=? _hiCacheCount w); cbn.
      + by rewrite lookup_empty.
      + by apply Hw. }
  assert (Hseq : forall calls w,
             Forall (call_of_method m) calls -> coherent w ->
             coherent (HI_sequence calls w)).
  { intros cs. induction cs as [|c cs IH]; intros w Hcs Hw; [exact Hw|].
    apply Forall_cons in Hcs as [(d0 & s0 & it0 & -> & Hs0) Hcs].
    apply (IH _ Hcs). by apply Hstep. }
  assert (Hw : coherent (HI_sequence calls hi_initial)).
  { apply Hseq; [exact Hcalls|]. intros ? ? ? ? _ Hl. cbn in Hl.
    by rewrite lookup_empty in Hl. }
  unfold HI.
  destruct (_hiCache (HI_sequence calls hi_initial) !! hiKey (PStr d) s it)
    as [cached|] eqn:Hk; cbn.
  - by rewrite (Hw d s it cached Hs Hk).
  - by destruct (pbkdf2Sync (PStr d) s it (hiLengthMap m) m).
Qed.

End WithCrypto.

Lemma HI_is_transparent_for_one_method_witness :
  (HI (C := example_crypto) (PStr "pw") [1; 2; 3] (Int 7) sha1
     (HI_sequence (C := example_crypto) two_hundred_calls hi_initial)).2
  = Returns (take 20 ([1; 2; 3] ++ repeat 0 20)).
Proof.
  apply (HI_is_transparent_for_one_method (C := example_crypto) sha1
           two_hundred_calls "pw" [1; 2; 3] (Int 7)).
  - unfold two_hundred_calls. apply Forall_fmap, Forall_forall. intros i _.
    exists "pw", [1; 2; 3], (Int i). split; [reflexivity|].
    repeat constructor; unfold is_byte; lia.
  - repeat constructor; unfold is_byte; lia.
Defined.

End HiCacheOneMethod.

(** ** User-name escaping, exactly *)

Module UsernameEscaping.
Import Js Types Scram HiKeyFacts.

Lemma replace_single (c x : ascii) (rep s : string) :
  replace (String c EmptyString) rep (String x s)
  = if Ascii.eqb x c then rep +:+ s
    else String x (replace (String c EmptyString) rep s).
Proof.
  cbn [replace String.prefix].
  destruct (ascii_dec c x) as [-> | Hne].
  - rewrite Ascii.eqb_refl. by destruct s.
  - destruct (Ascii.eqb_spec x c) as [-> | _]; [done | reflexivity].
Qed.

Lemma replace_empty (c : ascii) (rep : string) :
  replace (String c EmptyString) rep EmptyString = EmptyString.
Proof. reflexivity. Qed.

Lemma replace_without (c : ascii) (rep s : string) :
  contains c s = false -> replace (String c EmptyString) rep s = s.
Proof.
  induction s as [|x s IH]; [reflexivity|].
  rewrite contains_cons. intros [Hx Hs]%orb_false_iff.
  by rewrite replace_single, Hx, IH.
Qed.

Lemma escape_cons (x : ascii) (s : string) :
  escape_every_occurrence (String x s)
  = if Ascii.eqb x "=" then "=3D" +:+ escape_every_occurrence s
    else if Ascii.eqb x "," then "=2C" +:+ escape_every_occurrence s
    else String x (escape_every_occurrence s).
Proof. reflexivity. Qed.

Lemma escape_without (s : string) :
  contains "=" s = false -> contains "," s = false ->
  escape_every_occurrence s = s.
Proof.
  induction s as [|x s IH]; [reflexivity|].
  rewrite !contains_cons. intros [Hx1 Hs1]%orb_false_iff [Hx2 Hs2]%orb_false_iff.
  by rewrite escape_cons, Hx1, Hx2, IH.
Qed.

Lemma once_cons (c x : ascii) (s : string) :
  occurs_at_most_once c (String x s)
  = if Ascii.eqb x c then negb (contains c s) else occurs_at_most_once c s.
Proof. reflexivity. Qed.

Lemma comma_once (s : string) :
  contains "=" s = false -> occurs_at_most_once "," s = true ->
  replace "," "=2C" s = escape_every_occurrence s.
Proof.
  induction s as [|x s IH]; [reflexivity|].
  rewrite contains_cons, once_cons, replace_single, escape_cons.
  intros [Hx Hs]%orb_false_iff. rewrite Hx.
  destruct (Ascii.eqb x ",").
  - intros Hc%negb_true_iff. by rewrite escape_without.
  - intros Honce. by rewrite IH.
Qed.

Lemma equals_once (s : string) :
  contains "," s = false -> occurs_at_most_once "=" s = true ->
  replace "=" "=3D" s = escape_every_occurrence s.
Proof.
  induction s as [|x s IH]; [reflexivity|].
  rewrite contains_cons, once_cons, replace_single, escape_cons.
  intros [Hx Hs]%orb_false_iff. rewrite Hx.
  destruct (Ascii.eqb x "=").
  - intros Hc%negb_true_iff. by rewrite escape_without.
  - intros Honce. by rewrite IH.
Qed.

Lemma clean_cons (x : ascii) (s : string) :
  clean_username (String x s)
  = if Ascii.eqb x "=" then "=3D" +:+ replace "," "=2C" s
    else if Ascii.eqb x "," then "=2C" +:+ replace "=" "=3D" s
    else String x (clean_username s).
Proof.
  unfold clean_username. rewrite replace_single.
  destruct (Ascii.eqb x "=") eqn:Heq.
  - change ("=3D" +:+ s) with (String "=" (String "3" (String "D" s))).
    rewrite !replace_single. reflexivity.
  - rewrite replace_single. by destruct (Ascii.eqb x ",").
Qed.

Lemma clean_username_once (u : string) :
  occurs_at_most_once "=" u = true -> occurs_at_most_once "," u = true ->
  clean_username u = escape_every_occurrence u.
Proof.
  induction u as [|x u IH]; [reflexivity|].
  rewrite !once_cons, clean_cons, escape_cons.
  destruct (Ascii.eqb x "=") eqn:Heq.
  - apply Ascii.eqb_eq in Heq as ->. cbn [Ascii.eqb]. cbn.
    intros Hc%negb_true_iff Honce. by rewrite comma_once.
  - destruct (Ascii.eqb x ",") eqn:Hcomma.
    + intros Honce Hc%negb_true_iff. by rewrite equals_once.
    + intros H1 H2. by rewrite IH.
Qed.

Lemma length_append (s1 s2 : string) :
  String.length (s1 +:+ s2) = (String.length s1 + String.length s2)%nat.
Proof.
  induction s1 as [|x s1 IH]; [reflexivity|].
  rewrite append_cons. cbn. by rewrite IH.
Qed.

(** The length of a name escaped by the code: two more characters for a
    character that occurs, however often. *)
Lemma replace_length (c : ascii) (rep s : string) :
  String.length (replace (String c EmptyString) rep s)
  = if contains c s then (String.length s + String.length rep - 1)%nat
    else String.length s.
Proof.
  induction s as [|x s IH]; [reflexivity|].
  rewrite replace_single, contains_cons.
  destruct (Ascii.eqb x c); cbn [orb].
  - rewrite length_append. cbn [String.length]. lia.
  - cbn [String.length]. rewrite IH.
    destruct (contains c s) eqn:Hc; [|reflexivity].
    destruct s as [|y s]; [discriminate Hc|]. cbn [String.length]. lia.
Qed.

Lemma contains_replace_other (c c' : ascii) (rep s : string) :
  contains c' rep = false -> c <> c' ->
  contains c' (replace (String c EmptyString) rep s) = contains c' s.
Proof.
  intros Hrep Hne. induction s as [|x s IH]; [reflexivity|].
  rewrite replace_single. destruct (Ascii.eqb x c) eqn:Hx.
  - apply Ascii.eqb_eq in Hx as ->.
    rewrite contains_app, Hrep, contains_cons.
    apply Ascii.eqb_neq in Hne. by rewrite Hne.
  - by rewrite !contains_cons, IH.
Qed.

Lemma clean_length (u : string) :
  String.length (clean_username u)
  = (String.length u + (if contains "=" u then 2 else 0)
     + (if contains "," u then 2 else 0))%nat.
Proof.
  unfold clean_username. rewrite replace_length, contains_replace_other;
    [|reflexivity|discriminate].
  rewrite replace_length.
  destruct (contains "," u), (contains "=" u); cbn; lia.
Qed.

Lemma escape_length_bound (u : string) :
  (String.length u + (if contains "=" u then 2 else 0)
   + (if contains "," u then 2 else 0)
   <= String.length (escape_every_occurrence u))%nat.
Proof.
  induction u as [|x u IH]; [cbn; lia|].
  rewrite escape_cons, !contains_cons.
  destruct (Ascii.eqb x "=") eqn:H1.
  - apply Ascii.eqb_eq in H1 as ->. rewrite length_append. cbn.
    destruct (contains "=" u), (contains "," u); lia.
  - destruct (Ascii.eqb x ",") eqn:H2.
    + rewrite length_append. cbn.
      destruct (contains "=" u), (contains "," u); lia.
    + cbn. lia.
Qed.

Lemma escape_length_strict (u : string) :
  occurs_at_most_once "=" u && occurs_at_most_once "," u = false ->
  (String.length u + (if contains "=" u then 2 else 0)
   + (if contains "," u then 2 else 0)
   < String.length (escape_every_occurrence u))%nat.
Proof.
  induction u as [|x u IH]; [discriminate|].
  rewrite !once_cons, escape_cons, !contains_cons.
  pose proof (escape_length_bound u) as Hb.
  destruct (Ascii.eqb x "=") eqn:H1.
  - apply Ascii.eqb_eq in H1 as ->. cbn [Ascii.eqb]. rewrite length_append. cbn.
    destruct (contains "=" u) eqn:Hc; cbn.
    + intros _. destruct (contains "," u); lia.
    + intros Honce. specialize (IH ltac:(by rewrite andb_comm, Honce)).
      destruct (contains "," u); lia.
  - destruct (Ascii.eqb x ",") eqn:H2.
    + rewrite length_append. cbn.
      destruct (contains "," u) eqn:Hc; cbn.
      * intros _. destruct (contains "=" u); lia.
      * rewrite andb_true_r. intros Honce.
        specialize (IH ltac:(by rewrite Honce)).
        destruct (contains "=" u); lia.
    + cbn. intros Honce. specialize (IH Honce). lia.
Qed.

(** X14. The escaping done by [_executeScram] is the complete one (every
    [=] becomes [=3D] and every [,] becomes [=2C]) exactly for the user
    names in which [=] occurs at most once and [,] occurs at most once;
    a name without either character is sent unchanged. *)
Theorem clean_username_complete_iff (u : string) :
  (clean_username u = escape_every_occurrence u
   <-> occurs_at_most_once "=" u = true /\ occurs_at_most_once "," u = true)
  /\ (contains "=" u = false -> contains "," u = false -> clean_username u = u).
Proof.
  split.
  - split.
    + intros Heq.
      destruct (occurs_at_most_once "=" u && occurs_at_most_once "," u) eqn:Honce.
      * by apply andb_prop in Honce.
      * pose proof (escape_length_strict u Honce) as Hlt.
        rewrite <- Heq, clean_length in Hlt. lia.
    + intros [H1 H2]. by apply clean_username_once.
  - intros H1 H2. unfold clean_username.
    by rewrite (replace_without "=" _ u H1), (replace_without "," _ u H2).
Qed.

Lemma clean_username_complete_iff_witness :
  clean_username "o=acme,ou" = escape_every_occurrence "o=acme,ou"
  /\ clean_username "user" = "user".
Proof.
  split.
  - apply (proj1 (clean_username_complete_iff "o=acme,ou")). split; reflexivity.
  - apply (proj2 (clean_username_complete_iff "user")); reflexivity.
Defined.

End UsernameEscaping.

(** ** A whole attempt on one connection *)

Module ScramAttempt.
Import Js Types Scram.

Section WithCrypto.
Context {C : Crypto}.






(** X16. The first reply ends the attempt without going further when it
    is a transport error (reported as it is), when its document has a
    truthy [$err] or [errmsg] (the document is reported as the error),
    or when it is unusable: no reply object, no result document, no
    payload, or a payload whose [s] entry is undefined (missing, or
    written without [=]), which make the callback throw a [TypeError].  In all these cases the key derivation is not
    run: the state is the one the reply found. *)
Theorem first_reply_failures (m : Method) (db : string) (connection : Conn)
    (pw : Prim) (firstBare : string) (w : HiState) :
  let k := on_saslStart m db connection pw firstBare in
  (forall e r, k (Some e) r w = Done w (Some e) RNone)
  /\ (forall res,
        truthy (dollar_err res) || truthy (errmsg res) = true ->
        k None (RSome {| result := Some res |}) w
        = Done w (Some (ResultDoc res)) RNone)
  /\ (forall r,
        r = RNone \/ r = RFalse \/ r = RSome {| result := None |} ->
        exists msg, k None r w = Raise w (TypeError msg))
  /\ (forall res,
        truthy (dollar_err res) || truthy (errmsg res) = false ->
        payload res = None \/
        (exists pv, payload res = Some pv
                    /\ dict_get (parsePayload pv) "s" = PUndefined) ->
        exists msg,
          k None (RSome {| result := Some res |}) w = Raise w (TypeError msg)).
Proof.
  intros k. subst k. unfold on_saslStart, _getError. cbn [result].
  split; [reflexivity|].
  split; [by intros res ->|].
  split; [intros r [-> | [-> | ->]]; eexists; reflexivity|].
  intros res -> [-> | (pv & -> & Hs)]; [eexists; reflexivity|].
  rewrite Hs. eexists; reflexivity.
Qed.

(** X17. The iteration-count check, exactly.  On an error-free first reply
    with a salt for which [HI] returns, the attempt fails with the
    invalid-iteration-count error if and only if the count that
    [parseInt] reads is a number other than 0 that is below 4096
    (negative ones and minus infinity included); in every other case
    (4096 or more, plus infinity, 0, or no number at all, as when the
    [i] entry is undefined) the [saslContinue] command is sent with the
    conversation identifier of the reply. *)
Theorem iteration_threshold (m : Method) (db : string) (connection : Conn)
    (pw : Prim) (firstBare : string) (res : Result) (pv salt_text : string)
    (w w' : HiState) (sp : Buffer) :
  truthy (dollar_err res) = false -> truthy (errmsg res) = false ->
  payload res = Some pv ->
  dict_get (parsePayload pv) "s" = PStr salt_text ->
  let it := parseInt10 (dict_get (parsePayload pv) "i") in
  HI pw (Base64.decode salt_text) it m w = (w', Returns sp) ->
  let p := on_saslStart m db connection pw firstBare None
             (RSome {| result := Some res |}) w in
  (p = Done w' (Some (invalid_iteration_count it)) RFalse
   <-> (exists n, it = Int n /\ n <> 0 /\ n < 4096) \/ it = Infinity true)
  /\ ((exists pl,
         p = Send w' connection
               (AuthProvider._buildCommand (db +:+ ".$cmd")
                  (saslContinue (conversationId res) pl))
               (on_saslContinue db connection))
      <-> it = NaN \/ it = Int 0 \/ (exists n, it = Int n /\ 4096 <= n)
          \/ it = Infinity false)
  /\ (dict_get (parsePayload pv) "i" = PUndefined -> it = NaN).
Proof.
  intros Herr Hmsg Hpv Hsalt it HHI p.
  pose proof (ScramProtocol.on_saslStart_shape m db connection pw firstBare
                res pv salt_text w Herr Hmsg Hpv Hsalt) as Hshape.
  cbn zeta in Hshape. fold it p in Hshape. rewrite HHI in Hshape.
  assert (Hlow : Num_truthy it && Num_ltb it 4096 = true
                 <-> (exists n, it = Int n /\ n <> 0 /\ n < 4096)
                     \/ it = Infinity true).
  { destruct it as [|[|]|n]; cbn.
    - split; [discriminate | by intros [(? & ? & _) | ?]].
    - split; [by right | reflexivity].
    - split; [discriminate | by intros [(? & ? & _) | ?]].
    - rewrite andb_true_iff, negb_true_iff, Z.eqb_neq, Z.ltb_lt.
      split; [by eauto | by intros [(? & [= <-] & ?) | ?]]. }
  assert (Hhigh : Num_truthy it && Num_ltb it 4096 = false
                  <-> it = NaN \/ it = Int 0
                      \/ (exists n, it = Int n /\ 4096 <= n)
                      \/ it = Infinity false).
  { destruct it as [|[|]|n]; cbn.
    - split; [by auto | reflexivity].
    - split; [discriminate|].
      intros [? | [? | [(? & ? & _) | ?]]]; discriminate.
    - split; [by auto | reflexivity].
    - rewrite andb_false_iff, negb_false_iff, Z.eqb_eq, Z.ltb_ge.
      split.
      + intros [-> | Hn]; [by auto | by eauto 6].
      + intros [? | [[= ->] | [(? & [= <-] & ?) | ?]]];
          [discriminate | by auto | by auto | discriminate]. }
  split; [|split].
  - rewrite <- Hlow. destruct (Num_truthy it && Num_ltb it 4096).
    + by split.
    + destruct Hshape as [pl ->]. by split.
  - rewrite <- Hhigh. destruct (Num_truthy it && Num_ltb it 4096).
    + rewrite Hshape. split; [by intros [? ?] | discriminate].
    + by split.
  - intros Hi. subst it. by rewrite Hi.
Qed.

End WithCrypto.

Lemma first_reply_failures_witness :
  on_saslStart (C := example_crypto) sha1 "admin" 7%nat (PStr "pw")
    "n=user,r=abc" None
    (reply_with PUndefined (PNum (Int 1)) (Some "r=abc,s,i=4096")) hi_initial
  = Raise hi_initial
      (TypeError "The first argument must be a string or a Buffer").
Proof.
  assert (Hs : dict_get (parsePayload "r=abc,s,i=4096") "s" = PUndefined)
    by (vm_compute; reflexivity).
  destruct (proj2 (proj2 (proj2
             (first_reply_failures (C := example_crypto) sha1 "admin" 7%nat
                (PStr "pw") "n=user,r=abc" hi_initial)))
             {| dollar_err := PUndefined; errmsg := PUndefined;
                done := PUndefined; conversationId := PNum (Int 1);
                payload := Some "r=abc,s,i=4096" |}
             eq_refl
             (or_intror (ex_intro _ "r=abc,s,i=4096" (conj eq_refl Hs))))
    as [msg Hmsg].
  unfold reply_with. rewrite Hmsg. f_equal.
  unfold on_saslStart, _getError in Hmsg. cbn in Hmsg.
  by injection Hmsg as <-.
Defined.

Lemma iteration_threshold_witness :
  exists pl w',
    on_saslStart (C := example_crypto) sha1 "admin" 7%nat (PStr "pw")
      "n=user,r=abc" None
      (reply_with PUndefined (PNum (Int 1)) (Some "r=abc,s=QUJD,i=4096"))
      hi_initial
    = Send w' 7%nat
        (AuthProvider._buildCommand "admin.$cmd" (saslContinue (PNum (Int 1)) pl))
        (on_saslContinue "admin" 7%nat).
Proof.
  pose (res := {| dollar_err := PUndefined; errmsg := PUndefined;
                  done := PUndefined; conversationId := PNum (Int 1);
                  payload := Some "r=abc,s=QUJD,i=4096" |}).
  pose (w' := (HI (C := example_crypto) (PStr "pw") [65; 66; 67] (Int 4096) sha1
                 hi_initial).1).
  pose (sp := take 20 ([65; 66; 67] ++ repeat 0 20)).
  assert (Hs : dict_get (parsePayload "r=abc,s=QUJD,i=4096") "s" = PStr "QUJD")
    by (vm_compute; reflexivity).
  assert (Hi : parseInt10 (dict_get (parsePayload "r=abc,s=QUJD,i=4096") "i")
               = Int 4096)
    by (vm_compute; reflexivity).
  assert (HHI : HI (C := example_crypto) (PStr "pw") (Base64.decode "QUJD")
                  (parseInt10 (dict_get (parsePayload "r=abc,s=QUJD,i=4096") "i"))
                  sha1 hi_initial
                = (w', Returns sp))
    by (vm_compute; reflexivity).
  destruct (proj2 (proj1 (proj2
             (iteration_threshold (C := example_crypto) sha1 "admin" 7%nat
                (PStr "pw") "n=user,r=abc" res "r=abc,s=QUJD,i=4096" "QUJD"
                hi_initial w' sp eq_refl eq_refl eq_refl Hs HHI)))
             (or_intror (or_intror (or_introl (ex_intro _ 4096
                (conj Hi (Z.le_refl 4096)))))))
    as [pl Hpl].
  exists pl, w'. exact Hpl.
Defined.

(** A count written after a no-break space is read as the number: the
    reply ["r=abc,s=QUJD,i=<U+00A0>5"] has the derivation run with 5
    and is refused. *)
Lemma count_after_no_break_space_is_refused :
  let pv := "r=abc,s=QUJD,i=" +:+ String (ascii_of_nat 160) "5" in
  exists w',
    on_saslStart (C := example_crypto) sha1 "admin" 7%nat (PStr "pw")
      "n=user,r=abc" None (reply_with PUndefined (PNum (Int 1)) (Some pv))
      hi_initial
    = Done w' (Some (invalid_iteration_count (Int 5))) RFalse
    /\ pbkdf2_calls w' = [(PStr "pw", [65; 66; 67], Int 5, 20, sha1)].
Proof. vm_compute. eexists. split; reflexivity. Qed.

End ScramAttempt.
